(** * quickjs-debugger: a shallow embedding of the transport, the connection,
    the debugger session and the object-graph inspector, with the properties
    stated for them.

    Layout of the development:
    - [Js]: the JavaScript values and built-ins the code relies on
      ([parseInt], [parseFloat], [Number.prototype.toString(16)],
      [String.prototype.padStart], [JSON.stringify] seen as a normalisation);
    - [Framing]: [addMessageListener] and [sendMessage] (connection.ts);
    - [Connection]: [QuickJSDebugConnection] (connection.ts) as an event
      handler over an explicit state: pending map, promise store, timers;
    - [Session]: [QuickJSVariable], [QuickJSStackFrame] and the request-based
      operations of [QuickJSDebugSession] (session.ts);
    - [Inspect]: [QuickJSHandle.inspect] / [inspectInternal] with the shared
      [referenceMap], the container heap and the concurrent child fetches;
    - [Minecraft]: the protocol handshake and [setBreakpoints] of
      [MinecraftDebugSession] (minecraft.ts);
    - [SessionOps]: the control requests, [evaluate], [inspectVariable]
      and the envelopes of [QuickJSDebugSession];
    - [FunctionCode]: [JSON.stringify] of a string and [generateFunctionCode];
    - [Stats]: [mergeStatTreeNodeV1], [mergeStatTreeNodeV2] and the stat
      listeners of [MinecraftDebugSession].
    Definitions come first, the proofs follow them. *)

From Stdlib Require Import String Ascii List ZArith Lia Bool Arith.
From Stdlib Require Import Init.Byte Sorted.
Import ListNotations.
Set Warnings "-register-all".
Open Scope string_scope.
Open Scope list_scope.
Open Scope Z_scope.

(* ================================================================== *)
(** * JavaScript values and built-ins *)
(* ================================================================== *)

Module Js.

(** A JavaScript number. [Decimal m e] is the exact decimal [m * 10^e]; the
    rounding to an IEEE double and the sign of zero are not modelled. *)
Inductive number : Type :=
| NaN
| Infinity (negative : bool)
| Decimal (m e : Z).

(** JavaScript values as they travel through [JSON.stringify]: plain data
    (no functions, no cycles); [JBigInt] is the one value it refuses. *)
Inductive jsval : Type :=
| JUndefined
| JNull
| JBool (b : bool)
| JNum (n : number)
| JStr (s : string)
| JBigInt (z : Z)
| JArr (l : list jsval)
| JObj (members : list (string * jsval)).

Definition int (z : Z) : jsval := JNum (Decimal z 0).

(** Property read [o[k]] on a plain object: [undefined] when absent. *)
Fixpoint obj_get (o : list (string * jsval)) (k : string) : jsval :=
  match o with
  | [] => JUndefined
  | (k', v) :: r => if String.eqb k k' then v else obj_get r k
  end.

(** Property write [o[k] = v]: an existing key keeps its position. *)
Fixpoint obj_set (o : list (string * jsval)) (k : string) (v : jsval)
  : list (string * jsval) :=
  match o with
  | [] => [(k, v)]
  | (k', v') :: r =>
      if String.eqb k k' then (k', v) :: r else (k', v') :: obj_set r k v
  end.

(** Object spread [{...o, ...data}]: the members of [data] written in order. *)
Definition obj_spread (o data : list (string * jsval)) : list (string * jsval) :=
  fold_left (fun acc kv => obj_set acc (fst kv) (snd kv)) data o.

Definition is_undefined (v : jsval) : bool :=
  match v with JUndefined => true | _ => false end.

(** What [JSON.parse(JSON.stringify(v))] gives back, or [None] when
    [JSON.stringify] throws (a BigInt anywhere in [v]): members whose value
    is [undefined] are dropped, [undefined] array elements become [null],
    non-finite numbers become [null]. A top-level [undefined] stays
    [JUndefined] (stringify returns [undefined] there). *)
Fixpoint json_norm (v : jsval) : option jsval :=
  match v with
  | JUndefined => Some JUndefined
  | JNull => Some JNull
  | JBool b => Some (JBool b)
  | JNum (Decimal m e) => Some (JNum (Decimal m e))
  | JNum _ => Some JNull
  | JStr s => Some (JStr s)
  | JBigInt _ => None
  | JArr l =>
      let fix go (l : list jsval) : option (list jsval) :=
        match l with
        | [] => Some []
        | x :: r =>
            match json_norm x, go r with
            | Some y, Some ys => Some ((if is_undefined y then JNull else y) :: ys)
            | _, _ => None
            end
        end in
      option_map JArr (go l)
  | JObj kvs =>
      let fix go (kvs : list (string * jsval)) : option (list (string * jsval)) :=
        match kvs with
        | [] => Some []
        | (k, x) :: r =>
            match json_norm x, go r with
            | Some y, Some ys => Some (if is_undefined y then ys else (k, y) :: ys)
            | _, _ => None
            end
        end in
      option_map JObj (go kvs)
  end.

(** ** Character classes and number parsing *)

(** [StrWhiteSpaceChar] restricted to ASCII (strings here are ASCII). *)
Definition is_ws (c : ascii) : bool :=
  existsb (Ascii.eqb c) [" "%char; "009"%char; "010"%char; "011"%char; "012"%char; "013"%char].

Fixpoint trim_start (s : string) : string :=
  match s with
  | EmptyString => EmptyString
  | String c r => if is_ws c then trim_start r else s
  end.

Definition digit_val (radix : Z) (c : ascii) : option Z :=
  let n := Z.of_nat (nat_of_ascii c) in
  let d :=
    if (48 <=? n) && (n <=? 57) then Some (n - 48)
    else if (97 <=? n) && (n <=? 122) then Some (n - 87)
    else if (65 <=? n) && (n <=? 90) then Some (n - 55)
    else None in
  match d with
  | Some v => if v <? radix then Some v else None
  | None => None
  end.

(** The maximal prefix of digits of the given radix, and the rest. *)
Fixpoint scan_digits (radix : Z) (s : string) : list Z * string :=
  match s with
  | EmptyString => ([], EmptyString)
  | String c r =>
      match digit_val radix c with
      | Some d => let (ds, rest) := scan_digits radix r in (d :: ds, rest)
      | None => ([], s)
      end
  end.

Definition digits_value (radix : Z) (ds : list Z) : Z :=
  fold_left (fun acc d => acc * radix + d) ds 0.

(** The optional sign in front of a numeric literal. *)
Definition strip_sign (s : string) : Z * string :=
  match s with
  | String c r =>
      if Ascii.eqb c "-" then (-1, r) else if Ascii.eqb c "+" then (1, r) else (1, s)
  | EmptyString => (1, s)
  end.

(** The ["0x"] / ["0X"] prefix [parseInt] skips when the radix is 16. *)
Definition strip_0x (s : string) : string :=
  match s with
  | String c1 (String c2 r) =>
      if Ascii.eqb c1 "0" && (Ascii.eqb c2 "x" || Ascii.eqb c2 "X") then r else s
  | _ => s
  end.

(** [parseInt(s, radix)] for radix 10 and 16 (ECMA-262 [parseInt]: trim, sign,
    the ["0x"] prefix when the radix is 16, then the longest digit prefix;
    [NaN] when there is none). The result is kept as an integer. *)
Definition parseInt (s : string) (radix : Z) : number :=
  let '(sign, s1) := strip_sign (trim_start s) in
  let s2 := if radix =? 16 then strip_0x s1 else s1 in
  match scan_digits radix s2 with
  | ([], _) => NaN
  | (ds, _) => Decimal (sign * digits_value radix ds) 0
  end.

Definition starts_with_infinity (s : string) : bool :=
  String.prefix "Infinity" s.

(** [parseFloat(s)]: trim, sign, ["Infinity"], then the longest prefix of the
    form [digits [. digits] [(e|E) [sign] digits]] with at least one mantissa
    digit; [NaN] otherwise. *)
Definition parseFloat (s : string) : number :=
  let '(sign, s1) := strip_sign (trim_start s) in
  if starts_with_infinity s1 then Infinity (sign <? 0) else
  let '(ip, r1) := scan_digits 10 s1 in
  let '(fp, r2) :=
    match r1 with
    | String "." r => scan_digits 10 r
    | _ => ([], r1)
    end in
  let exp :=
    match r2 with
    | String c r =>
        if (Ascii.eqb c "e" || Ascii.eqb c "E")%bool then
          let '(esign, r3) := strip_sign r in
          match scan_digits 10 r3 with
          | ([], _) => 0
          | (eds, _) => esign * digits_value 10 eds
          end
        else 0
    | EmptyString => 0
    end in
  match app ip fp with
  | [] => NaN
  | ds => Decimal (sign * digits_value 10 ds) (exp - Z.of_nat (length fp))
  end.

(** ** Formatting *)

Definition hex_char (d : Z) : ascii :=
  if d <? 10 then ascii_of_nat (Z.to_nat (48 + d)) else ascii_of_nat (Z.to_nat (87 + d)).

(** Base-16 digits of [n >= 0], most significant first. *)
Fixpoint hex_digits_fuel (fuel : nat) (n : Z) : list Z :=
  match fuel with
  | O => []
  | S f => if n <? 16 then [n] else hex_digits_fuel f (n / 16) ++ [n mod 16]
  end.

Definition hex_digits (n : Z) : list Z :=
  hex_digits_fuel (S (Z.to_nat (Z.log2 n))) n.

Fixpoint string_of_chars (l : list ascii) : string :=
  match l with [] => EmptyString | c :: r => String c (string_of_chars r) end.

(** [n.toString(16)] for a non-negative integer [n] (lower case). *)
Definition toString16 (n : Z) : string :=
  string_of_chars (map hex_char (hex_digits n)).

Fixpoint repeat_char (k : nat) (c : ascii) : string :=
  match k with O => EmptyString | S k' => String c (repeat_char k' c) end.

(** [s.padStart(width, c)] for a one-character pad string. *)
Definition padStart (s : string) (width : nat) (c : ascii) : string :=
  String.append (repeat_char (width - String.length s) c) s.

End Js.

Import Js.

Example parseInt_hex_header : parseInt "0000001f
" 16 = Decimal 31 0.
Proof. reflexivity. Qed.

Example toString16_padStart : padStart (toString16 31) 8 "0" = "0000001f".
Proof. reflexivity. Qed.

Example parseFloat_sample : parseFloat "  -1.25e2x" = Decimal (-125) 0.
Proof. reflexivity. Qed.

(* ================================================================== *)
(** * Framed transport: [addMessageListener] and [sendMessage] *)
(* ================================================================== *)

Module Framing.

Definition bytes := list byte.

Definition blen (b : bytes) : Z := Z.of_nat (length b).

(** [Buffer.prototype.subarray(start, end)] with the relative (negative)
    indices and the clamping of typed arrays. *)
Definition subarray (b : bytes) (start stop : Z) : bytes :=
  let len := blen b in
  let rel x := if x <? 0 then Z.max (len + x) 0 else Z.min x len in
  let s := rel start in
  let e := Z.max (rel stop) s in
  firstn (Z.to_nat (e - s)) (skipn (Z.to_nat s) b).

(** [ToIntegerOrInfinity] of a number used as an index ([NaN] is 0, the
    infinities are clamped by [subarray] anyway). *)
Definition num_to_int (n : number) : Z :=
  match n with
  | NaN => 0
  | Infinity neg => if neg then - 2 ^ 53 else 2 ^ 53
  | Decimal m e => if 0 <=? e then m * 10 ^ e else Z.quot m (10 ^ (- e))
  end.

(** The comparison [a >= n] with [a] an integer. *)
Definition z_ge_num (a : Z) (n : number) : bool :=
  match n with
  | NaN => false
  | Infinity neg => neg
  | Decimal m e => if 0 <=? e then m * 10 ^ e <=? a else m <=? a * 10 ^ (- e)
  end.

(** [buffer.toString()] of a header chunk: UTF-8 decoding, which is the
    identity on the ASCII bytes a header is made of. *)
Definition to_text (b : bytes) : string := string_of_list_byte b.

(** The variables captured by the ['data'] handler of [addMessageListener]. *)
Inductive parse_state := SLength | SContent.

Record listener := mkListener {
  chunks : list bytes;
  bufferLength : Z;
  state : parse_state;
  triggerLength : number
}.

(** [chunks = []; bufferLength = 0; state = 'length'; triggerLength = 9]. *)
Definition fresh_listener : listener := mkListener [] 0 SLength (Decimal 9 0).

(** [chunks.length === 1 ? chunks[0] : Buffer.concat(chunks)] *)
Definition bufferedChunk (l : listener) : bytes :=
  match chunks l with
  | [c] => c
  | cs => concat cs
  end.

(** One iteration of the [while] loop; the delivered message, if any. *)
Definition loop_body (l : listener) : listener * option bytes :=
  let buffered := bufferedChunk l in
  let t := num_to_int (triggerLength l) in
  let triggerChunk := subarray buffered 0 t in
  let bl := bufferLength l - t in
  let rest := subarray buffered t (blen buffered) in
  match state l with
  | SLength =>
      (mkListener [rest] bl SContent (parseInt (to_text triggerChunk) 16), None)
  | SContent =>
      (mkListener [rest] bl SLength (Decimal 9 0), Some triggerChunk)
  end.

Definition loop_cond (l : listener) : bool := z_ge_num (bufferLength l) (triggerLength l).

(** [while (bufferLength >= triggerLength) { ... }]; [None] when the fuel
    runs out before the loop condition becomes false. *)
Fixpoint drain (fuel : nat) (l : listener) : option (listener * list bytes) :=
  match fuel with
  | O => None
  | S f =>
      if loop_cond l then
        let '(l', m) := loop_body l in
        match drain f l' with
        | Some (l'', ms) =>
            Some (l'', match m with Some x => x :: ms | None => ms end)
        | None => None
        end
      else Some (l, [])
  end.

(** Each pair of iterations with a non-negative trigger consumes at least
    the 9 header bytes, so this many rounds exhaust a well-formed buffer. *)
Definition data_fuel (l : listener) : nat := S (S (2 * Z.to_nat (bufferLength l))).

(** [socket.on('data', chunk => { bufferLength += chunk.length;
    chunks.push(chunk); while (...) ... })]: the new listener state and the
    messages handed to [onMessage], in order. *)
Definition on_data (l : listener) (chunk : bytes) : option (listener * list bytes) :=
  let l0 := mkListener (chunks l ++ [chunk]) (bufferLength l + blen chunk)
                       (state l) (triggerLength l) in
  drain (data_fuel l0) l0.

(** A stream delivered as a sequence of ['data'] events. *)
Fixpoint feed (l : listener) (cs : list bytes) : option (listener * list bytes) :=
  match cs with
  | [] => Some (l, [])
  | c :: r =>
      match on_data l c with
      | Some (l', ms) =>
          match feed l' r with
          | Some (l'', ms') => Some (l'', ms ++ ms')
          | None => None
          end
      | None => None
      end
  end.

Definition lf : byte := x0a.

(** [Buffer.from(buffer.length.toString(16).padStart(8, '0'))] followed by [lf]. *)
Definition header (n : Z) : bytes :=
  list_byte_of_string (padStart (toString16 n) 8 "0") ++ [lf].

(** [sendMessage]: the packet written for the body [buffer], i.e. the UTF-8
    bytes of [`${JSON.stringify(message)}\n`]. *)
Definition packet (buffer : bytes) : bytes := header (blen buffer) ++ buffer.

Definition sendMessage_body (json_text : string) : bytes :=
  list_byte_of_string (String.append json_text (String (ascii_of_byte lf) EmptyString)).

(** Where a listener stands after it has been fed the prefix [P] of the
    packet of [b]: inside the header, inside the body, or done. *)
Definition inv (b P : bytes) (l : listener) : Prop :=
  bufferLength l = blen (concat (chunks l)) /\
  ( ((length P < 9)%nat /\ state l = SLength /\ triggerLength l = Decimal 9 0 /\
       concat (chunks l) = P)
  \/ ((9 <= length P < 9 + length b)%nat /\ state l = SContent /\
       triggerLength l = Decimal (blen b) 0 /\ concat (chunks l) = skipn 9 P)
  \/ (P = packet b /\ state l = SLength /\ triggerLength l = Decimal 9 0 /\
       concat (chunks l) = [])).

End Framing.

Example framing_two_chunks :
  let body := Framing.sendMessage_body "{}" in
  let p := Framing.packet body in
  option_map snd (Framing.feed Framing.fresh_listener [firstn 5 p; skipn 5 p])
  = Some [body].
Proof. vm_compute. reflexivity. Qed.

(* ================================================================== *)
(** * The connection (connection.ts, [QuickJSDebugConnection]) *)
(* ================================================================== *)

(** The connection is an event handler: every input below is one macrotask
    of the Node.js event loop (a socket event, a timer callback, a call
    from the session). The promise callbacks the code registers with
    [.finally] run as microtasks once the macrotask is over, which is what
    [flush] does. A request's promise is named by its [request_seq]: each
    [sendRequest] call that returns a promise took a fresh one. *)
Module Connection.
Import Js.

(** Association lists keyed by numbers, as [Map<number, _>]: [set] keeps
    the position of an existing key and appends a new one; [delete]
    removes the key. *)
Fixpoint alist_get {A} (k : Z) (m : list (Z * A)) : option A :=
  match m with
  | [] => None
  | (k', v) :: r => if Z.eqb k k' then Some v else alist_get k r
  end.

Fixpoint alist_set {A} (k : Z) (v : A) (m : list (Z * A)) : list (Z * A) :=
  match m with
  | [] => [(k, v)]
  | (k', v') :: r => if Z.eqb k k' then (k', v) :: r else (k', v') :: alist_set k v r
  end.

Definition alist_del {A} (k : Z) (m : list (Z * A)) : list (Z * A) :=
  filter (fun kv => negb (Z.eqb k (fst kv))) m.

(** The [Error]s the code rejects with: [`Request timeout ${ms}ms exceed.`],
    ['Protocol is closed'], and [new Error(response.error)]. *)
Inductive error :=
| TimeoutError (ms : Z)
| ClosedError
| RemoteError (message : jsval).

Definition error_message_closed : string := "Protocol is closed".

Inductive outcome := Pending | Fulfilled (v : jsval) | Rejected (e : error).

(** What the connection does that can be observed from outside. *)
Inductive action :=
| AEmit (name : string)         (** [this.emit(name, ...)] *)
| AClear                        (** [this.requestReactions.clear()] *)
| AReject (p : Z) (e : error)   (** a [reject] resolver is called *)
| AResolve (p : Z) (v : jsval)  (** a [resolve] resolver is called *)
| ASent (seq : Z)               (** [sendRequest] returned the promise of [seq] *)
| AThrew (seq : Z)              (** [sendRequest] threw after taking [seq] *)
| AUncaught.                    (** [handleMessage] threw a [TypeError] *)

Record conn := mkConn {
  requestTimeout : Z;
  requestVersion : Z;
  requestSeq : Z;
  (** [requestReactions]: request seq to the promise its resolvers settle *)
  requestReactions : list (Z * Z);
  promises : list (Z * outcome);
  (** the armed [setTimeout] of each request: deadline, and the timeout
      the error message was built with *)
  timers : list (Z * (Z * Z));
  (** queued [.finally] callbacks, by request seq *)
  microtasks : list Z;
  now : Z;
  socket_open : bool;
  (** messages written to the socket, as [JSON.parse] reads them back *)
  wire : list jsval;
  log : list action
}.

(** [new QuickJSDebugConnection(socket)] *)
Definition init_conn : conn :=
  mkConn 10000 1 1 [] [] [] [] 0 true [] [].

Definition set_reactions (c : conn) (r : list (Z * Z)) : conn :=
  mkConn (requestTimeout c) (requestVersion c) (requestSeq c) r (promises c)
         (timers c) (microtasks c) (now c) (socket_open c) (wire c) (log c).

Definition set_timers (c : conn) (t : list (Z * (Z * Z))) : conn :=
  mkConn (requestTimeout c) (requestVersion c) (requestSeq c) (requestReactions c)
         (promises c) t (microtasks c) (now c) (socket_open c) (wire c) (log c).

Definition add_log (c : conn) (a : action) : conn :=
  mkConn (requestTimeout c) (requestVersion c) (requestSeq c) (requestReactions c)
         (promises c) (timers c) (microtasks c) (now c) (socket_open c) (wire c)
         (log c ++ [a]).

(** Settling a promise: only a pending one changes, and its [.finally]
    callback is queued. The call of the resolver is logged either way. *)
Definition settle (c : conn) (p : Z) (o : outcome) : conn :=
  match alist_get p (promises c) with
  | Some Pending =>
      mkConn (requestTimeout c) (requestVersion c) (requestSeq c) (requestReactions c)
             (alist_set p o (promises c)) (timers c) (microtasks c ++ [p]) (now c)
             (socket_open c) (wire c) (log c)
  | _ => c
  end.

Definition reject (c : conn) (p : Z) (e : error) : conn := settle (add_log c (AReject p e)) p (Rejected e).
Definition resolve (c : conn) (p : Z) (v : jsval) : conn := settle (add_log c (AResolve p v)) p (Fulfilled v).

(** The [.finally] callback of the request [seq]:
    [clearTimeout(timeout); this.requestReactions.delete(requestSeq)]. *)
Definition run_finally (c : conn) (seq : Z) : conn :=
  set_reactions (set_timers c (alist_del seq (timers c))) (alist_del seq (requestReactions c)).

Definition flush (c : conn) : conn :=
  let c' := fold_left run_finally (microtasks c) c in
  mkConn (requestTimeout c') (requestVersion c') (requestSeq c') (requestReactions c')
         (promises c') (timers c') [] (now c') (socket_open c') (wire c') (log c').

(** Node's [setTimeout] runs a delay outside [1 .. 2^31 - 1] after 1 ms. *)
Definition TIMEOUT_MAX : Z := 2 ^ 31 - 1.
Definition timer_delay (after : Z) : Z :=
  if (1 <=? after) && (after <=? TIMEOUT_MAX) then after else 1.

(** [sendEnvelope('request', {request: {request_seq, command, args}})]: the
    object handed to [JSON.stringify]. *)
Definition request_envelope (version seq : Z) (command : string) (args : jsval) : jsval :=
  JObj (obj_spread [("version", int version); ("type", JStr "request")]
          [("request", JObj [("request_seq", int seq); ("command", JStr command);
                             ("args", args)])]).

Definition set_seq (c : conn) (s : Z) : conn :=
  mkConn (requestTimeout c) (requestVersion c) s (requestReactions c) (promises c)
         (timers c) (microtasks c) (now c) (socket_open c) (wire c) (log c).

Definition write (c : conn) (m : jsval) : conn :=
  mkConn (requestTimeout c) (requestVersion c) (requestSeq c) (requestReactions c)
         (promises c) (timers c) (microtasks c) (now c) (socket_open c) (wire c ++ [m]) (log c).

(** [Promise.withResolvers()]: a new pending promise. *)
Definition new_promise (c : conn) (p : Z) : conn :=
  mkConn (requestTimeout c) (requestVersion c) (requestSeq c) (requestReactions c)
         (alist_set p Pending (promises c)) (timers c) (microtasks c) (now c)
         (socket_open c) (wire c) (log c).

(** [sendRequestRaw] then the rest of [sendRequest]. [sendRequestRaw] bumps
    [requestSeq] before [JSON.stringify] runs; when it throws, nothing is
    written and [sendRequest] throws synchronously. *)
Definition send_request (c : conn) (command : string) (args : jsval) : conn :=
  let requestSeq0 := requestSeq c in
  let c1 := set_seq c (requestSeq0 + 1) in
  match json_norm (request_envelope (requestVersion c1) requestSeq0 command args) with
  | None => add_log c1 (AThrew requestSeq0)
  | Some m =>
      let c2 := write c1 m in
      let timeoutError := TimeoutError (requestTimeout c2) in
      let c3 := new_promise c2 requestSeq0 in
      let c4 := set_reactions c3 (alist_set requestSeq0 requestSeq0 (requestReactions c3)) in
      let c5 := set_timers c4 (alist_set requestSeq0
                                 (now c4 + timer_delay (requestTimeout c4), requestTimeout c4)
                                 (timers c4)) in
      add_log c5 (ASent requestSeq0)
  end.

(** JavaScript truthiness. *)
Definition truthy (v : jsval) : bool :=
  match v with
  | JUndefined | JNull => false
  | JBool b => b
  | JNum NaN => false
  | JNum (Infinity _) => true
  | JNum (Decimal m _) => negb (Z.eqb m 0)
  | JStr s => negb (String.eqb s "")
  | JBigInt z => negb (Z.eqb z 0)
  | JArr _ | JObj _ => true
  end.

(** The integer a [Map<number, _>] key lookup with this value can hit. *)
Definition map_key (v : jsval) : option Z :=
  match v with
  | JNum (Decimal m e) =>
      if 0 <=? e then Some (m * 10 ^ e)
      else if Z.modulo m (10 ^ (- e)) =? 0 then Some (m / 10 ^ (- e)) else None
  | _ => None
  end.

(** [handleMessage], on the value [JSON.parse] returned. *)
Definition handle_message (c : conn) (json : jsval) : conn :=
  match json with
  | JNull | JUndefined => add_log c AUncaught
  | JObj kvs =>
      match obj_get kvs "type" with
      | JStr t =>
          if String.eqb t "event" then
            match obj_get kvs "event" with
            | JObj ev =>
                match obj_get ev "type" with
                | JStr name => add_log c (AEmit name)
                | _ => c
                end
            | JNull | JUndefined => add_log c AUncaught
            | _ => c
            end
          else if String.eqb t "response" then
            let reaction :=
              match map_key (obj_get kvs "request_seq") with
              | Some k => option_map (pair k) (alist_get k (requestReactions c))
              | None => None
              end in
            match reaction with
            | Some (k, p) =>
                let c1 := set_reactions c (alist_del k (requestReactions c)) in
                let err := obj_get kvs "error" in
                if truthy err then reject c1 p (RemoteError err)
                else resolve c1 p (obj_get kvs "body")
            | None => c
            end
          else c
      | _ => c
      end
  | _ => c
  end.

Definition set_open (c : conn) (b : bool) : conn :=
  mkConn (requestTimeout c) (requestVersion c) (requestSeq c) (requestReactions c)
         (promises c) (timers c) (microtasks c) (now c) b (wire c) (log c).

(** The ['end'] handler of the constructor. *)
Definition on_end (c : conn) : conn :=
  let c1 := add_log (set_open c false) (AEmit "end") in
  let reactions := map snd (requestReactions c1) in
  let c2 := add_log (set_reactions c1 []) AClear in
  let c3 := fold_left (fun c p => reject c p ClosedError) reactions c2 in
  add_log (set_reactions c3 []) AClear.

(** The callback of the timer of request [seq], when it is due. *)
Definition fire_timer (c : conn) (seq : Z) : conn :=
  match alist_get seq (timers c) with
  | Some (deadline, ms) =>
      if deadline <=? now c
      then reject (set_timers c (alist_del seq (timers c))) seq (TimeoutError ms)
      else c
  | None => c
  end.

Definition elapse (c : conn) (d : Z) : conn :=
  mkConn (requestTimeout c) (requestVersion c) (requestSeq c) (requestReactions c)
         (promises c) (timers c) (microtasks c) (now c + Z.max 0 d) (socket_open c)
         (wire c) (log c).

Definition set_timeout (c : conn) (t : Z) : conn :=
  mkConn t (requestVersion c) (requestSeq c) (requestReactions c)
         (promises c) (timers c) (microtasks c) (now c) (socket_open c)
         (wire c) (log c).

Inductive input :=
| ISend (command : string) (args : jsval)  (** [sendRequest(command, args)] *)
| IMessage (json : jsval)                  (** a framed message arrives *)
| ITimer (seq : Z)                         (** the timer of [seq] is looked at *)
| IElapse (ms : Z)                         (** the clock advances *)
| IEnd                                     (** the socket emits ['end'] *)
| IClose                                   (** [close()] *)
| ISetTimeout (ms : Z).                    (** [connection.requestTimeout = ms] *)

Definition handle (c : conn) (i : input) : conn :=
  match i with
  | ISend command args => send_request c command args
  | IMessage json => handle_message c json
  | ITimer seq => fire_timer c seq
  | IElapse d => elapse c d
  | IEnd => on_end c
  | IClose => set_open c false
  | ISetTimeout t => set_timeout c t
  end.

(** One macrotask, then the microtasks it queued. *)
Definition step (c : conn) (i : input) : conn := flush (handle c i).

Definition run (c : conn) (ins : list input) : conn := fold_left step ins c.

(** The [request_seq] of a request envelope read back from the wire. *)
Definition wire_seq (m : jsval) : option Z :=
  match m with
  | JObj kvs =>
      match obj_get kvs "request" with
      | JObj r => map_key (obj_get r "request_seq")
      | _ => None
      end
  | _ => None
  end.

Definition promise_state (c : conn) (p : Z) : option outcome := alist_get p (promises c).

(** The request seqs [sendRequest] took, in call order, whether it threw
    or not; and those of the calls that returned a promise. *)
Definition assigned (l : list action) : list Z :=
  flat_map (fun a => match a with ASent s | AThrew s => [s] | _ => [] end) l.

Definition sent (l : list action) : list Z :=
  flat_map (fun a => match a with ASent s => [s] | _ => [] end) l.

Definition is_send (i : input) : bool :=
  match i with ISend _ _ => true | _ => false end.

(** [JSON.stringify] accepts the arguments of this call, if it is one. *)
Definition serialisable (i : input) : bool :=
  match i with
  | ISend _ args => match json_norm args with Some _ => true | None => false end
  | _ => true
  end.

(** The integers [a .. a + n - 1]. *)
Definition zseq (a : Z) (n : nat) : list Z := map (fun k => a + Z.of_nat k) (seq 0 n).

(** The invariant of the reachable states: the microtask queue is empty
    between macrotasks, every entry of [requestReactions] is keyed by the
    seq of its own promise, which is pending, keys are unique, and every
    promise was created with a seq already taken. *)
Definition wf (c : conn) : Prop :=
  microtasks c = [] /\
  Forall (fun kv => snd kv = fst kv /\ alist_get (fst kv) (promises c) = Some Pending)
         (requestReactions c) /\
  NoDup (map fst (requestReactions c)) /\
  (forall k, alist_get k (promises c) <> None -> k < requestSeq c).

(** A step that takes no request seq, writes nothing to the socket and
    logs no [sendRequest] outcome. *)
Definition quiet (c c' : conn) : Prop :=
  requestSeq c' = requestSeq c /\ wire c' = wire c /\
  exists extra, log c' = log c ++ extra /\ assigned extra = [] /\ sent extra = [].

(** The invariant in the middle of a macrotask, before the microtasks run:
    an entry whose promise is no longer pending has its [.finally]
    callback queued. *)
Definition pwf (c : conn) : Prop :=
  Forall (fun kv => snd kv = fst kv /\
                    (alist_get (fst kv) (promises c) = Some Pending \/ In (fst kv) (microtasks c)))
         (requestReactions c) /\
  NoDup (map fst (requestReactions c)) /\
  (forall k, alist_get k (promises c) <> None -> k < requestSeq c).

(** [k] is not among [ms]. *)
Definition not_in (ms : list Z) (k : Z) : bool := negb (existsb (Z.eqb k) ms).

End Connection.

(* ================================================================== *)
(** * The debugger session: variables and stack frames (session.ts) *)
(* ================================================================== *)

Module Session.

(** [interface VariableInfo]. The message comes from [JSON.parse] and is not
    checked, so [indexedVariables] is kept as the JSON value that arrived:
    [JUndefined] when the member is missing, and any other value (a number,
    [null], ...) as sent. *)
Module VariableInfo.
Record t := mk {
  name : string;
  value : string;
  type : option string;
  variablesReference : Z;
  indexedVariables : jsval }.
End VariableInfo.

(** The fields of a [QuickJSVariable] (those of [QuickJSHandle] it sets).
    [primitiveValue] and [indexedCount] are [JUndefined] until assigned;
    [valueAsString] is [None] until assigned. *)
Module QuickJSVariable.
Record t := mk {
  ref : Z;
  name : string;
  type : option string;
  primitive : bool;
  primitiveValue : jsval;
  isArray : bool;
  indexedCount : jsval;
  valueAsString : option string }.
End QuickJSVariable.

(** [this.type === s] in the [switch]. *)
Definition type_is (t : option string) (s : string) : bool :=
  match t with Some t' => String.eqb t' s | None => false end.

(** The constructor [new QuickJSVariable(session, variableInfo)]: the
    [QuickJSHandle] part ([ref]), then [name], [type], [primitive = true],
    [isArray = false], then the [switch]; ['object'] and ['function'] fall
    through to [default]. *)
Definition new_QuickJSVariable (vi : VariableInfo.t) : QuickJSVariable.t :=
  let t := VariableInfo.type vi in
  let value := VariableInfo.value vi in
  let mk := QuickJSVariable.mk (VariableInfo.variablesReference vi) (VariableInfo.name vi) t in
  if type_is t "string" then mk true (JStr value) false JUndefined None
  else if type_is t "integer" then mk true (JNum (parseInt value 10)) false JUndefined None
  else if type_is t "float" then mk true (JNum (parseFloat value)) false JUndefined None
  else if type_is t "boolean" then mk true (JBool (String.eqb value "true")) false JUndefined None
  else if type_is t "null" then mk true JNull false JUndefined None
  else if type_is t "undefined" then mk true JUndefined false JUndefined None
  else if (type_is t "object" || type_is t "function")%bool then
    let iv := VariableInfo.indexedVariables vi in
    mk false JUndefined (negb (is_undefined iv)) iv (Some value)
  else mk false JUndefined false JUndefined (Some value).

(** The [body] of an [EvaluateResponse] ([DebugProtocol]), with the members
    the constructor reads. *)
Module EvaluateBody.
Record t := mk {
  result : string;
  type : option string;
  variablesReference : Z;
  indexedVariables : jsval }.
End EvaluateBody.

(** [evaluate], once the request resolved with [res]:
    [new QuickJSVariable(this, { ...res, name: 'result', value: res.result })]. *)
Definition evaluate (res : EvaluateBody.t) : QuickJSVariable.t :=
  new_QuickJSVariable
    (VariableInfo.mk "result" (EvaluateBody.result res) (EvaluateBody.type res)
                     (EvaluateBody.variablesReference res) (EvaluateBody.indexedVariables res)).

(** [interface StackFrameInfo]. *)
Module StackFrameInfo.
Record t := mk { id : Z; name : string; filename : string; line : Z; column : Z }.
End StackFrameInfo.

(** The fields of a [QuickJSStackFrame]. *)
Module QuickJSStackFrame.
Record t := mk { id : Z; name : string; fileName : string; lineNumber : Z }.
End QuickJSStackFrame.

Definition new_QuickJSStackFrame (frameInfo : StackFrameInfo.t) : QuickJSStackFrame.t :=
  QuickJSStackFrame.mk (StackFrameInfo.id frameInfo) (StackFrameInfo.name frameInfo)
                       (StackFrameInfo.filename frameInfo) (StackFrameInfo.line frameInfo).

(** [traceStack] and [getTopStack], once the ['stackTrace'] request resolved
    with the array [res]. Indexing [[0]] past the end gives [undefined],
    written [None]. *)
Definition traceStack (res : list StackFrameInfo.t) : list QuickJSStackFrame.t :=
  map new_QuickJSStackFrame res.

Definition getTopStack (res : list StackFrameInfo.t) : option QuickJSStackFrame.t :=
  nth_error (traceStack res) 0.

End Session.

(* ================================================================== *)
(** * The object-graph inspector: [QuickJSHandle.inspect] (session.ts) *)
(* ================================================================== *)

(** One call of [inspect]. The values it builds are primitives, strings
    ([String(handle)]) or containers, the arrays and objects it creates;
    a container is named by its address in the [heap], in creation order.
    [referenceMap] is the per-call [Map<number, unknown>] from a reference
    to the container made for it.

    [inspectInternal] runs synchronously up to its [await this.getProperties]
    (which sends the ['variables'] request at once); the rest of the call
    runs when that request settles. Which pending request settles next is
    up to the debuggee and the timers, so it is a choice of the
    environment: [Answer i] settles the [i]-th pending request with the
    debuggee's answer, [Fail i] makes it throw (the [catch] then uses no
    properties). When a request settles, the children are started in the
    order of the properties, as [properties.map] does.

    A child's value is written into its parent's container as soon as the
    child is started. The code writes [result[name]] when the child's
    promise resolves. The final value of each member is the same either
    way. What differs is the order of the keys of the JavaScript object,
    and which write wins when two properties have the same name. The
    symbol [QuickJSRef] of a container is its [tag]. The calls modelled
    here leave [inspectProto] unset, so a ['__proto__'] property is
    skipped. *)
Module Inspect.
Import Session.

Inductive mval :=
| MPrim (v : jsval)     (** [this.primitiveValue] *)
| MText (s : string)    (** [String(this)] *)
| MObj (a : nat).       (** the container at address [a] *)

Record container := mkContainer { tag : Z; isArray : bool; members : list (string * mval) }.

(** A pending [getProperties] call: the container it fills, the handle
    whose properties it asks for, and the call's [depth]. *)
Record fetch := mkFetch { target : nat; handle : QuickJSVariable.t; depth : Z }.

(** [occurrences] lists every handle the call has looked at, in order,
    with its reference and the value it materialised to. The code keeps no
    such list; it is there to state properties of every occurrence. *)
Record istate := mkIState {
  referenceMap : list (Z * nat);
  heap : list container;
  pending : list fetch;
  occurrences : list (Z * mval) }.

Definition empty_state : istate := mkIState [] [] [] [].

(** [toString()]: [valueAsString ?? String(primitiveValue)]. Only handles
    that are not primitive reach it. Every such [QuickJSVariable] has
    [valueAsString] set. *)
Definition toString (h : QuickJSVariable.t) : string :=
  match QuickJSVariable.valueAsString h with Some s => s | None => "undefined" end.

(** Property write [o[k] = v] on a container's members. *)
Fixpoint mset (o : list (string * mval)) (k : string) (v : mval) : list (string * mval) :=
  match o with
  | [] => [(k, v)]
  | (k', v') :: r => if String.eqb k k' then (k', v) :: r else (k', v') :: mset r k v
  end.

Fixpoint mget (o : list (string * mval)) (k : string) : option mval :=
  match o with
  | [] => None
  | (k', v) :: r => if String.eqb k k' then Some v else mget r k
  end.

Fixpoint update_nth {A} (n : nat) (f : A -> A) (l : list A) : list A :=
  match n, l with
  | _, [] => []
  | O, x :: r => f x :: r
  | S n', x :: r => x :: update_nth n' f r
  end.

Fixpoint remove_nth {A} (n : nat) (l : list A) : list A :=
  match n, l with
  | _, [] => []
  | O, _ :: r => r
  | S n', x :: r => x :: remove_nth n' r
  end.

Definition set_member (s : istate) (a : nat) (k : string) (v : mval) : istate :=
  mkIState (referenceMap s)
           (update_nth a (fun c => mkContainer (tag c) (isArray c) (mset (members c) k v)) (heap s))
           (pending s) (occurrences s).

Definition seen (s : istate) (r : Z) (v : mval) : istate :=
  mkIState (referenceMap s) (heap s) (pending s) (occurrences s ++ [(r, v)]).

(** The synchronous part of [inspectInternal(depth)] on handle [h]: the
    primitive test, the [referenceMap] lookup, then either a new container,
    entered in [referenceMap] under [h.ref] and waiting for its
    properties, or [String(this)]. *)
Definition start_call (s : istate) (h : QuickJSVariable.t) (depth : Z) : mval * istate :=
  if QuickJSVariable.primitive h then (MPrim (QuickJSVariable.primitiveValue h), s)
  else
    match Connection.alist_get (QuickJSVariable.ref h) (referenceMap s) with
    | Some a => (MObj a, s)
    | None =>
        if (type_is (QuickJSVariable.type h) "object" && (0 <? depth))%bool then
          let a := length (heap s) in
          (MObj a,
           mkIState (referenceMap s ++ [(QuickJSVariable.ref h, a)])
                    (heap s ++ [mkContainer (QuickJSVariable.ref h) (QuickJSVariable.isArray h) []])
                    (pending s ++ [mkFetch a h depth]) (occurrences s))
        else (MText (toString h), s)
    end.

(** The same, with the occurrence logged. *)
Definition start (s : istate) (h : QuickJSVariable.t) (depth : Z) : mval * istate :=
  let '(v, s1) := start_call s h depth in (v, seen s1 (QuickJSVariable.ref h) v).

(** The options of [getProperties]: [Some count] for the indexed filter
    of an array, [None] for an object. *)
Definition getPropOptions (h : QuickJSVariable.t) : option jsval :=
  if QuickJSVariable.isArray h then Some (QuickJSVariable.indexedCount h) else None.

(** The debuggee's answer to a ['variables'] request. *)
Definition debuggee := Z -> option jsval -> list VariableInfo.t.

(** The rest of the call of fetch [f], once [properties] arrived. *)
Definition on_properties (s : istate) (f : fetch) (properties : list VariableInfo.t) : istate :=
  fold_left
    (fun s vi =>
       let property := new_QuickJSVariable vi in
       if String.eqb (QuickJSVariable.name property) "__proto__" then s
       else
         let '(v, s1) := start s property (depth f - 1) in
         set_member s1 (target f) (QuickJSVariable.name property) v)
    properties s.

Inductive event := Answer (i : nat) | Fail (i : nat).

Definition event_index (e : event) : nat := match e with Answer i | Fail i => i end.

Definition settle_fetch (props : debuggee) (s : istate) (e : event) : istate :=
  match nth_error (pending s) (event_index e) with
  | None => s
  | Some f =>
      let s0 := mkIState (referenceMap s) (heap s) (remove_nth (event_index e) (pending s))
                         (occurrences s) in
      let properties :=
        match e with
        | Answer _ => props (QuickJSVariable.ref (handle f)) (getPropOptions (handle f))
        | Fail _ => []
        end in
      on_properties s0 f properties
  end.

(** [inspect({maxDepth})] on [root] under the schedule [sched]: the value
    it resolves with and the state. It has resolved once no fetch is
    pending. *)
Definition inspect (props : debuggee) (root : QuickJSVariable.t) (maxDepth : Z) (sched : list event)
  : mval * istate :=
  let '(v, s) := start empty_state root maxDepth in
  (v, fold_left (settle_fetch props) sched s).

(** Every event of [sched] settles a request that is pending. *)
Fixpoint effective (props : debuggee) (s : istate) (sched : list event) : bool :=
  match sched with
  | [] => true
  | e :: r => (event_index e <? length (pending s))%nat && effective props (settle_fetch props s e) r
  end.

(** The remote graph is finite: [universe] lists every reference the root
    and the debuggee's answers mention. *)
Definition closed (props : debuggee) (root : QuickJSVariable.t) (universe : list Z) : Prop :=
  In (QuickJSVariable.ref root) universe /\
  forall r o vi, In vi (props r o) -> In (VariableInfo.variablesReference vi) universe.

(** The invariant of the states of a call: [referenceMap] maps the tag of
    each container to its address, and no two containers share a tag. *)
Definition iwf (s : istate) : Prop :=
  map fst (referenceMap s) = map tag (heap s) /\
  map snd (referenceMap s) = seq 0 (length (heap s)) /\
  NoDup (map tag (heap s)).

(** Every occurrence that materialised to a container names the container
    made for its own reference. *)
Definition occ_ok (s : istate) : Prop :=
  forall r a, In (r, MObj a) (occurrences s) -> nth_error (map tag (heap s)) a = Some r.

(** From [s] to [s']: containers and occurrences are only added, and every
    container added has its fetch added. *)
Definition grows (s s' : istate) : Prop :=
  (exists l, map tag (heap s') = map tag (heap s) ++ l) /\
  (exists o, occurrences s' = occurrences s ++ o) /\
  (length (heap s') + length (pending s) = length (heap s) + length (pending s'))%nat.

(** The container a member path leads to. *)
Definition member_of (s : istate) (v : mval) (k : string) : option mval :=
  match v with
  | MObj a => match nth_error (heap s) a with Some c => mget (members c) k | None => None end
  | _ => None
  end.

(** The value at the end of a member path. *)
Definition path (s : istate) (v : mval) (ks : list string) : option mval :=
  fold_left (fun o k => match o with Some w => member_of s w k | None => None end) ks (Some v).

(** ** Remote graphs *)

(** The [VariableInfo] the debuggee sends for a property holding an object. *)
Definition object_info (name : string) (r : Z) : VariableInfo.t :=
  VariableInfo.mk name "Object" (Some "object") r JUndefined.

(** [A.next = B; B.prev = A], with [A] and [B] under references 1 and 2. *)
Definition two_node_cycle : debuggee :=
  fun r _ => if r =? 1 then [object_info "next" 2]
             else if r =? 2 then [object_info "prev" 1] else [].

Definition cycle_root : QuickJSVariable.t := new_QuickJSVariable (object_info "result" 1).

(** The root (100) reaches the object 300 through [a], a chain of 15
    objects, and through [b], one object (200). *)
Definition chain_graph : debuggee :=
  fun r _ =>
    if r =? 100 then [object_info "a" 1; object_info "b" 200]
    else if (1 <=? r) && (r <=? 14) then [object_info "next" (r + 1)]
    else if r =? 15 then [object_info "next" 300]
    else if r =? 200 then [object_info "x" 300]
    else if r =? 300 then [VariableInfo.mk "v" "1" (Some "integer") 0 JUndefined]
    else [].

Definition chain_root : QuickJSVariable.t := new_QuickJSVariable (object_info "result" 100).

(** The chain is answered before [200]: after the root, the first request
    of the chain, then fourteen times the second pending request (the next
    link of the chain, sent after [200]'s), then [200], then [300]. *)
Definition chain_first : list event :=
  [Answer 0; Answer 0] ++ repeat (Answer 1) 14 ++ [Answer 0; Answer 0].

(** No container of the state has a ['__proto__'] member. *)
Definition no_proto (s : istate) : Prop :=
  Forall (fun c => mget (members c) "__proto__" = None) (heap s).

End Inspect.

(* ================================================================== *)
(** * The host-extended session: [MinecraftDebugSession] (minecraft.ts) *)
(* ================================================================== *)

Module Minecraft.
Import Connection.

(** [interface ProtocolInfo]. *)
Record ProtocolInfo := mkProtocolInfo {
  version : Z;
  targetModuleUuid : option string;
  passcode : option string }.

(** An optional string member: [undefined] when it is not set. *)
Definition opt_str (o : option string) : jsval :=
  match o with Some s => JStr s | None => JUndefined end.

Definition opt_int (o : option Z) : jsval :=
  match o with Some z => int z | None => JUndefined end.

(** The fields of a [MinecraftDebugSession] the handlers below use, with
    its connection. [emitted] lists the events the session emits. *)
Record session := mkSession {
  protocolVersion : Z;
  protocolInfo : option ProtocolInfo;
  connection : conn;
  emitted : list string }.

(** [new MinecraftDebugSession(connection, protocolInfo)] on a fresh
    connection: [protocolVersion] is [ProtocolVersion.Unknown] (0). *)
Definition new_session (protocolInfo : option ProtocolInfo) : session :=
  mkSession 0 protocolInfo init_conn [].

Definition set_connection (s : session) (c : conn) : session :=
  mkSession (protocolVersion s) (protocolInfo s) c (emitted s).

(** [sendEnvelope(type, data)]: [{version: this.requestVersion, type,
    ...data}] through [JSON.stringify], then written; [None] when
    [JSON.stringify] throws. *)
Definition sendEnvelope (c : conn) (type : string) (data : list (string * jsval)) : option conn :=
  match json_norm (JObj (obj_spread [("version", int (requestVersion c)); ("type", JStr type)] data)) with
  | Some m => Some (write c m)
  | None => None
  end.

(** The ['ProtocolEvent'] listener of the constructor, for an event whose
    [version] is [ev_version]. *)
Definition on_protocol_event (s : session) (ev_version : Z) : option session :=
  let s1 := mkSession ev_version (protocolInfo s) (connection s) (emitted s ++ ["protocol"]) in
  match protocolInfo s1 with
  | Some info =>
      option_map (set_connection s1)
        (sendEnvelope (connection s1) "protocol"
           [("version", int (version info));
            ("target_module_uuid", opt_str (targetModuleUuid info));
            ("passcode", opt_str (passcode info))])
  | None => Some s1
  end.

(** [interface BreakpointInfo], and the object the caller passes for it. *)
Record BreakpointInfo := mkBreakpointInfo { line : Z; column : option Z }.

Definition breakpoint_json (b : BreakpointInfo) : jsval :=
  JObj [("line", int (line b)); ("column", opt_int (column b))].

(** [QuickJSDebugSession.setBreakpoints] (session.ts), the base version. *)
Definition base_setBreakpoints (c : conn) (fileName : string) (breakpoints : list BreakpointInfo)
  : option conn :=
  sendEnvelope c "breakpoints"
    [("breakpoints",
      JObj [("path", JStr fileName);
            ("breakpoints", match breakpoints with
                            | [] => JUndefined
                            | _ => JArr (map breakpoint_json breakpoints)
                            end)])].

(** Modelled from the spec: [setBreakpointLines], which the source calls
    but does not contain. The spec describes it as an awaitable
    ['setBreakpoints'] request that resolves with the debuggee's
    per-breakpoint verification statuses. It is written as
    [sendRequest('setBreakpoints', {path, lines})]; the names of the
    argument members are not given by the spec. *)
Definition setBreakpointLines (c : conn) (fileName : string) (lines : list Z) : conn :=
  send_request c "setBreakpoints" (JObj [("path", JStr fileName); ("lines", JArr (map int lines))]).

(** What [setBreakpoints] returns: the promise of a request (named by its
    seq), or an array. *)
Inductive bp_result :=
| Awaiting (seq : Z)
| Statuses (l : list jsval).

Definition SupportBreakpointsAsRequest : Z := 6.

(** [MinecraftDebugSession.setBreakpoints]. *)
Definition setBreakpoints (s : session) (fileName : string) (breakpoints : list BreakpointInfo)
  : option (session * bp_result) :=
  if SupportBreakpointsAsRequest <=? protocolVersion s then
    let breakpointLines := map line breakpoints in
    Some (set_connection s (setBreakpointLines (connection s) fileName breakpointLines),
          Awaiting (requestSeq (connection s)))
  else
    match base_setBreakpoints (connection s) fileName breakpoints with
    | Some c =>
        Some (set_connection s c, Statuses (map (fun _ => JObj [("verified", JBool true)]) breakpoints))
    | None => None
    end.

(** The optional field is set. *)
Definition is_set {A} (o : option A) : bool := match o with Some _ => true | None => false end.

(** The member [k] of a serialised object is there. *)
Definition has_key (m : jsval) (k : string) : bool :=
  match m with
  | JObj kvs => existsb (fun kv => String.eqb (fst kv) k) kvs
  | _ => false
  end.

(** A breakpoint as [JSON.stringify] writes it. *)
Definition breakpoint_wire (b : BreakpointInfo) : jsval :=
  JObj (("line", int (line b)) :: match column b with Some c => [("column", int c)] | None => [] end).

End Minecraft.

(* ================================================================== *)
(** * The requests, envelopes and events of the session (session.ts) *)
(* ================================================================== *)

(** The methods of [QuickJSDebugSession] that talk to the debuggee, on the
    connection model: a request goes through [sendRequest] (written
    [Connection.send_request], its [args] [undefined] when the method
    passes none), an envelope through [sendEnvelope] (written
    [Minecraft.sendEnvelope]). *)
Module SessionOps.
Import Connection Session.

(** [continue()], [pause()], [stepNext()], [stepIn()], [stepOut()]. *)
Definition continue (c : conn) : conn := send_request c "continue" JUndefined.
Definition pause (c : conn) : conn := send_request c "pause" JUndefined.
Definition stepNext (c : conn) : conn := send_request c "next" JUndefined.
Definition stepIn (c : conn) : conn := send_request c "stepIn" JUndefined.
Definition stepOut (c : conn) : conn := send_request c "stepOut" JUndefined.

(** The five, with the command each one sends. *)
Definition control_requests : list ((conn -> conn) * string) :=
  [(continue, "continue"); (pause, "pause"); (stepNext, "next");
   (stepIn, "stepIn"); (stepOut, "stepOut")].

(** [resume()] and [setStopOnException(enabled)]: envelopes, no request. *)
Definition resume (c : conn) : option conn := Minecraft.sendEnvelope c "resume" [].

Definition setStopOnException (c : conn) (enabled : bool) : option conn :=
  Minecraft.sendEnvelope c "stopOnException" [("stopOnException", JBool enabled)].

(** The request [evaluate(frameId, expression, context)] sends:
    [{frameId, context: context ?? 'watch', expression}]. *)
Definition evaluate_request (c : conn) (frameId : Z) (expression : string)
  (context : option string) : conn :=
  send_request c "evaluate"
    (JObj [("frameId", int frameId);
           ("context", JStr (match context with Some x => x | None => "watch" end));
           ("expression", JStr expression)]).

(** [QuickJSStackFrame.evaluateExpression(expression)]:
    [this.session.evaluate(this.id, expression)]. *)
Definition evaluateExpression (c : conn) (frame : QuickJSStackFrame.t) (expression : string) : conn :=
  evaluate_request c (QuickJSStackFrame.id frame) expression None.

(** [inspectVariable(reference, options)]: the request [variables] with
    [{variablesReference: reference, ...options}]; the options are given
    by their members, and [undefined] options spread nothing. *)
Definition inspectVariable_args (reference : Z) (options : list (string * jsval)) : jsval :=
  JObj (obj_spread [("variablesReference", int reference)] options).

Definition inspectVariable (c : conn) (reference : Z) (options : list (string * jsval)) : conn :=
  send_request c "variables" (inspectVariable_args reference options).

(** [getProperties(options)] of the handle [h]:
    [this.session.inspectVariable(this.ref, options)]. *)
Definition getProperties (c : conn) (h : QuickJSVariable.t) (options : list (string * jsval)) : conn :=
  inspectVariable c (QuickJSVariable.ref h) options.

(** The [getPropOptions] [inspectInternal] passes: [{filter: 'indexed',
    start: 0, count: this.indexedCount}] for an array, [undefined] for
    an object. *)
Definition getPropOptions_members (h : QuickJSVariable.t) : list (string * jsval) :=
  match Inspect.getPropOptions h with
  | Some count => [("filter", JStr "indexed"); ("start", int 0); ("count", count)]
  | None => []
  end.

End SessionOps.

(* ================================================================== *)
(** * Generated code: [generateFunctionCode] (session.ts) *)
(* ================================================================== *)

Module FunctionCode.

Definition quote : ascii := "034"%char.
Definition backslash : ascii := "092"%char.

(** [UnicodeEscape(n)] of ECMA-262 for a code unit below 256: [\u00] and
    two lowercase hexadecimal digits. *)
Definition unicode_escape (n : nat) : string :=
  String backslash (String "u" (String "0" (String "0"
    (String (hex_char (Z.of_nat n / 16)) (String (hex_char (Z.of_nat n mod 16)) EmptyString))))).

(** One code unit in [QuoteJSONString] (ECMA-262), for the code units a
    Rocq [ascii] holds (below 256): the escapes of the table, [\u00XX] for
    the other control characters, the code unit itself otherwise. *)
Definition quote_char (c : ascii) : string :=
  let n := nat_of_ascii c in
  if Nat.eqb n 8 then String backslash "b"
  else if Nat.eqb n 9 then String backslash "t"
  else if Nat.eqb n 10 then String backslash "n"
  else if Nat.eqb n 12 then String backslash "f"
  else if Nat.eqb n 13 then String backslash "r"
  else if Nat.eqb n 34 then String backslash (String quote EmptyString)
  else if Nat.eqb n 92 then String backslash (String backslash EmptyString)
  else if Nat.ltb n 32 then unicode_escape n
  else String c EmptyString.

Fixpoint quote_chars (s : string) : string :=
  match s with
  | EmptyString => EmptyString
  | String c r => String.append (quote_char c) (quote_chars r)
  end.

(** [JSON.stringify] of a string. *)
Definition QuoteJSONString (s : string) : string :=
  String quote (String.append (quote_chars s) (String quote EmptyString)).

(** The character the escape [\e] stands for in a JSON string, [\u] apart. *)
Definition simple_escape (e : ascii) : option ascii :=
  if Ascii.eqb e quote then Some quote
  else if Ascii.eqb e backslash then Some backslash
  else if Ascii.eqb e "/" then Some "/"%char
  else if Ascii.eqb e "b" then Some (ascii_of_nat 8)
  else if Ascii.eqb e "f" then Some (ascii_of_nat 12)
  else if Ascii.eqb e "n" then Some (ascii_of_nat 10)
  else if Ascii.eqb e "r" then Some (ascii_of_nat 13)
  else if Ascii.eqb e "t" then Some (ascii_of_nat 9)
  else None.

(** The characters of a JSON string literal after its opening quote, as
    [JSON.parse] reads them (ECMA-404): the text, and what follows the
    closing quote. [None] on a syntax error (an unescaped control
    character, an unknown escape, a missing closing quote), and on a
    [\u] escape above 255, which an [ascii] cannot hold. *)
Fixpoint string_chars (s : string) : option (string * string) :=
  match s with
  | EmptyString => None
  | String c r =>
      if Ascii.eqb c quote then Some (EmptyString, r)
      else if Ascii.eqb c backslash then
        match r with
        | EmptyString => None
        | String e r1 =>
            if Ascii.eqb e "u" then
              match r1 with
              | String h1 (String h2 (String h3 (String h4 r2))) =>
                  match digit_val 16 h1, digit_val 16 h2, digit_val 16 h3, digit_val 16 h4 with
                  | Some d1, Some d2, Some d3, Some d4 =>
                      let v := ((d1 * 16 + d2) * 16 + d3) * 16 + d4 in
                      if v <? 256 then
                        match string_chars r2 with
                        | Some (x, rest) => Some (String (ascii_of_nat (Z.to_nat v)) x, rest)
                        | None => None
                        end
                      else None
                  | _, _, _, _ => None
                  end
              | _ => None
              end
            else
              match simple_escape e with
              | Some d =>
                  match string_chars r1 with
                  | Some (x, rest) => Some (String d x, rest)
                  | None => None
                  end
              | None => None
              end
        end
      else if Nat.ltb (nat_of_ascii c) 32 then None
      else
        match string_chars r with
        | Some (x, rest) => Some (String c x, rest)
        | None => None
        end
  end.

(** A JSON string literal at the start of [s]: its text and the rest. *)
Definition read_string_literal (s : string) : option (string * string) :=
  match s with
  | String c r => if Ascii.eqb c quote then string_chars r else None
  | EmptyString => None
  end.

(** The first argument of [generateFunctionCode]: a function, given by its
    source text (what [String(f)] returns), or a string of code. *)
Inductive code := CFunction (source : string) | CString (text : string).

(** The [type] argument: ['eval'] or ['function']. *)
Inductive code_type := TEval | TFunction.

Section Generate.

(** [JSON.stringify] on the arguments: [None] when it returns [undefined]
    (no arguments). *)
Variable stringify : jsval -> option string.

Definition generateFunctionCode (f : code) (args : jsval) (type : code_type) : string :=
  match f with
  | CFunction source =>
      let serializedArgs := match stringify args with Some t => t | None => "undefined" end in
      match type with
      | TEval => String.append "(" (String.append source (String.append ")(" (String.append serializedArgs ")")))
      | TFunction =>
          let serializedCode :=
            QuoteJSONString (String.append "return (" (String.append source ")(arguments[0])")) in
          String.append "(new Function("
            (String.append serializedCode (String.append "))(" (String.append serializedArgs ")")))
      end
  | CString text => text
  end.

(** [QuickJSStackFrame.evaluateHandle(f, args)]. *)
Definition evaluateHandle (c : Connection.conn) (frame : Session.QuickJSStackFrame.t)
  (f : code) (args : jsval) : Connection.conn :=
  SessionOps.evaluateExpression c frame (generateFunctionCode f args TEval).

(** [QuickJSStackFrame.evaluateHandleGlobal(f, args)]: the request of
    [evaluateExpression] on the generated code. *)
Definition evaluateHandleGlobal (c : Connection.conn) (frame : Session.QuickJSStackFrame.t)
  (f : code) (args : jsval) : Connection.conn :=
  SessionOps.evaluateExpression c frame (generateFunctionCode f args TFunction).

End Generate.

End FunctionCode.

(* ================================================================== *)
(** * Script statistics: [mergeStatTreeNodeV1] and [mergeStatTreeNodeV2] *)
(* ================================================================== *)

(** The stat tree is a [Record<string, StatTreeNode>] whose nodes hold
    their children in the same way; no node is shared between two places,
    so it is written as a tree of association lists, updated functionally.
    A property read on these plain objects is an own-property lookup here;
    the order in which JavaScript lists integer-like keys is not
    modelled, and the theorems only look at which keys are there. *)
Module Stats.
Import Js.

Fixpoint sget {A} (m : list (string * A)) (k : string) : option A :=
  match m with
  | [] => None
  | (k', v) :: r => if String.eqb k k' then Some v else sget r k
  end.

(** [m[k] = v] / [m.set(k, v)]: an existing key keeps its place. *)
Fixpoint sset {A} (m : list (string * A)) (k : string) (v : A) : list (string * A) :=
  match m with
  | [] => [(k, v)]
  | (k', v') :: r => if String.eqb k k' then (k', v) :: r else (k', v') :: sset r k v
  end.

Definition shas {A} (m : list (string * A)) (k : string) : bool :=
  match sget m k with Some _ => true | None => false end.

(** The names a plain object inherits from [Object.prototype]: reading one
    that the object does not own yields the inherited member. The model
    reads own properties only, so the theorems are stated for stat names
    outside this list. *)
Definition object_prototype_names : list string :=
  ["constructor"; "__defineGetter__"; "__defineSetter__"; "hasOwnProperty";
   "__lookupGetter__"; "__lookupSetter__"; "isPrototypeOf"; "propertyIsEnumerable";
   "toString"; "valueOf"; "__proto__"; "toLocaleString"].

Definition plain_key (k : string) : bool := negb (existsb (String.eqb k) object_prototype_names).

(** [interface StatDataV1]; [value] is a string or a number. *)
Module StatDataV1.
Record t := mk {
  id : string;
  parent_id : option string;
  type : option string;
  label : option string;
  value : option jsval }.
End StatDataV1.

(** [interface StatDataModel]. *)
Module StatDataModel.
Inductive t := mk {
  name : string;
  should_aggregate : option bool;
  children : option (list t);
  values : option (list jsval) }.
End StatDataModel.

(** [interface StatTreeNode]; an optional member that is absent or holds
    [undefined] is [None]. *)
Module StatTreeNode.
Inductive t := mk {
  name : string;
  label : option string;
  type : option string;
  updateTick : option Z;
  aggregated : option bool;
  values : option (list jsval);
  children : option (list (string * t)) }.
End StatTreeNode.

Definition StatTree := list (string * StatTreeNode.t).

(** The [pathCache] of [mergeStatTreeNodeV1]: [Map<string, string[]>]. *)
Definition path_cache := list (string * list string).

(** [{ name }] *)
Definition new_node (name : string) : StatTreeNode.t :=
  StatTreeNode.mk name None None None None None None.

Definition children_of (n : StatTreeNode.t) : StatTree :=
  match StatTreeNode.children n with Some c => c | None => [] end.

Definition set_children (n : StatTreeNode.t) (c : StatTree) : StatTreeNode.t :=
  StatTreeNode.mk (StatTreeNode.name n) (StatTreeNode.label n) (StatTreeNode.type n)
    (StatTreeNode.updateTick n) (StatTreeNode.aggregated n) (StatTreeNode.values n) (Some c).

(** The [for (const part of path)] loop of [mergeStatTreeNodeV1], then [f]
    on the [currentTarget] it reaches. Each owner on the way gets
    [children = {}] when it has none. The [bool] is [false] when an owner
    is missing: the loop throws there, after those assignments. *)
Fixpoint walk (t : StatTree) (path : list string) (f : StatTree -> StatTree) : StatTree * bool :=
  match path with
  | [] => (f t, true)
  | part :: rest =>
      match sget t part with
      | None => (t, false)
      | Some owner =>
          let '(ch, ok) := walk (children_of owner) rest f in
          (sset t part (set_children owner ch), ok)
      end
  end.

(** The end of an iteration of [mergeStatTreeNodeV1]: [existed] found or
    created under [statData.id], then its [label] and [type] written, and
    its [values] when [statData.value] is there. *)
Definition update_v1 (statData : StatDataV1.t) (currentTarget : StatTree) : StatTree :=
  let existed :=
    match sget currentTarget (StatDataV1.id statData) with
    | Some n => n
    | None => new_node (StatDataV1.id statData)
    end in
  sset currentTarget (StatDataV1.id statData)
    (StatTreeNode.mk (StatTreeNode.name existed) (StatDataV1.label statData) (StatDataV1.type statData)
       (StatTreeNode.updateTick existed) (StatTreeNode.aggregated existed)
       (match StatDataV1.value statData with Some v => Some [v] | None => StatTreeNode.values existed end)
       (StatTreeNode.children existed)).

(** What [mergeStatTreeNodeV1] leaves: the tree and the cache, and the
    message of the [Error] when it throws. *)
Inductive v1_result :=
| V1Done (target : StatTree) (pathCache : path_cache)
| V1Threw (target : StatTree) (pathCache : path_cache) (message : string).

(** The [path] of an entry: [[]] when [statData.parent_id] is falsy (unset
    or empty), the cached path of the parent otherwise; [None] is the
    [continue] when the parent is not cached. *)
Definition parent_path (pathCache : path_cache) (statData : StatDataV1.t) : option (list string) :=
  match StatDataV1.parent_id statData with
  | Some p => if String.eqb p "" then Some [] else sget pathCache p
  | None => Some []
  end.

Fixpoint mergeStatTreeNodeV1 (target : StatTree) (updated : list StatDataV1.t) (pathCache : path_cache)
  : v1_result :=
  match updated with
  | [] => V1Done target pathCache
  | statData :: rest =>
      match parent_path pathCache statData with
      | None => mergeStatTreeNodeV1 target rest pathCache
      | Some path =>
          let '(target1, ok) := walk target path (update_v1 statData) in
          if ok then
            let pathCache1 :=
              if shas pathCache (StatDataV1.id statData) then pathCache
              else sset pathCache (StatDataV1.id statData) (path ++ [StatDataV1.id statData]) in
            mergeStatTreeNodeV1 target1 rest pathCache1
          else
            V1Threw target1 pathCache
              (String.append "Cannot find node in stat tree: " (String.concat "->" path))
      end
  end.

(** One entry of [mergeStatTreeNodeV2]: [existed] found or created under
    [statData.name], its [updateTick] set, [values] and [aggregated] set
    when [statData.values] is there, and, when [statData.children] is
    there, the children not named by it removed (if [should_aggregate] is
    [true]) before they are merged, recursively, into [existed.children]. *)
Fixpoint merge_v2_entry (target : StatTree) (statData : StatDataModel.t) (tick : Z) {struct statData}
  : StatTree :=
  match statData with
  | StatDataModel.mk name should_aggregate children values =>
      let existed := match sget target name with Some n => n | None => new_node name end in
      let values' := match values with Some vs => Some vs | None => StatTreeNode.values existed end in
      let aggregated' :=
        match values with Some _ => should_aggregate | None => StatTreeNode.aggregated existed end in
      let children' :=
        match children with
        | Some cs =>
            let children0 := children_of existed in
            let children1 :=
              match should_aggregate with
              | Some true =>
                  filter (fun kv => existsb (String.eqb (fst kv)) (map StatDataModel.name cs)) children0
              | _ => children0
              end in
            Some ((fix go (t : StatTree) (l : list StatDataModel.t) : StatTree :=
                     match l with
                     | [] => t
                     | c :: r => go (merge_v2_entry t c tick) r
                     end) children1 cs)
        | None => StatTreeNode.children existed
        end in
      sset target name
        (StatTreeNode.mk (StatTreeNode.name existed) (StatTreeNode.label existed)
           (StatTreeNode.type existed) (Some tick) aggregated' values' children')
  end.

Definition mergeStatTreeNodeV2 (target : StatTree) (updated : list StatDataModel.t) (tick : Z) : StatTree :=
  fold_left (fun t statData => merge_v2_entry t statData tick) updated target.

(** The path [path] leads through the tree to a node. *)
Fixpoint resolves (t : StatTree) (path : list string) : bool :=
  match path with
  | [] => true
  | k :: r => match sget t k with Some n => resolves (children_of n) r | None => false end
  end.

(** Every path that leads to a node in [t] leads to one in [t']. *)
Definition subsumes (t t' : StatTree) : Prop :=
  forall q, resolves t q = true -> resolves t' q = true.

(** Every path the cache holds leads to a node of the tree. *)
Definition cache_ok (t : StatTree) (cache : path_cache) : Prop :=
  forall k p, sget cache k = Some p -> resolves t p = true.

(** No entry of the update, at any depth, has [should_aggregate: true]. *)
Fixpoint no_aggregate (d : StatDataModel.t) : bool :=
  match d with
  | StatDataModel.mk _ should_aggregate children _ =>
      match should_aggregate with Some true => false | _ => true end &&
      match children with Some cs => forallb no_aggregate cs | None => true end
  end.

(** The [id] and [parent_id] of a v1 entry are plain keys. *)
Definition plain_v1 (d : StatDataV1.t) : bool :=
  plain_key (StatDataV1.id d) &&
  match StatDataV1.parent_id d with Some p => plain_key p | None => true end.

(** Every name of the update, at any depth, is a plain key. *)
Fixpoint plain_names (d : StatDataModel.t) : bool :=
  match d with
  | StatDataModel.mk name _ children _ =>
      plain_key name &&
      match children with Some cs => forallb plain_names cs | None => true end
  end.

(** Induction on the nested [StatDataModel]: a property of every entry
    that holds for an entry when it holds for all its children. *)
Fixpoint StatDataModel_ind' (P : StatDataModel.t -> Prop)
  (H : forall name sa cs vs,
       match cs with Some l => Forall P l | None => True end -> P (StatDataModel.mk name sa cs vs))
  (d : StatDataModel.t) {struct d} : P d :=
  match d with
  | StatDataModel.mk name sa cs vs =>
      H name sa cs vs
        (match cs as o return match o with Some l => Forall P l | None => True end with
         | Some l =>
             (fix go (l : list StatDataModel.t) : Forall P l :=
                match l with
                | [] => Forall_nil P
                | c :: r => Forall_cons c (StatDataModel_ind' P H c) (go r)
                end) l
         | None => I
         end)
  end.

(** The fields of a [MinecraftDebugSession] the stat listeners use, and
    the [tick] of each ['stat'] event emitted, in order. The [stat] of
    every such event is the object [this.currentStat] itself, which later
    events keep updating, so only the ticks are listed. *)
Record stat_state := mkStatState {
  currentStat : option StatTree;
  currentTick : Z;
  v1PathCache : path_cache;
  stat_ticks : list Z }.

Definition init_stat_state : stat_state := mkStatState None 0 [] [].

(** [this.currentStat], with [{}] for the tree not created yet. *)
Definition tree_of (st : stat_state) : StatTree :=
  match currentStat st with Some t => t | None => [] end.

(** The ['StatEvent'] listener, and the message of the [Error] it throws,
    if it does. *)
Definition on_StatEvent (st : stat_state) (stats : list StatDataV1.t) : stat_state * option string :=
  let current := match currentStat st with Some t => t | None => [] end in
  match mergeStatTreeNodeV1 current stats (v1PathCache st) with
  | V1Done t c => (mkStatState (Some t) (currentTick st) c (stat_ticks st ++ [currentTick st]), None)
  | V1Threw t c msg => (mkStatState (Some t) (currentTick st) c (stat_ticks st), Some msg)
  end.

(** The ['StatEvent2'] listener. *)
Definition on_StatEvent2 (st : stat_state) (tick : Z) (stats : list StatDataModel.t) : stat_state :=
  let current := match currentStat st with Some t => t | None => [] end in
  let t := mergeStatTreeNodeV2 current stats tick in
  mkStatState (Some t) tick (v1PathCache st) (stat_ticks st ++ [tick]).

(** A sequence of ['StatEvent'] messages: the state after them and the
    errors thrown, in order. *)
Fixpoint run_v1 (st : stat_state) (batches : list (list StatDataV1.t)) : stat_state * list string :=
  match batches with
  | [] => (st, [])
  | b :: r =>
      let '(st1, e) := on_StatEvent st b in
      let '(st2, es) := run_v1 st1 r in
      (st2, match e with Some m => m :: es | None => es end)
  end.

End Stats.

(* ================================================================== *)
(** * Proofs *)
(* ================================================================== *)

(** ** Number formatting and parsing *)

Module JsFacts.

Lemma fold_left_digits_app (radix : Z) (l1 l2 : list Z) (a : Z) :
  fold_left (fun acc d => acc * radix + d) (l1 ++ l2) a
  = fold_left (fun acc d => acc * radix + d) l2
      (fold_left (fun acc d => acc * radix + d) l1 a).
Proof. apply fold_left_app. Qed.

Lemma digits_value_snoc (radix : Z) (l : list Z) (d : Z) :
  digits_value radix (l ++ [d]) = digits_value radix l * radix + d.
Proof. unfold digits_value. rewrite fold_left_digits_app. reflexivity. Qed.

Lemma fold_left_zeros (radix : Z) (k : nat) (l : list Z) :
  fold_left (fun acc d => acc * radix + d) (List.repeat 0 k ++ l) 0
  = fold_left (fun acc d => acc * radix + d) l 0.
Proof.
  induction k as [|k IH]; simpl; [reflexivity|].
  exact IH.
Qed.

Lemma hex_digits_fuel_range (f : nat) (n : Z) :
  0 <= n -> Forall (fun d => 0 <= d < 16) (hex_digits_fuel f n).
Proof.
  revert n; induction f as [|f IH]; intros n Hn; simpl; [constructor|].
  destruct (n <? 16) eqn:E.
  - apply Z.ltb_lt in E. repeat constructor; lia.
  - apply Forall_app; split.
    + apply IH. apply Z.div_pos; lia.
    + repeat constructor; [apply Z.mod_pos_bound; lia | apply Z.mod_pos_bound; lia].
Qed.

Lemma hex_digits_fuel_value (f : nat) (n : Z) :
  0 <= n < 16 ^ Z.of_nat f -> digits_value 16 (hex_digits_fuel f n) = n.
Proof.
  revert n; induction f as [|f IH]; intros n Hn; simpl.
  - simpl in Hn. unfold digits_value; simpl. lia.
  - destruct (n <? 16) eqn:E.
    + reflexivity.
    + apply Z.ltb_ge in E.
      rewrite digits_value_snoc, IH.
      * pose proof (Z.div_mod n 16). lia.
      * split; [apply Z.div_pos; lia|].
        apply Z.div_lt_upper_bound; [lia|].
        rewrite Nat2Z.inj_succ, Z.pow_succ_r in Hn by lia. lia.
Qed.

Lemma hex_digits_fuel_length (f : nat) (n : Z) (k : nat) :
  (1 <= k)%nat -> 0 <= n < 16 ^ Z.of_nat k -> (length (hex_digits_fuel f n) <= k)%nat.
Proof.
  revert n k; induction f as [|f IH]; intros n k Hk Hn; simpl; [lia|].
  destruct (n <? 16) eqn:E; simpl; [lia|].
  apply Z.ltb_ge in E.
  destruct k as [|[|k]]; [lia| |].
  - simpl in Hn. lia.
  - rewrite length_app; simpl.
    assert (length (hex_digits_fuel f (n / 16)) <= S k)%nat; [|lia].
    apply IH; [lia|]. split; [apply Z.div_pos; lia|].
    apply Z.div_lt_upper_bound; [lia|].
    rewrite Nat2Z.inj_succ, Z.pow_succ_r in Hn by lia. lia.
Qed.

Lemma hex_fuel_enough (n : Z) :
  0 <= n -> n < 16 ^ Z.of_nat (S (Z.to_nat (Z.log2 n))).
Proof.
  intros Hn.
  assert (H2 : n < 2 ^ (Z.log2 n + 1)).
  { destruct (Z.eq_dec n 0) as [->|Hne]; [reflexivity|].
    rewrite Z.add_1_r. apply Z.log2_spec. lia. }
  assert (Hle : 2 ^ (Z.log2 n + 1) <= 16 ^ (Z.log2 n + 1)).
  { apply Z.pow_le_mono_l. pose proof (Z.log2_nonneg n). lia. }
  rewrite Nat2Z.inj_succ, Z2Nat.id by apply Z.log2_nonneg.
  rewrite <- Z.add_1_r. lia.
Qed.

Lemma hex_digits_value (n : Z) : 0 <= n -> digits_value 16 (hex_digits n) = n.
Proof.
  intros Hn. unfold hex_digits. apply hex_digits_fuel_value.
  split; [lia|]. apply hex_fuel_enough; lia.
Qed.

Lemma hex_digits_range (n : Z) : 0 <= n -> Forall (fun d => 0 <= d < 16) (hex_digits n).
Proof. intros; apply hex_digits_fuel_range; lia. Qed.

Lemma hex_digits_length8 (n : Z) :
  0 <= n < 16 ^ 8 -> (length (hex_digits n) <= 8)%nat.
Proof. intros H. apply hex_digits_fuel_length; [lia|]. exact H. Qed.

Lemma hex_digits_nonempty (n : Z) : hex_digits n <> [].
Proof.
  unfold hex_digits. simpl. destruct (n <? 16); [discriminate|].
  intros H. apply app_eq_nil in H. destruct H as [_ H]. discriminate.
Qed.

Lemma hex_char_spec (d : Z) :
  0 <= d < 16 ->
  digit_val 16 (hex_char d) = Some d /\ is_ws (hex_char d) = false /\
  Ascii.eqb (hex_char d) "-" = false /\ Ascii.eqb (hex_char d) "+" = false /\
  Ascii.eqb (hex_char d) "x" = false /\ Ascii.eqb (hex_char d) "X" = false.
Proof.
  intros H.
  assert (d = 0 \/ d = 1 \/ d = 2 \/ d = 3 \/ d = 4 \/ d = 5 \/ d = 6 \/ d = 7 \/
          d = 8 \/ d = 9 \/ d = 10 \/ d = 11 \/ d = 12 \/ d = 13 \/ d = 14 \/ d = 15)
    by lia.
  repeat match goal with
         | H : _ \/ _ |- _ => destruct H as [-> | H]
         | H : d = _ |- _ => subst d
         end; vm_compute; repeat split.
Qed.

Lemma scan_hex (ds : list Z) (rest : string) :
  Forall (fun d => 0 <= d < 16) ds ->
  scan_digits 16 (String.append (string_of_chars (map hex_char ds)) rest)
  = let (ds', r) := scan_digits 16 rest in (ds ++ ds', r).
Proof.
  induction 1 as [|d ds Hd Hds IH]; simpl.
  - destruct (scan_digits 16 rest); reflexivity.
  - destruct (hex_char_spec d Hd) as [-> _]. rewrite IH.
    destruct (scan_digits 16 rest); reflexivity.
Qed.

Lemma repeat_char_zero (k : nat) :
  repeat_char k "0" = string_of_chars (map hex_char (List.repeat 0 k)).
Proof. induction k as [|k IH]; simpl; [reflexivity|]. rewrite IH. reflexivity. Qed.

Lemma string_of_chars_app (l1 l2 : list ascii) :
  string_of_chars (l1 ++ l2) = String.append (string_of_chars l1) (string_of_chars l2).
Proof. induction l1 as [|c l1 IH]; simpl; [reflexivity|]. rewrite IH; reflexivity. Qed.

Lemma length_string_of_chars (l : list ascii) :
  String.length (string_of_chars l) = length l.
Proof. induction l as [|c l IH]; simpl; [reflexivity|]. rewrite IH; reflexivity. Qed.

(** The padded header text parses back to the length it encodes. *)
Lemma parseInt_header (n : Z) :
  0 <= n < 16 ^ 8 ->
  parseInt (String.append (padStart (toString16 n) 8 "0") (String "010" EmptyString)) 16
  = Decimal n 0.
Proof.
  intros Hn.
  set (ds := hex_digits n).
  assert (Hlen : (length ds <= 8)%nat) by (apply hex_digits_length8; lia).
  assert (Hrange : Forall (fun d => 0 <= d < 16) ds) by (apply hex_digits_range; lia).
  set (DS := List.repeat 0 (8 - length ds)%nat ++ ds).
  assert (HDS : padStart (toString16 n) 8 "0" = string_of_chars (map hex_char DS)).
  { unfold padStart, toString16, DS. fold ds.
    rewrite length_string_of_chars, length_map, repeat_char_zero.
    rewrite <- string_of_chars_app, <- map_app. reflexivity. }
  assert (HDSr : Forall (fun d => 0 <= d < 16) DS).
  { unfold DS. apply Forall_app; split; [|exact Hrange].
    apply Forall_forall. intros x Hx. apply repeat_spec in Hx. lia. }
  assert (HDSl : length DS = 8%nat).
  { unfold DS. rewrite length_app, repeat_length. lia. }
  assert (HDSv : digits_value 16 DS = n).
  { unfold DS, digits_value. rewrite fold_left_zeros. apply hex_digits_value. lia. }
  rewrite HDS. clear HDS.
  destruct DS as [|d0 [|d1 DS']] eqn:EDS; [discriminate|discriminate|].
  inversion HDSr as [|? ? Hd0 Hr1]; subst.
  inversion Hr1 as [|? ? Hd1 Hr2]; subst.
  destruct (hex_char_spec d0 Hd0) as (_ & W0 & M0 & P0 & _).
  destruct (hex_char_spec d1 Hd1) as (_ & _ & _ & _ & X1 & Y1).
  set (t := String.append (string_of_chars (map hex_char (d0 :: d1 :: DS')))
                          (String "010" EmptyString)).
  assert (Htrim : trim_start t = t) by (simpl; rewrite W0; reflexivity).
  assert (Hsign : strip_sign t = (1, t)) by (simpl; rewrite M0, P0; reflexivity).
  assert (H0x : strip_0x t = t) by (simpl; rewrite X1, Y1, andb_false_r; reflexivity).
  unfold parseInt. rewrite Htrim, Hsign. simpl (16 =? 16). rewrite H0x.
  unfold t. rewrite (scan_hex (d0 :: d1 :: DS')) by assumption.
  simpl. rewrite app_nil_r. f_equal. destruct (digits_value 16 (d0 :: d1 :: DS')); reflexivity.
Qed.

End JsFacts.

(** ** Framing *)

Module FramingFacts.
Import Framing.

Lemma string_of_list_byte_app (s : string) (l : list byte) :
  string_of_list_byte (list_byte_of_string s ++ l)
  = String.append s (string_of_list_byte l).
Proof.
  induction s as [|c s IH]; [reflexivity|].
  unfold string_of_list_byte, list_byte_of_string in *. simpl.
  rewrite ascii_of_byte_of_ascii. f_equal. exact IH.
Qed.

Lemma length_list_byte_of_string (s : string) :
  length (list_byte_of_string s) = String.length s.
Proof.
  induction s as [|c s IH]; [reflexivity|].
  unfold list_byte_of_string in *. simpl. rewrite IH. reflexivity.
Qed.

Lemma length_string_append (s1 s2 : string) :
  String.length (String.append s1 s2) = (String.length s1 + String.length s2)%nat.
Proof. induction s1 as [|c s1 IH]; simpl; [reflexivity|]. rewrite IH; reflexivity. Qed.

Lemma length_repeat_char (k : nat) (c : ascii) : String.length (repeat_char k c) = k.
Proof. induction k as [|k IH]; simpl; [reflexivity|]. rewrite IH; reflexivity. Qed.

Lemma length_toString16 (n : Z) : String.length (toString16 n) = length (hex_digits n).
Proof. unfold toString16. rewrite JsFacts.length_string_of_chars, length_map. reflexivity. Qed.

Lemma header_length (n : Z) : 0 <= n < 16 ^ 8 -> length (header n) = 9%nat.
Proof.
  intros Hn. unfold header, padStart.
  rewrite length_app, length_list_byte_of_string, length_string_append, length_repeat_char.
  rewrite length_toString16. pose proof (JsFacts.hex_digits_length8 n Hn). cbn [length]. lia.
Qed.

Lemma header_text (n : Z) :
  to_text (header n)
  = String.append (padStart (toString16 n) 8 "0") (String "010" EmptyString).
Proof. unfold to_text, header. rewrite string_of_list_byte_app. reflexivity. Qed.

Lemma header_parse (n : Z) :
  0 <= n < 16 ^ 8 -> parseInt (to_text (header n)) 16 = Decimal n 0.
Proof. intros Hn. rewrite header_text. apply JsFacts.parseInt_header; exact Hn. Qed.

Lemma bufferedChunk_concat (l : listener) : bufferedChunk l = concat (chunks l).
Proof.
  unfold bufferedChunk. destruct (chunks l) as [|c [|c' r]]; simpl;
    [reflexivity | rewrite app_nil_r; reflexivity | reflexivity].
Qed.

Lemma subarray_prefix (x : bytes) (t : Z) :
  0 <= t <= blen x -> subarray x 0 t = firstn (Z.to_nat t) x.
Proof.
  intros H. unfold subarray, blen in *.
  replace (0 <? 0) with false by reflexivity.
  destruct (t <? 0) eqn:E; [apply Z.ltb_lt in E; lia|].
  rewrite (Z.min_l 0) by lia. rewrite Z.min_l by lia. rewrite Z.max_l by lia.
  rewrite Z.sub_0_r. reflexivity.
Qed.

Lemma subarray_suffix (x : bytes) (t : Z) :
  0 <= t <= blen x -> subarray x t (blen x) = skipn (Z.to_nat t) x.
Proof.
  intros H. unfold subarray, blen in *.
  destruct (t <? 0) eqn:E; [apply Z.ltb_lt in E; lia|].
  destruct (Z.of_nat (length x) <? 0) eqn:E2; [apply Z.ltb_lt in E2; lia|].
  rewrite Z.min_l by lia. rewrite Z.min_l by lia. rewrite Z.max_l by lia.
  apply firstn_all2. rewrite length_skipn. lia.
Qed.

Lemma packet_length (b : bytes) :
  blen b < 16 ^ 8 -> length (packet b) = (9 + length b)%nat.
Proof.
  intros H. unfold packet. rewrite length_app, header_length; [reflexivity|].
  unfold blen in *. lia.
Qed.

Lemma inv_fresh (b : bytes) : inv b [] fresh_listener.
Proof. split; [reflexivity|]. left. simpl. repeat split; lia. Qed.


Lemma drain_S (f : nat) (l : listener) :
  drain (S f) l =
  if loop_cond l then
    let '(l', m) := loop_body l in
    match drain f l' with
    | Some (l'', ms) => Some (l'', match m with Some x => x :: ms | None => ms end)
    | None => None
    end
  else Some (l, []).
Proof. reflexivity. Qed.

Lemma z_ge_num_int (a m : Z) : z_ge_num a (Decimal m 0) = (m <=? a).
Proof. unfold z_ge_num. simpl. rewrite Z.mul_1_r. reflexivity. Qed.

Lemma num_to_int_int (m : Z) : num_to_int (Decimal m 0) = m.
Proof. unfold num_to_int. simpl. apply Z.mul_1_r. Qed.

Lemma packet_split (b Q rest : bytes) :
  blen b < 16 ^ 8 -> packet b = Q ++ rest -> (9 <= length Q)%nat ->
  firstn 9 Q = header (blen b) /\ skipn 9 Q ++ rest = b.
Proof.
  intros Hb Hpk HQ.
  assert (Hh : length (header (blen b)) = 9%nat)
    by (apply header_length; unfold blen in *; lia).
  unfold packet in Hpk. split.
  - assert (E := f_equal (firstn 9) Hpk).
    rewrite !firstn_app in E. rewrite Hh in E.
    replace (9 - 9)%nat with 0%nat in E by lia.
    replace (9 - length Q)%nat with 0%nat in E by lia.
    rewrite firstn_all2 in E by lia. simpl in E. rewrite !app_nil_r in E.
    symmetry; exact E.
  - assert (E := f_equal (skipn 9) Hpk).
    rewrite !skipn_app in E. rewrite Hh in E.
    replace (9 - 9)%nat with 0%nat in E by lia.
    replace (9 - length Q)%nat with 0%nat in E by lia.
    rewrite skipn_all2 in E by lia. simpl in E. symmetry; exact E.
Qed.

(** Reading the header: a full header in the buffer switches to the body. *)
Lemma header_round (b Q rest : bytes) (l : listener) :
  blen b < 16 ^ 8 -> packet b = Q ++ rest -> (9 <= length Q)%nat ->
  state l = SLength -> triggerLength l = Decimal 9 0 ->
  concat (chunks l) = Q -> bufferLength l = blen Q ->
  loop_cond l = true /\
  loop_body l = (mkListener [skipn 9 Q] (blen Q - 9) SContent (Decimal (blen b) 0), None).
Proof.
  intros Hb Hpk HQ Hst Htr Hc Hbl.
  destruct (packet_split b Q rest Hb Hpk HQ) as [Hf _].
  split.
  - unfold loop_cond. rewrite Htr, z_ge_num_int, Hbl. unfold blen. apply Z.leb_le. lia.
  - unfold loop_body. rewrite bufferedChunk_concat, Hc, Hst, Htr, num_to_int_int, Hbl.
    rewrite subarray_prefix by (unfold blen; lia).
    rewrite subarray_suffix by (unfold blen; lia).
    change (Z.to_nat 9) with 9%nat. rewrite Hf, header_parse.
    + reflexivity.
    + unfold blen in *; lia.
Qed.

(** Reading the body: a full body in the buffer is delivered. *)
Lemma body_round (b : bytes) (l : listener) (k : nat) :
  state l = SContent -> triggerLength l = Decimal (blen b) 0 ->
  concat (chunks l) = b -> bufferLength l = blen b ->
  drain (S (S k)) l = Some (mkListener [[]] 0 SLength (Decimal 9 0), [b]).
Proof.
  intros Hst Htr Hc Hbl.
  rewrite drain_S.
  assert (Hcond : loop_cond l = true).
  { unfold loop_cond. rewrite Htr, z_ge_num_int, Hbl. apply Z.leb_refl. }
  assert (Hbody : loop_body l = (mkListener [[]] 0 SLength (Decimal 9 0), Some b)).
  2: { rewrite Hcond, Hbody, drain_S. reflexivity. }
  { unfold loop_body. rewrite bufferedChunk_concat, Hc, Hst, Htr, num_to_int_int, Hbl.
    rewrite subarray_prefix by (unfold blen; lia).
    rewrite subarray_suffix by (unfold blen; lia).
    unfold blen. rewrite Nat2Z.id, firstn_all, skipn_all, Z.sub_diag. reflexivity. }
Qed.

Lemma loop_cond_int (l : listener) (m : Z) :
  triggerLength l = Decimal m 0 -> loop_cond l = (m <=? bufferLength l).
Proof. intros H. unfold loop_cond. rewrite H. apply z_ge_num_int. Qed.

(** One ['data'] event carrying the slice [c] of the packet of [b], after
    the prefix [P] has been read: the body is delivered exactly when the
    slice completes the packet. *)
Lemma on_data_step (b P c rest : bytes) (l : listener) :
  blen b < 16 ^ 8 -> inv b P l -> packet b = P ++ c ++ rest ->
  exists l',
    on_data l c =
      Some (l', if ((length P <? 9 + length b)%nat &&
                    (9 + length b <=? length (P ++ c))%nat)%bool then [b] else []) /\
    inv b (P ++ c) l'.
Proof.
  intros Hb [Hbl Hcase] Hpk.
  assert (HQ : packet b = (P ++ c) ++ rest) by (rewrite <- app_assoc; exact Hpk).
  assert (HlenQ : (length (P ++ c) + length rest = 9 + length b)%nat).
  { rewrite <- length_app, <- HQ. apply packet_length; exact Hb. }
  rewrite length_app in HlenQ |- *.
  unfold on_data.
  set (l0 := mkListener (chunks l ++ [c]) (bufferLength l + blen c) (state l) (triggerLength l)).
  assert (Hc0 : concat (chunks l0) = concat (chunks l) ++ c).
  { simpl. rewrite concat_app. simpl. rewrite app_nil_r. reflexivity. }
  assert (Hbl0 : bufferLength l0 = blen (concat (chunks l0))).
  { rewrite Hc0. simpl. rewrite Hbl. unfold blen. rewrite length_app. lia. }
  assert (Hst0 : state l0 = state l) by reflexivity.
  assert (Htr0 : triggerLength l0 = triggerLength l) by reflexivity.
  clearbody l0.
  destruct Hcase as [(HP & Hst & Htr & Hc) | [(HP & Hst & Htr & Hc) | (HP & Hst & Htr & Hc)]].
  - (* inside the header *)
    rewrite Hc in Hc0. rewrite Hst in Hst0. rewrite Htr in Htr0.
    destruct (Nat.lt_ge_cases (length P + length c) 9) as [HQ9 | HQ9].
    + exists l0. split.
      * unfold data_fuel. rewrite drain_S, (loop_cond_int l0 9 Htr0), Hbl0, Hc0.
        unfold blen. rewrite length_app.
        replace (9 <=? Z.of_nat (length P + length c)) with false by (symmetry; apply Z.leb_gt; lia).
        replace (9 + length b <=? length P + length c)%nat with false by (symmetry; apply Nat.leb_gt; lia).
        rewrite andb_false_r. reflexivity.
      * split; [exact Hbl0|]. left. rewrite length_app. repeat split; auto.
    + assert (HQ9' : (9 <= length (P ++ c))%nat) by (rewrite length_app; lia).
      assert (HblQ : bufferLength l0 = blen (P ++ c)) by (rewrite Hbl0, Hc0; reflexivity).
      destruct (header_round b (P ++ c) rest l0 Hb HQ HQ9' Hst0 Htr0 Hc0 HblQ)
        as [Hcond Hbody].
      destruct (packet_split b (P ++ c) rest Hb HQ HQ9') as [_ Hs].
      assert (Hfuel : exists k, data_fuel l0 = S (S (S k))).
      { unfold data_fuel. rewrite HblQ. unfold blen. rewrite length_app.
        destruct (2 * Z.to_nat (Z.of_nat (length P + length c)))%nat eqn:E; [lia|]. eauto. }
      destruct Hfuel as [k Hk]. rewrite Hk, drain_S, Hcond, Hbody.
      replace (length P <? 9 + length b)%nat with true by (symmetry; apply Nat.ltb_lt; lia).
      destruct (Nat.leb_spec (9 + length b) (length P + length c)) as [Hfull | Hpart].
      * (* the whole body is there too *)
        assert (Hrest : rest = []).
        { destruct rest; [reflexivity|]. simpl in HlenQ. lia. }
        subst rest. rewrite app_nil_r in Hs, HQ.
        rewrite (body_round b _ k); try reflexivity.
        -- eexists; split; [reflexivity|].
           split; [reflexivity|]. right; right. repeat split; auto.
        -- simpl. rewrite app_nil_r. exact Hs.
        -- simpl. rewrite <- Hs. unfold blen. rewrite length_skipn, length_app. lia.
      * rewrite drain_S, loop_cond_int with (m := blen b) by reflexivity.
        replace (blen b <=? bufferLength _) with false.
        2: { symmetry. apply Z.leb_gt. simpl. unfold blen. rewrite length_app. lia. }
        eexists; split; [reflexivity|].
        split.
        -- cbn [concat chunks bufferLength]. rewrite app_nil_r. unfold blen. rewrite length_skipn, length_app. lia.
        -- right; left. simpl. rewrite app_nil_r, length_app.
           repeat split; auto; lia.
  - (* inside the body *)
    rewrite Hst in Hst0. rewrite Htr in Htr0.
    assert (HcQ : concat (chunks l0) = skipn 9 (P ++ c)).
    { rewrite Hc0, Hc, skipn_app.
      replace (9 - length P)%nat with 0%nat by lia. reflexivity. }
    assert (HQ9 : (9 <= length (P ++ c))%nat) by (rewrite length_app; lia).
    destruct (packet_split b (P ++ c) rest Hb HQ HQ9) as [_ Hs].
    replace (length P <? 9 + length b)%nat with true by (symmetry; apply Nat.ltb_lt; lia).
    destruct (Nat.leb_spec (9 + length b) (length P + length c)) as [Hfull | Hpart].
    + assert (Hrest : rest = []).
      { destruct rest; [reflexivity|]. simpl in HlenQ. lia. }
      subst rest. rewrite app_nil_r in Hs, HQ.
      unfold data_fuel.
      rewrite (body_round b l0); try assumption.
      * eexists; split; [reflexivity|].
        split; [reflexivity|]. right; right. repeat split; auto.
      * rewrite HcQ; exact Hs.
      * rewrite Hbl0, HcQ, Hs. reflexivity.
    + exists l0. split.
      * unfold data_fuel. rewrite drain_S, (loop_cond_int l0 _ Htr0), Hbl0, HcQ.
        replace (blen b <=? blen (skipn 9 (P ++ c))) with false.
        -- reflexivity.
        -- symmetry. apply Z.leb_gt. unfold blen. rewrite length_skipn, length_app. lia.
      * split; [exact Hbl0|]. right; left. rewrite length_app. repeat split; auto; lia.
  - (* the packet is complete: nothing is left to read *)
    assert (Hnil : c = [] /\ rest = []).
    { subst P. assert (E := f_equal (@length byte) HQ). rewrite !length_app in E.
      destruct c, rest; simpl in E; try lia. split; reflexivity. }
    destruct Hnil as [-> ->].
    rewrite Hc in Hc0. rewrite Hst in Hst0. rewrite Htr in Htr0.
    exists l0. split.
    + unfold data_fuel. rewrite drain_S, (loop_cond_int l0 _ Htr0), Hbl0, Hc0.
      replace ((length P <? 9 + length b)%nat) with false.
      * reflexivity.
      * symmetry. apply Nat.ltb_ge. rewrite HP, packet_length by exact Hb. lia.
    + split; [exact Hbl0|]. right; right. rewrite app_nil_r. repeat split; auto.
Qed.


Lemma feed_packet (b : bytes) (cs : list bytes) :
  blen b < 16 ^ 8 ->
  forall P l, inv b P l -> P ++ concat cs = packet b ->
  exists l', feed l cs = Some (l', if (length P <? 9 + length b)%nat then [b] else []) /\
             inv b (packet b) l'.
Proof.
  intros Hb. induction cs as [|c cs IH]; intros P l Hinv HP.
  - simpl in HP. rewrite app_nil_r in HP. subst P.
    exists l. split; [|exact Hinv].
    replace ((length (packet b) <? 9 + length b)%nat) with false.
    + reflexivity.
    + symmetry. apply Nat.ltb_ge. rewrite packet_length by exact Hb. lia.
  - simpl in HP.
    destruct (on_data_step b P c (concat cs) l Hb Hinv (eq_sym HP)) as (l1 & Hstep & Hinv1).
    assert (HP1 : (P ++ c) ++ concat cs = packet b) by (rewrite <- app_assoc; exact HP).
    destruct (IH (P ++ c) l1 Hinv1 HP1) as (l2 & Hfeed & Hinv2).
    exists l2. split; [|exact Hinv2].
    cbn [feed]. rewrite Hstep, Hfeed.
    assert (Hle : (length (P ++ c) <= length (packet b))%nat).
    { rewrite <- HP1, !length_app. lia. }
    rewrite packet_length in Hle by exact Hb. rewrite length_app in *.
    destruct (Nat.ltb_spec (length P) (9 + length b));
    destruct (Nat.leb_spec (9 + length b) (length P + length c));
    destruct (Nat.ltb_spec (length P + length c) (9 + length b));
    simpl; try reflexivity; lia.
Qed.

Lemma inv_packet_done (b : bytes) (l : listener) :
  blen b < 16 ^ 8 -> inv b (packet b) l ->
  state l = SLength /\ triggerLength l = Decimal 9 0 /\
  bufferLength l = 0 /\ concat (chunks l) = [].
Proof.
  intros Hb [Hbl [(HP & _) | [(HP & _) | (_ & Hst & Htr & Hc)]]];
    try (rewrite packet_length in HP by exact Hb; lia).
  rewrite Hbl, Hc. repeat split; assumption.
Qed.


(** C2: for every body [b] the header can describe (its byte length fits
    the 8 hexadecimal digits, which holds for any text a JavaScript string
    can hold), the packet [sendMessage] writes for [b], cut into any
    sequence of ['data'] chunks whatsoever and fed to a fresh listener,
    makes the listener hand exactly one message to [onMessage], namely [b],
    and leaves it as it started: no byte buffered, waiting for a 9-byte
    header. *)
Theorem framing_roundtrip (b : bytes) (cs : list bytes) :
  blen b < 16 ^ 8 -> concat cs = packet b ->
  exists l', feed fresh_listener cs = Some (l', [b]) /\
    state l' = SLength /\ triggerLength l' = Decimal 9 0 /\
    bufferLength l' = 0 /\ concat (chunks l') = [].
Proof.
  intros Hb Hcs.
  destruct (feed_packet b cs Hb [] fresh_listener (inv_fresh b) Hcs) as (l' & Hfeed & Hinv).
  exists l'. split.
  - rewrite Hfeed. reflexivity.
  - exact (inv_packet_done b l' Hb Hinv).
Qed.

(** The message [{}] of [sendMessage], fed one byte at a time. *)
Lemma framing_roundtrip_witness :
  let b := sendMessage_body "{}" in
  let cs := map (fun x => [x]) (packet b) in
  (blen b < 16 ^ 8 /\ concat cs = packet b) /\
  exists l', feed fresh_listener cs = Some (l', [b]) /\
    state l' = SLength /\ triggerLength l' = Decimal 9 0 /\
    bufferLength l' = 0 /\ concat (chunks l') = [].
Proof.
  intros b cs. split; [split; vm_compute; reflexivity|].
  apply framing_roundtrip; vm_compute; reflexivity.
Defined.

End FramingFacts.

(** ** The connection *)

Module ConnectionFacts.
Import Js Connection.

Lemma quiet_refl (c : conn) : quiet c c.
Proof. repeat split. exists []. rewrite app_nil_r. repeat split. Qed.

Lemma quiet_trans (c1 c2 c3 : conn) : quiet c1 c2 -> quiet c2 c3 -> quiet c1 c3.
Proof.
  intros (S1 & W1 & e1 & L1 & A1 & P1) (S2 & W2 & e2 & L2 & A2 & P2).
  split; [congruence|]. split; [congruence|].
  exists (e1 ++ e2). rewrite L2, L1, app_assoc. split; [reflexivity|].
  unfold assigned, sent in *. rewrite !flat_map_app, A1, A2, P1, P2. split; reflexivity.
Qed.

Lemma quiet_same (c c' : conn) :
  requestSeq c' = requestSeq c -> wire c' = wire c -> log c' = log c -> quiet c c'.
Proof. intros S W L. split; [exact S|]. split; [exact W|]. exists []. rewrite app_nil_r. auto. Qed.

Lemma quiet_add_log (c : conn) (a : action) :
  assigned [a] = [] -> sent [a] = [] -> quiet c (add_log c a).
Proof. intros A P. split; [reflexivity|]. split; [reflexivity|]. exists [a]. auto. Qed.

Ltac quiet_same_tac := apply quiet_same; reflexivity.

Lemma quiet_settle (c : conn) (p : Z) (o : outcome) : quiet c (settle c p o).
Proof.
  unfold settle. destruct (alist_get p (promises c)) as [[]|];
    first [quiet_same_tac | apply quiet_refl].
Qed.

Lemma quiet_reject (c : conn) (p : Z) (e : error) : quiet c (reject c p e).
Proof.
  unfold reject. eapply quiet_trans; [| apply quiet_settle]. apply quiet_add_log; reflexivity.
Qed.

Lemma quiet_resolve (c : conn) (p : Z) (v : jsval) : quiet c (resolve c p v).
Proof.
  unfold resolve. eapply quiet_trans; [| apply quiet_settle]. apply quiet_add_log; reflexivity.
Qed.

Lemma quiet_fold_reject (ps : list Z) (e : error) (c : conn) :
  quiet c (fold_left (fun c p => reject c p e) ps c).
Proof.
  revert c. induction ps as [|p ps IH]; intros c; [apply quiet_refl|].
  simpl. eapply quiet_trans; [apply quiet_reject | apply IH].
Qed.

Lemma quiet_fold_finally (ms : list Z) (c : conn) : quiet c (fold_left run_finally ms c).
Proof.
  revert c. induction ms as [|m ms IH]; intros c; [apply quiet_refl|].
  simpl. eapply quiet_trans; [|apply IH]. quiet_same_tac.
Qed.

Lemma quiet_flush (c : conn) : quiet c (flush c).
Proof.
  unfold flush. destruct (quiet_fold_finally (microtasks c) c) as (S & W & e & L & A & P).
  split; [exact S|]. split; [exact W|]. exists e. auto.
Qed.

Lemma handle_quiet (c : conn) (i : input) : is_send i = false -> quiet c (handle c i).
Proof.
  intros Hi. destruct i as [cmd args | json | s | d | | | t]; try discriminate; simpl.
  - (* handleMessage *)
    unfold handle_message.
    destruct json as [| | | | | | | kvs]; try apply quiet_refl;
      try (apply quiet_add_log; reflexivity).
    destruct (obj_get kvs "type") as [| | | | s | | |]; try apply quiet_refl.
    destruct (String.eqb s "event").
    + destruct (obj_get kvs "event") as [| | | | | | | ev]; try apply quiet_refl;
        try (apply quiet_add_log; reflexivity).
      destruct (obj_get ev "type"); try apply quiet_refl; apply quiet_add_log; reflexivity.
    + destruct (String.eqb s "response"); [|apply quiet_refl].
      destruct (match map_key (obj_get kvs "request_seq") with
                | Some k => option_map (pair k) (alist_get k (requestReactions c))
                | None => None end) as [[k p]|]; [|apply quiet_refl].
      destruct (truthy (obj_get kvs "error")).
      * eapply quiet_trans; [|apply quiet_reject]. quiet_same_tac.
      * eapply quiet_trans; [|apply quiet_resolve]. quiet_same_tac.
  - (* a timer *)
    unfold fire_timer. destruct (alist_get s (timers c)) as [[d ms]|]; [|apply quiet_refl].
    destruct (d <=? now c); [|apply quiet_refl].
    eapply quiet_trans; [|apply quiet_reject]. quiet_same_tac.
  - quiet_same_tac.
  - (* the 'end' handler *)
    unfold on_end.
    eapply quiet_trans; [|apply quiet_add_log; reflexivity].
    eapply quiet_trans; [|apply quiet_same; reflexivity].
    eapply quiet_trans; [|apply quiet_fold_reject].
    eapply quiet_trans; [|apply quiet_add_log; reflexivity].
    eapply quiet_trans; [|apply quiet_same; reflexivity].
    eapply quiet_trans; [|apply quiet_add_log; reflexivity].
    quiet_same_tac.
  - quiet_same_tac.
  - quiet_same_tac.
Qed.

Lemma json_norm_request_envelope (v s : Z) (cmd : string) (args : jsval) :
  match json_norm args with
  | None => json_norm (request_envelope v s cmd args) = None
  | Some _ => exists m, json_norm (request_envelope v s cmd args) = Some m /\
                        wire_seq m = Some s
  end.
Proof.
  unfold request_envelope. simpl.
  destruct (json_norm args) as [a|]; [|reflexivity].
  eexists; split; [reflexivity|].
  destruct (is_undefined a); simpl; rewrite Z.mul_1_r; reflexivity.
Qed.

Lemma send_request_facts (c : conn) (cmd : string) (args : jsval) :
  requestSeq (send_request c cmd args) = requestSeq c + 1 /\
  match json_norm args with
  | None => wire (send_request c cmd args) = wire c /\
            log (send_request c cmd args) = log c ++ [AThrew (requestSeq c)]
  | Some _ => (exists m, wire (send_request c cmd args) = wire c ++ [m] /\
                         wire_seq m = Some (requestSeq c)) /\
              log (send_request c cmd args) = log c ++ [ASent (requestSeq c)]
  end.
Proof.
  pose proof (json_norm_request_envelope (requestVersion c) (requestSeq c) cmd args) as H.
  unfold send_request. destruct (json_norm args) as [a|].
  - destruct H as (m & Hm & Hs). cbn [requestVersion set_seq]. rewrite Hm. cbn.
    split; [reflexivity|]. split; [|reflexivity]. exists m. auto.
  - cbn [requestVersion set_seq]. rewrite H. cbn. auto.
Qed.

Lemma step_quiet (c : conn) (i : input) : is_send i = false -> quiet c (step c i).
Proof. intros Hi. eapply quiet_trans; [apply handle_quiet; exact Hi | apply quiet_flush]. Qed.

Lemma sorted_snoc (l : list Z) (a : Z) :
  Sorted Z.lt l -> Forall (fun x => x < a) l -> Sorted Z.lt (l ++ [a]).
Proof.
  induction l as [|x l IH]; intros Hs Hf; simpl; [repeat constructor|].
  inversion Hs as [|? ? Hs' Hhd]; subst. inversion Hf as [|? ? Hx Hf']; subst.
  constructor; [apply IH; assumption|].
  destruct l as [|y l]; simpl; constructor; [exact Hx|].
  inversion Hhd; assumption.
Qed.

Lemma zseq_S (a : Z) (n : nat) : zseq a (S n) = zseq a n ++ [a + Z.of_nat n].
Proof. unfold zseq. rewrite seq_S, map_app. reflexivity. Qed.

Lemma run_app (c : conn) (ins : list input) (i : input) :
  run c (ins ++ [i]) = step (run c ins) i.
Proof. unfold run. rewrite fold_left_app. reflexivity. Qed.

Lemma assigned_app (l1 l2 : list action) : assigned (l1 ++ l2) = assigned l1 ++ assigned l2.
Proof. apply flat_map_app. Qed.

Lemma sent_app (l1 l2 : list action) : sent (l1 ++ l2) = sent l1 ++ sent l2.
Proof. apply flat_map_app. Qed.

Lemma run_seq_facts (ins : list input) :
  let c := run init_conn ins in
  requestSeq c = 1 + Z.of_nat (length (filter is_send ins)) /\
  assigned (log c) = zseq 1 (length (filter is_send ins)) /\
  map wire_seq (wire c) = map Some (sent (log c)) /\
  Sorted Z.lt (sent (log c)) /\
  Forall (fun x => x < requestSeq c) (sent (log c)) /\
  (forallb serialisable ins = true -> sent (log c) = assigned (log c)).
Proof.
  induction ins as [|i ins IH] using rev_ind.
  - simpl. repeat split; auto.
  - cbv zeta in *. rewrite run_app.
    destruct IH as (Hseq & Hasg & Hwire & Hsort & Hlt & Hser).
    set (c := run init_conn ins) in *.
    rewrite filter_app, length_app, forallb_app.
    destruct (is_send i) eqn:Hi.
    + destruct i as [cmd args | | | | | |]; try discriminate.
      destruct (quiet_flush (handle c (ISend cmd args))) as (S & W & e & L & A & P).
      unfold step. rewrite S, W, L. simpl handle.
      destruct (send_request_facts c cmd args) as [S1 Hj].
      rewrite assigned_app, sent_app, A, P, !app_nil_r, S1.
      simpl filter. simpl length. rewrite Nat.add_1_r, zseq_S, Nat2Z.inj_succ.
      set (N := Z.of_nat (length (filter is_send ins))) in *.
      unfold serialisable at 2. simpl forallb.
      destruct (json_norm args) as [a|].
      * destruct Hj as ((m & Wm & Hm) & Lg).
        rewrite Wm, Lg, assigned_app, sent_app, map_app, map_app, Hwire, Hasg.
        cbn [assigned sent flat_map app map].
        rewrite Hm, Hseq.
        split; [lia|]. split; [f_equal; f_equal; lia|]. split; [reflexivity|].
        split; [apply sorted_snoc; [exact Hsort | rewrite <- Hseq; exact Hlt]|].
        split.
        -- apply Forall_app. split; [|constructor; [lia|constructor]].
           eapply Forall_impl; [|exact Hlt]. intros x Hx. simpl in Hx. lia.
        -- rewrite andb_true_r. intros Hall. rewrite Hser by exact Hall. rewrite Hasg. reflexivity.
      * destruct Hj as (Wm & Lg).
        rewrite Wm, Lg, assigned_app, sent_app, Hasg.
        cbn [assigned sent flat_map app map]. rewrite app_nil_r.
        rewrite Hseq. split; [lia|]. split; [reflexivity|]. split; [exact Hwire|].
        split; [exact Hsort|]. split.
        -- eapply Forall_impl; [|exact Hlt]. intros x Hx. cbv beta in *. lia.
        -- rewrite andb_false_r. discriminate.
    + destruct (step_quiet c i Hi) as (S & W & e & L & A & P).
      rewrite S, W, L, assigned_app, sent_app, A, P, !app_nil_r.
      simpl filter. rewrite Hi. simpl length. rewrite Nat.add_0_r.
      assert (Hs : serialisable i = true) by (destruct i; try discriminate; reflexivity).
      simpl forallb. rewrite Hs, !andb_true_r.
      split; [exact Hseq|]. split; [exact Hasg|]. split; [exact Hwire|].
      split; [exact Hsort|]. split; [exact Hlt|].
      exact Hser.
Qed.

(** C5 (as the code behaves): the [k]-th [sendRequest] call on a connection
    takes request seq [k], whether it returns a promise or throws, so the
    counter is [1 + N] after [N] calls and never goes back (the ['end']
    handler, timeouts and responses leave it alone). The request seqs on
    the wire are those of the calls that returned, in call order, strictly
    increasing; they are exactly [1 .. N] when every call's arguments pass
    [JSON.stringify]. A call whose arguments make [JSON.stringify] throw
    (a BigInt, a cycle) still uses up its number. *)
Theorem request_seq_numbering (ins : list input) :
  let c := run init_conn ins in
  let n := length (filter is_send ins) in
  assigned (log c) = zseq 1 n /\
  requestSeq c = 1 + Z.of_nat n /\
  map wire_seq (wire c) = map Some (sent (log c)) /\
  Sorted Z.lt (sent (log c)) /\
  (forallb serialisable ins = true -> map wire_seq (wire c) = map Some (zseq 1 n)).
Proof.
  destruct (run_seq_facts ins) as (Hseq & Hasg & Hwire & Hsort & _ & Hser).
  cbv zeta. split; [exact Hasg|]. split; [exact Hseq|]. split; [exact Hwire|].
  split; [exact Hsort|].
  intros Hall. rewrite Hwire, Hser by exact Hall. rewrite Hasg. reflexivity.
Qed.

Lemma request_seq_numbering_witness :
  let ins := [ISend "stackTrace" JUndefined; IElapse 5; ISend "scopes" (JObj [("frameId", int 0)])] in
  forallb serialisable ins = true /\
  map wire_seq (wire (run init_conn ins)) = map Some (zseq 1 (length (filter is_send ins))).
Proof.
  intros ins. split; [reflexivity|].
  apply (request_seq_numbering ins). reflexivity.
Defined.

(** C5, the spec's reading fails: two [sendRequest] calls, the first with
    a BigInt argument. The first call throws after taking seq 1, so the
    wire carries the seq list [2], not [1; 2]. *)
Lemma request_seq_counterexample :
  let ins := [ISend "evaluate" (JObj [("expression", JBigInt 1)]); ISend "stackTrace" JUndefined] in
  length (filter is_send ins) = 2%nat /\
  map wire_seq (wire (run init_conn ins)) = [Some 2] /\
  map wire_seq (wire (run init_conn ins)) <> map Some (zseq 1 2).
Proof. vm_compute. split; [reflexivity|]. split; [reflexivity|]. discriminate. Qed.

(** *** Association lists *)

Lemma alist_get_set_eq {A} (k : Z) (v : A) (m : list (Z * A)) :
  alist_get k (alist_set k v m) = Some v.
Proof.
  induction m as [|[k' v'] m IH]; simpl; [rewrite Z.eqb_refl; reflexivity|].
  destruct (Z.eqb_spec k k'); simpl.
  - subst. rewrite Z.eqb_refl. reflexivity.
  - apply Z.eqb_neq in n. rewrite n. exact IH.
Qed.

Lemma alist_get_set_neq {A} (k k' : Z) (v : A) (m : list (Z * A)) :
  k <> k' -> alist_get k' (alist_set k v m) = alist_get k' m.
Proof.
  intros Hne. induction m as [|[j w] m IH]; simpl.
  - apply Z.eqb_neq in Hne. rewrite Z.eqb_sym, Hne. reflexivity.
  - destruct (Z.eqb_spec k j); simpl.
    + subst. apply Z.eqb_neq in Hne. rewrite Z.eqb_sym, Hne. reflexivity.
    + destruct (Z.eqb k' j); [reflexivity | exact IH].
Qed.

Lemma map_fst_alist_set {A} (k : Z) (v : A) (m : list (Z * A)) :
  map fst (alist_set k v m) = if existsb (Z.eqb k) (map fst m) then map fst m else map fst m ++ [k].
Proof.
  induction m as [|[j w] m IH]; simpl; [reflexivity|].
  destruct (Z.eqb_spec k j); simpl; [subst; reflexivity|].
  rewrite IH. destruct (existsb (Z.eqb k) (map fst m)); reflexivity.
Qed.

Lemma NoDup_alist_set {A} (k : Z) (v : A) (m : list (Z * A)) :
  NoDup (map fst m) -> NoDup (map fst (alist_set k v m)).
Proof.
  intros H. rewrite map_fst_alist_set.
  destruct (existsb (Z.eqb k) (map fst m)) eqn:E; [exact H|].
  apply NoDup_app; [exact H | repeat constructor; auto |].
  intros x Hx Hx'. destruct Hx' as [<-|[]].
  assert (existsb (Z.eqb k) (map fst m) = true) by (apply existsb_exists; exists k; split; [exact Hx | apply Z.eqb_refl]).
  congruence.
Qed.

Lemma Forall_alist_set {A} (P : Z * A -> Prop) (k : Z) (v : A) (m : list (Z * A)) :
  Forall P m -> P (k, v) -> Forall P (alist_set k v m).
Proof.
  intros Hm Hkv. induction Hm as [|[j w] m Hj Hm IH]; simpl; [repeat constructor; exact Hkv|].
  destruct (Z.eqb_spec k j); constructor; auto. subst. exact Hkv.
Qed.

Lemma alist_get_In {A} (k : Z) (v : A) (m : list (Z * A)) :
  alist_get k m = Some v -> In (k, v) m.
Proof.
  induction m as [|[j w] m IH]; simpl; [discriminate|].
  destruct (Z.eqb_spec k j); intros H; [left; congruence | right; auto].
Qed.

Lemma alist_get_filter {A} (f : Z -> bool) (k : Z) (m : list (Z * A)) :
  alist_get k (filter (fun kv => f (fst kv)) m) = if f k then alist_get k m else None.
Proof.
  induction m as [|[j w] m IH]; simpl; [destruct (f k); reflexivity|].
  destruct (Z.eqb_spec k j).
  - subst. destruct (f j); simpl; rewrite ?Z.eqb_refl; [reflexivity|exact IH].
  - destruct (f j); simpl; [apply Z.eqb_neq in n; rewrite n|]; exact IH.
Qed.

Lemma alist_del_filter {A} (k : Z) (m : list (Z * A)) :
  alist_del k m = filter (fun kv => (fun j => negb (Z.eqb k j)) (fst kv)) m.
Proof. reflexivity. Qed.

Lemma alist_get_del {A} (k k' : Z) (m : list (Z * A)) :
  alist_get k' (alist_del k m) = if Z.eqb k k' then None else alist_get k' m.
Proof.
  pose proof (alist_get_filter (fun j => negb (Z.eqb k j)) k' m) as H.
  unfold alist_del. rewrite H. destruct (Z.eqb k k'); reflexivity.
Qed.

Lemma NoDup_map_filter {A} (f : Z * A -> bool) (m : list (Z * A)) :
  NoDup (map fst m) -> NoDup (map fst (filter f m)).
Proof.
  induction m as [|[j w] m IH]; simpl; intros H; [constructor|].
  inversion H as [|? ? Hn Hd]; subst.
  destruct (f (j, w)); simpl; [constructor; [|auto] | auto].
  intros Hin. apply Hn. apply in_map_iff in Hin. destruct Hin as ([j' w'] & Ej & Hin).
  apply filter_In in Hin. apply in_map_iff. exists (j', w'). simpl in *. split; [exact Ej | apply Hin].
Qed.

Lemma Forall_filter {A} (P : A -> Prop) (f : A -> bool) (m : list A) :
  Forall P m -> Forall P (filter f m).
Proof.
  intros H. apply Forall_forall. intros x Hx. apply filter_In in Hx.
  eapply Forall_forall in H; [exact H | apply Hx].
Qed.

(** *** The invariant of the reachable states *)

Lemma filter_filter' {A} (f g : A -> bool) (l : list A) :
  filter f (filter g l) = filter (fun x => g x && f x) l.
Proof.
  induction l as [|x l IH]; simpl; [reflexivity|].
  destruct (g x); simpl; [destruct (f x); simpl; rewrite IH; reflexivity | exact IH].
Qed.

Lemma filter_ext' {A} (f g : A -> bool) (l : list A) :
  (forall x, f x = g x) -> filter f l = filter g l.
Proof.
  intros H. induction l as [|x l IH]; simpl; [reflexivity|]. rewrite H, IH. reflexivity.
Qed.

Lemma filter_true' {A} (l : list A) : filter (fun _ => true) l = l.
Proof. induction l as [|x l IH]; simpl; [reflexivity|]. rewrite IH. reflexivity. Qed.

Lemma fold_finally_fields (ms : list Z) (c : conn) :
  let c' := fold_left run_finally ms c in
  requestReactions c' = filter (fun kv => not_in ms (fst kv)) (requestReactions c) /\
  timers c' = filter (fun kv => not_in ms (fst kv)) (timers c) /\
  promises c' = promises c /\ microtasks c' = microtasks c /\ requestSeq c' = requestSeq c /\
  now c' = now c /\ socket_open c' = socket_open c /\ log c' = log c /\ wire c' = wire c /\
  requestTimeout c' = requestTimeout c.
Proof.
  revert c. induction ms as [|m ms IH]; intros c.
  - simpl. unfold not_in. simpl. rewrite !filter_true'. repeat split.
  - simpl. destruct (IH (run_finally c m)) as (R & T & Rest). rewrite R, T.
    unfold run_finally, alist_del. simpl. rewrite !filter_filter'.
    split; [|split]; [apply filter_ext'; intros [k v]; unfold not_in; simpl;
                      rewrite (Z.eqb_sym m k); destruct (Z.eqb k m); reflexivity ..|].
    exact Rest.
Qed.

Lemma flush_fields (c : conn) :
  requestReactions (flush c) = filter (fun kv => not_in (microtasks c) (fst kv)) (requestReactions c) /\
  timers (flush c) = filter (fun kv => not_in (microtasks c) (fst kv)) (timers c) /\
  promises (flush c) = promises c /\ microtasks (flush c) = [] /\
  requestSeq (flush c) = requestSeq c /\ now (flush c) = now c /\
  socket_open (flush c) = socket_open c /\ log (flush c) = log c /\ wire (flush c) = wire c /\
  requestTimeout (flush c) = requestTimeout c.
Proof.
  destruct (fold_finally_fields (microtasks c) c) as (R & T & P & M & S & N & O & L & W & RT).
  unfold flush. simpl. rewrite R, T, P, S, N, O, L, W, RT. repeat split.
Qed.

Lemma wf_pwf (c : conn) : wf c -> pwf c.
Proof.
  intros (M & F & D & K). split; [|split; assumption].
  eapply Forall_impl; [|exact F]. intros kv [E P]. auto.
Qed.

Lemma flush_wf (c : conn) : pwf c -> wf (flush c).
Proof.
  intros (F & D & K).
  destruct (flush_fields c) as (R & _ & P & M & S & _).
  split; [exact M|]. rewrite R, P, S. split; [|split].
  - apply Forall_forall. intros [k v] Hin. apply filter_In in Hin. destruct Hin as [Hin Hn].
    eapply Forall_forall in F; [|exact Hin]. simpl in *. destruct F as [E [Hp | Hm]].
    + auto.
    + exfalso. unfold not_in in Hn. apply negb_true_iff in Hn.
      assert (existsb (Z.eqb k) (microtasks c) = true)
        by (apply existsb_exists; exists k; split; [exact Hm | apply Z.eqb_refl]).
      congruence.
  - apply NoDup_map_filter. exact D.
  - exact K.
Qed.

Lemma pwf_fields (c c' : conn) :
  promises c' = promises c -> requestReactions c' = requestReactions c ->
  (forall x, In x (microtasks c) -> In x (microtasks c')) ->
  requestSeq c <= requestSeq c' -> pwf c -> pwf c'.
Proof.
  intros P R M S (F & D & K). split; [|split].
  - rewrite R, P. eapply Forall_impl; [|exact F]. intros kv [E H]. split; [exact E|].
    destruct H; auto.
  - rewrite R. exact D.
  - intros k Hk. rewrite P in Hk. specialize (K k Hk). lia.
Qed.

Ltac pwf_same c := apply (pwf_fields c); [reflexivity | reflexivity | intros ? ?; assumption | simpl; lia |].

Lemma pwf_settle (c : conn) (p : Z) (o : outcome) : pwf c -> pwf (settle c p o).
Proof.
  intros (F & D & K). unfold settle.
  destruct (alist_get p (promises c)) as [[]|] eqn:Ep; try (split; [exact F | split; assumption]).
  split; [|split]; simpl.
  - eapply Forall_impl; [|exact F]. intros [k v] [E H]. split; [exact E|]. simpl in *.
    destruct (Z.eq_dec p k) as [<-|Hne].
    + right. apply in_or_app. right. left. reflexivity.
    + rewrite alist_get_set_neq by exact Hne. destruct H; [left; exact H | right; apply in_or_app; left; exact H].
  - exact D.
  - intros k Hk. destruct (Z.eq_dec p k) as [<-|Hne].
    + apply K. rewrite Ep. discriminate.
    + rewrite alist_get_set_neq in Hk by exact Hne. apply K, Hk.
Qed.

Lemma pwf_add_log (c : conn) (a : action) : pwf c -> pwf (add_log c a).
Proof. intros H. pwf_same c. exact H. Qed.

Lemma pwf_reject (c : conn) (p : Z) (e : error) : pwf c -> pwf (reject c p e).
Proof. intros H. apply pwf_settle, pwf_add_log, H. Qed.

Lemma pwf_resolve (c : conn) (p : Z) (v : jsval) : pwf c -> pwf (resolve c p v).
Proof. intros H. apply pwf_settle, pwf_add_log, H. Qed.

Lemma pwf_fold_reject (ps : list Z) (e : error) (c : conn) :
  pwf c -> pwf (fold_left (fun c p => reject c p e) ps c).
Proof.
  revert c. induction ps as [|p ps IH]; intros c H; [exact H|]. simpl. apply IH, pwf_reject, H.
Qed.

Lemma pwf_filter_reactions (c : conn) (f : Z * Z -> bool) :
  pwf c -> pwf (set_reactions c (filter f (requestReactions c))).
Proof.
  intros (F & D & K). split; [|split]; simpl.
  - apply Forall_filter. exact F.
  - apply NoDup_map_filter. exact D.
  - exact K.
Qed.

Lemma pwf_clear (c : conn) : pwf c -> pwf (set_reactions c []).
Proof. intros (F & D & K). split; [constructor | split; [constructor | exact K]]. Qed.

Lemma pwf_send (c : conn) (cmd : string) (args : jsval) : pwf c -> pwf (send_request c cmd args).
Proof.
  intros H. unfold send_request.
  assert (H1 : pwf (set_seq c (requestSeq c + 1))) by (pwf_same c; exact H).
  destruct (json_norm _) as [m|]; [|apply pwf_add_log; exact H1].
  apply pwf_add_log. destruct H1 as (F & D & K).
  split; [|split]; simpl in *.
  - apply Forall_alist_set.
    + eapply Forall_impl; [|exact F]. intros [k v] [E Hk]. split; [exact E|]. simpl in *.
      destruct (Z.eq_dec (requestSeq c) k) as [<-|Hne].
      * left. apply alist_get_set_eq.
      * rewrite alist_get_set_neq by exact Hne. exact Hk.
    + simpl. split; [reflexivity|]. left. apply alist_get_set_eq.
  - apply NoDup_alist_set. exact D.
  - intros k Hk. destruct (Z.eq_dec (requestSeq c) k) as [<-|Hne]; [lia|].
    rewrite alist_get_set_neq in Hk by exact Hne. apply K, Hk.
Qed.

Lemma handle_pwf (c : conn) (i : input) : pwf c -> pwf (handle c i).
Proof.
  intros H. destruct i as [cmd args | json | s | d | | | t]; simpl.
  - apply pwf_send, H.
  - unfold handle_message.
    destruct json as [| | | | | | | kvs]; try exact H; try (apply pwf_add_log; exact H).
    destruct (obj_get kvs "type") as [| | | | s | | |]; try exact H.
    destruct (String.eqb s "event").
    + destruct (obj_get kvs "event") as [| | | | | | | ev]; try exact H;
        try (apply pwf_add_log; exact H).
      destruct (obj_get ev "type"); try exact H; apply pwf_add_log; exact H.
    + destruct (String.eqb s "response"); [|exact H].
      destruct (match map_key (obj_get kvs "request_seq") with
                | Some k => option_map (pair k) (alist_get k (requestReactions c))
                | None => None end) as [[k p]|]; [|exact H].
      destruct (truthy (obj_get kvs "error"));
        [apply pwf_reject | apply pwf_resolve]; apply pwf_filter_reactions, H.
  - unfold fire_timer. destruct (alist_get s (timers c)) as [[dl ms]|]; [|exact H].
    destruct (dl <=? now c); [|exact H].
    apply pwf_reject. pwf_same c. exact H.
  - pwf_same c. exact H.
  - unfold on_end. apply pwf_add_log, pwf_clear, pwf_fold_reject, pwf_add_log, pwf_clear,
      pwf_add_log. pwf_same c. exact H.
  - pwf_same c. exact H.
  - pwf_same c. exact H.
Qed.

Lemma step_wf (c : conn) (i : input) : wf c -> wf (step c i).
Proof. intros H. apply flush_wf, handle_pwf, wf_pwf, H. Qed.

Lemma init_wf : wf init_conn.
Proof. split; [reflexivity|]. split; [constructor|]. split; [constructor|]. simpl. congruence. Qed.

Lemma run_wf_from (ins : list input) (c : conn) : wf c -> wf (run c ins).
Proof.
  revert c. induction ins as [|i ins IH]; intros c H; [exact H|].
  simpl. apply IH, step_wf, H.
Qed.

Lemma run_wf (ins : list input) : wf (run init_conn ins).
Proof. apply run_wf_from, init_wf. Qed.

(** *** Settling one request *)


Lemma get_not_in_one (k k' : Z) {A} (m : list (Z * A)) :
  alist_get k' (filter (fun kv => not_in [k] (fst kv)) m) = if Z.eqb k k' then None else alist_get k' m.
Proof.
  rewrite (alist_get_filter (fun j => not_in [k] j)). unfold not_in. simpl.
  rewrite orb_false_r, (Z.eqb_sym k' k). destruct (Z.eqb k k'); reflexivity.
Qed.


Lemma wf_reaction (c : conn) (k p : Z) :
  wf c -> alist_get k (requestReactions c) = Some p ->
  p = k /\ alist_get k (promises c) = Some Pending.
Proof.
  intros (_ & F & _) Hk. apply alist_get_In in Hk.
  eapply Forall_forall in F; [|exact Hk]. exact F.
Qed.

Lemma handle_response (c : conn) (kvs : list (string * jsval)) (k : Z) :
  obj_get kvs "type" = JStr "response" ->
  map_key (obj_get kvs "request_seq") = Some k ->
  handle c (IMessage (JObj kvs)) =
  match alist_get k (requestReactions c) with
  | Some p =>
      if truthy (obj_get kvs "error")
      then reject (set_reactions c (alist_del k (requestReactions c))) p
                  (RemoteError (obj_get kvs "error"))
      else resolve (set_reactions c (alist_del k (requestReactions c))) p (obj_get kvs "body")
  | None => c
  end.
Proof.
  intros Ht Hk. cbn [handle]. unfold handle_message. rewrite Ht.
  cbn [String.eqb Ascii.eqb Bool.eqb andb]. rewrite Hk. cbn [option_map].
  destruct (alist_get k (requestReactions c)); reflexivity.
Qed.





(** *** Timeouts *)

Lemma flush_id (c : conn) : microtasks c = [] -> flush c = c.
Proof.
  intros M. unfold flush. rewrite M. simpl. destruct c; simpl in *. subst. reflexivity.
Qed.

Lemma settle_one_timers (c : conn) (k : Z) (o : outcome) (a : action) (T : list (Z * (Z * Z))) :
  microtasks c = [] -> alist_get k (promises c) = Some Pending ->
  let c2 := flush (settle (add_log (set_timers c T) a) k o) in
  promises c2 = alist_set k o (promises c) /\
  requestReactions c2 = filter (fun kv => not_in [k] (fst kv)) (requestReactions c) /\
  timers c2 = filter (fun kv => not_in [k] (fst kv)) T /\
  socket_open c2 = socket_open c.
Proof.
  intros M Hp c2. unfold c2, settle. cbn [promises add_log set_timers]. rewrite Hp.
  cbn [requestTimeout requestVersion requestSeq requestReactions promises timers microtasks
       now socket_open wire log add_log set_timers].
  destruct (flush_fields (mkConn (requestTimeout c) (requestVersion c) (requestSeq c)
              (requestReactions c) (alist_set k o (promises c)) T (microtasks c ++ [k]) (now c)
              (socket_open c) (wire c) (log c ++ [a]))) as (Rr & Tt & P & _ & _ & _ & O & _).
  rewrite Rr, Tt, P, O. cbn [requestReactions promises timers microtasks socket_open].
  rewrite M. auto.
Qed.

Lemma send_arms_timer (c : conn) (cmd : string) (args : jsval) :
  wf c -> json_norm args <> None ->
  let c1 := step c (ISend cmd args) in
  alist_get (requestSeq c) (timers c1) =
    Some (now c + timer_delay (requestTimeout c), requestTimeout c) /\
  alist_get (requestSeq c) (requestReactions c1) = Some (requestSeq c) /\
  promise_state c1 (requestSeq c) = Some Pending.
Proof.
  intros (M & _) Hj c1.
  pose proof (json_norm_request_envelope (requestVersion c) (requestSeq c) cmd args) as H.
  destruct (json_norm args) as [a|]; [|congruence].
  destruct H as (m & Hm & _).
  unfold c1, step. cbn [handle]. unfold send_request. cbn [requestVersion set_seq]. rewrite Hm.
  rewrite flush_id by (simpl; exact M).
  unfold promise_state. simpl. rewrite !alist_get_set_eq. auto.
Qed.

(** C6 (as the code behaves): [sendRequest] arms a timer due
    [timer_delay requestTimeout] ms later, which is [requestTimeout] itself
    when that is between 1 and [2^31 - 1], Node's [setTimeout] range; any
    other value gives 1 ms. Before it is due the timer changes nothing.
    Once due, it rejects the request with [TimeoutError] and removes its
    entry. The socket is not closed, and the entries, promises and timers
    of the other requests stay as they were. A response for that request
    arriving afterwards changes nothing at all, not even the log. *)
Theorem request_timeout :
  (forall ins cmd args, json_norm args <> None ->
     let c := run init_conn ins in
     let c1 := step c (ISend cmd args) in
     alist_get (requestSeq c) (timers c1) =
       Some (now c + timer_delay (requestTimeout c), requestTimeout c) /\
     promise_state c1 (requestSeq c) = Some Pending) /\
  (forall t, 1 <= t <= TIMEOUT_MAX -> timer_delay t = t) /\
  (forall ins s d ms,
     let c := run init_conn ins in
     alist_get s (requestReactions c) = Some s -> alist_get s (timers c) = Some (d, ms) ->
     (now c < d -> step c (ITimer s) = c) /\
     (d <= now c ->
        let c' := step c (ITimer s) in
        promise_state c' s = Some (Rejected (TimeoutError ms)) /\
        alist_get s (requestReactions c') = None /\
        socket_open c' = socket_open c /\
        (forall k', k' <> s ->
           alist_get k' (requestReactions c') = alist_get k' (requestReactions c) /\
           promise_state c' k' = promise_state c k' /\
           alist_get k' (timers c') = alist_get k' (timers c)) /\
        (forall kvs, obj_get kvs "type" = JStr "response" ->
           map_key (obj_get kvs "request_seq") = Some s ->
           step c' (IMessage (JObj kvs)) = c'))).
Proof.
  split; [|split].
  - intros ins cmd args Hj c c1.
    destruct (send_arms_timer c cmd args (run_wf ins) Hj) as (T & _ & P). auto.
  - intros t Ht. unfold timer_delay.
    replace ((1 <=? t) && (t <=? TIMEOUT_MAX)) with true; [reflexivity|].
    symmetry. apply andb_true_intro. split; apply Z.leb_le; lia.
  - intros ins s d ms c Hr Ht.
    assert (W : wf c) by apply run_wf.
    destruct (wf_reaction c s s W Hr) as [_ Hp].
    destruct W as (M & _).
    split.
    + intros Hlt. unfold step. cbn [handle]. unfold fire_timer. rewrite Ht.
      replace (d <=? now c) with false by (symmetry; apply Z.leb_gt; exact Hlt).
      apply flush_id, M.
    + intros Hle c'.
      assert (Hc' : c' = flush (settle (add_log (set_timers c (alist_del s (timers c)))
                                  (AReject s (TimeoutError ms))) s (Rejected (TimeoutError ms)))).
      { unfold c', step. cbn [handle]. unfold fire_timer. rewrite Ht.
        replace (d <=? now c) with true by (symmetry; apply Z.leb_le; exact Hle). reflexivity. }
      destruct (settle_one_timers c s (Rejected (TimeoutError ms)) (AReject s (TimeoutError ms))
                  (alist_del s (timers c)) M Hp) as (P & R & T & O).
      rewrite <- Hc' in P, R, T, O.
      unfold promise_state. rewrite P, R, T, O.
      split; [apply alist_get_set_eq|]. split; [rewrite get_not_in_one, Z.eqb_refl; reflexivity|].
      split; [reflexivity|]. split.
      * intros k' Hne. rewrite !get_not_in_one, alist_get_del, alist_get_set_neq by lia.
        replace (Z.eqb s k') with false by (symmetry; apply Z.eqb_neq; lia). auto.
      * intros kvs Htype Hkey.
        assert (W' : wf c') by (unfold c', c; rewrite <- run_app; apply run_wf).
        unfold step at 1. rewrite (handle_response c' kvs s Htype Hkey).
        replace (alist_get s (requestReactions c')) with (@None Z).
        -- apply flush_id, W'.
        -- rewrite R, get_not_in_one, Z.eqb_refl. reflexivity.
Qed.

Lemma request_timeout_witness :
  let c := run init_conn [ISend "evaluate" JUndefined; IElapse 10000] in
  let late := [("type", JStr "response"); ("request_seq", int 1); ("body", int 2)] in
  promise_state (step c (ITimer 1)) 1 = Some (Rejected (TimeoutError 10000)) /\
  step (step c (ITimer 1)) (IMessage (JObj late)) = step c (ITimer 1).
Proof.
  intros c late.
  destruct request_timeout as (_ & _ & H).
  destruct (H [ISend "evaluate" JUndefined; IElapse 10000] 1 10000 10000 eq_refl eq_refl)
    as (_ & H2).
  destruct (H2 ltac:(vm_compute; discriminate)) as (P & _ & _ & _ & L).
  split; [exact P | apply L; reflexivity].
Defined.

(** C6, where the code misses its own intent: with [requestTimeout] set to
    [2^31] ms, beyond Node's timer range, the request is rejected 1 ms
    after it was sent, with the message of a [2^31] ms timeout. *)
Lemma huge_timeout_fires_early :
  let c := run init_conn [ISetTimeout (2 ^ 31); ISend "evaluate" JUndefined; IElapse 1; ITimer 1] in
  now c = 1 /\ requestTimeout c = 2 ^ 31 /\
  promise_state c 1 = Some (Rejected (TimeoutError (2 ^ 31))).
Proof. vm_compute. repeat split. Qed.

(** *** The end of the stream *)

Lemma log_reject (c : conn) (p : Z) (e : error) : log (reject c p e) = log c ++ [AReject p e].
Proof.
  unfold reject, settle. cbn [promises add_log].
  destruct (alist_get p (promises c)) as [[]|]; reflexivity.
Qed.

Lemma fold_reject_facts (ps : list Z) (e : error) (c : conn) :
  NoDup ps -> (forall k, In k ps -> alist_get k (promises c) = Some Pending) ->
  let c' := fold_left (fun c p => reject c p e) ps c in
  log c' = log c ++ map (fun p => AReject p e) ps /\
  (forall k, In k ps -> alist_get k (promises c') = Some (Rejected e)) /\
  (forall k, ~ In k ps -> alist_get k (promises c') = alist_get k (promises c)) /\
  requestReactions c' = requestReactions c /\ requestSeq c' = requestSeq c.
Proof.
  revert c. induction ps as [|p ps IH]; intros c Hd Hp c'.
  - simpl in c'. unfold c'. rewrite app_nil_r. repeat split; auto. intros k [].
  - inversion Hd as [|? ? Hn Hd']; subst.
    assert (Hpp : alist_get p (promises c) = Some Pending) by (apply Hp; left; reflexivity).
    assert (Hr : promises (reject c p e) = alist_set p (Rejected e) (promises c) /\
                 requestReactions (reject c p e) = requestReactions c /\
                 requestSeq (reject c p e) = requestSeq c).
    { unfold reject, settle. cbn [promises add_log]. rewrite Hpp. repeat split. }
    destruct Hr as (Pr & Rr & Sr).
    destruct (IH (reject c p e) Hd') as (L & In1 & Out & R & S).
    { intros k Hk. rewrite Pr, alist_get_set_neq by (intros ->; contradiction). apply Hp. right. exact Hk. }
    simpl in c'. fold c' in L, In1, Out, R, S.
    rewrite L, log_reject, <- app_assoc. split; [reflexivity|]. split; [|split].
    + intros k [<-|Hk].
      * rewrite Out by exact Hn. rewrite Pr. apply alist_get_set_eq.
      * apply In1, Hk.
    + intros k Hk. rewrite Out by (intros H; apply Hk; right; exact H).
      rewrite Pr, alist_get_set_neq by (intros ->; apply Hk; left; reflexivity). reflexivity.
    + rewrite R, Rr, S, Sr. auto.
Qed.

Lemma map_snd_fst (R : list (Z * Z)) :
  Forall (fun kv => snd kv = fst kv) R -> map snd R = map fst R.
Proof.
  induction 1 as [|[k v] R E _ IH]; simpl in *; [reflexivity|]. rewrite E, IH. reflexivity.
Qed.

(** C7: when the socket ends, the handler emits ['end'] once, clears the
    map, then calls the [reject] of every request that was pending, one
    call each, in the map's order, with [ClosedError] (['Protocol is
    closed']), and clears the map again. Each of those promises was
    pending and ends rejected with that error. The other promises are left
    alone, no entry is left, and the request counter is unchanged. *)
Theorem end_rejects_pending (ins : list input) :
  let c := run init_conn ins in
  let ks := map fst (requestReactions c) in
  let c' := step c IEnd in
  log c' = log c ++ [AEmit "end"; AClear] ++ map (fun k => AReject k ClosedError) ks ++ [AClear] /\
  NoDup ks /\
  (forall k, In k ks ->
     promise_state c k = Some Pending /\ promise_state c' k = Some (Rejected ClosedError)) /\
  (forall k, ~ In k ks -> promise_state c' k = promise_state c k) /\
  requestReactions c' = [] /\ requestSeq c' = requestSeq c /\
  error_message_closed = "Protocol is closed".
Proof.
  intros c ks c'.
  destruct (run_wf ins) as (M & F & D & _). fold c in M, F, D.
  assert (Hks : map snd (requestReactions c) = ks).
  { apply map_snd_fst. eapply Forall_impl; [|exact F]. intros kv [E _]. exact E. }
  assert (Hpend : forall k, In k ks -> alist_get k (promises c) = Some Pending).
  { intros k Hk. apply in_map_iff in Hk. destruct Hk as ([k0 v] & <- & Hin).
    eapply Forall_forall in F; [|exact Hin]. apply F. }
  set (c2 := add_log (set_reactions (add_log (set_open c false) (AEmit "end")) []) AClear).
  destruct (fold_reject_facts ks ClosedError c2 D Hpend) as (L & In1 & Out & R & S).
  set (c3 := fold_left (fun c p => reject c p ClosedError) ks c2) in *.
  assert (Hc' : c' = flush (add_log (set_reactions c3 []) AClear)).
  { unfold c', step. cbn [handle]. unfold on_end. cbn [requestReactions add_log set_open].
    rewrite Hks. reflexivity. }
  destruct (flush_fields (add_log (set_reactions c3 []) AClear)) as (Rf & _ & Pf & _ & Sf & _ & _ & Lf & _).
  rewrite <- Hc' in Rf, Pf, Sf, Lf.
  unfold promise_state. rewrite Rf, Pf, Sf, Lf. cbn [add_log set_reactions log promises
    requestReactions requestSeq filter].
  rewrite L. unfold c2. cbn [log add_log set_reactions set_open].
  split; [rewrite <- !app_assoc; reflexivity|]. split; [exact D|]. split; [|split].
  - intros k Hk. split; [apply Hpend, Hk | apply In1, Hk].
  - intros k Hk. apply Out, Hk.
  - split; [reflexivity|]. split; [exact S | reflexivity].
Qed.

Lemma end_rejects_pending_counts :
  let c := run init_conn [ISend "continue" JUndefined; ISend "stackTrace" JUndefined; IEnd] in
  log c = [ASent 1; ASent 2; AEmit "end"; AClear; AReject 1 ClosedError; AReject 2 ClosedError; AClear] /\
  promise_state c 1 = Some (Rejected ClosedError) /\ promise_state c 2 = Some (Rejected ClosedError).
Proof. vm_compute. repeat split. Qed.

End ConnectionFacts.

(** ** The session: variables and stack frames *)

Module SessionFacts.
Import Session.

(** C3: a [QuickJSVariable] built from a [VariableInfo] keeps its name, type
    and reference, and follows the typing rules: ['string'] keeps the raw
    value, ['integer'] is [parseInt(value, 10)], ['float'] is
    [parseFloat(value)], ['boolean'] is [value === 'true'], ['null'] and
    ['undefined'] are primitives with no value, ['object'] and
    ['function'] are not primitive, with [isArray] telling whether
    [indexedVariables] is defined and [indexedCount] set to it, and any
    other type is an opaque non-primitive keeping the value as
    [valueAsString]. [evaluate] on the body [{result: '2', type:
    'integer', variablesReference: 0}] gives the primitive variable
    [result] of value 2. *)
Theorem variable_typing (vi : VariableInfo.t) :
  let v := new_QuickJSVariable vi in
  let t := VariableInfo.type vi in
  let value := VariableInfo.value vi in
  QuickJSVariable.name v = VariableInfo.name vi /\ QuickJSVariable.type v = t /\
  QuickJSVariable.ref v = VariableInfo.variablesReference vi /\
  (if type_is t "string" then
     QuickJSVariable.primitive v = true /\ QuickJSVariable.primitiveValue v = JStr value
   else if type_is t "integer" then
     QuickJSVariable.primitive v = true /\ QuickJSVariable.primitiveValue v = JNum (parseInt value 10)
   else if type_is t "float" then
     QuickJSVariable.primitive v = true /\ QuickJSVariable.primitiveValue v = JNum (parseFloat value)
   else if type_is t "boolean" then
     QuickJSVariable.primitive v = true /\
     QuickJSVariable.primitiveValue v = JBool (String.eqb value "true")
   else if type_is t "null" then
     QuickJSVariable.primitive v = true /\ QuickJSVariable.primitiveValue v = JNull
   else if type_is t "undefined" then
     QuickJSVariable.primitive v = true /\ QuickJSVariable.primitiveValue v = JUndefined
   else if (type_is t "object" || type_is t "function")%bool then
     QuickJSVariable.primitive v = false /\
     QuickJSVariable.isArray v = negb (is_undefined (VariableInfo.indexedVariables vi)) /\
     QuickJSVariable.indexedCount v = VariableInfo.indexedVariables vi /\
     QuickJSVariable.valueAsString v = Some value
   else
     QuickJSVariable.primitive v = false /\ QuickJSVariable.isArray v = false /\
     QuickJSVariable.valueAsString v = Some value) /\
  (let r := evaluate (EvaluateBody.mk "2" (Some "integer") 0 JUndefined) in
   QuickJSVariable.name r = "result" /\ QuickJSVariable.type r = Some "integer" /\
   QuickJSVariable.primitive r = true /\ QuickJSVariable.primitiveValue r = int 2).
Proof.
  intros v t value. unfold v, new_QuickJSVariable. fold t. fold value.
  split; [|split; [|split; [|split]]].
  - repeat (destruct (type_is t _); [reflexivity|]); destruct (_ || _)%bool; reflexivity.
  - repeat (destruct (type_is t _); [reflexivity|]); destruct (_ || _)%bool; reflexivity.
  - repeat (destruct (type_is t _); [reflexivity|]); destruct (_ || _)%bool; reflexivity.
  - repeat (destruct (type_is t _); [split; reflexivity|]).
    destruct (_ || _)%bool; repeat split.
  - repeat split.
Qed.

(** A [null] [indexedVariables] is not [undefined]: the variable is taken
    for an array whose [indexedCount] is [null]. *)
Lemma null_indexed_is_array :
  let v := new_QuickJSVariable (VariableInfo.mk "o" "Object" (Some "object") 7 JNull) in
  QuickJSVariable.primitive v = false /\ QuickJSVariable.isArray v = true /\
  QuickJSVariable.indexedCount v = JNull.
Proof. repeat split. Qed.

(** C10: [getTopStack] is [undefined] when the ['stackTrace'] response is
    the empty array, and otherwise the frame built from its first element;
    [traceStack] keeps the debuggee's order, frame by frame. *)
Theorem top_stack_first_frame (res : list StackFrameInfo.t) :
  getTopStack res = match res with [] => None | f :: _ => Some (new_QuickJSStackFrame f) end /\
  getTopStack [] = None /\
  (forall i, nth_error (traceStack res) i = option_map new_QuickJSStackFrame (nth_error res i)) /\
  (forall f, QuickJSStackFrame.id (new_QuickJSStackFrame f) = StackFrameInfo.id f /\
             QuickJSStackFrame.name (new_QuickJSStackFrame f) = StackFrameInfo.name f /\
             QuickJSStackFrame.fileName (new_QuickJSStackFrame f) = StackFrameInfo.filename f /\
             QuickJSStackFrame.lineNumber (new_QuickJSStackFrame f) = StackFrameInfo.line f).
Proof.
  split; [|split; [reflexivity|split]].
  - destruct res; reflexivity.
  - intros i. unfold traceStack. apply nth_error_map.
  - intros f. repeat split.
Qed.

End SessionFacts.

(** ** The inspector *)

Module InspectFacts.
Import Session Inspect.

(** *** Lists and association lists *)

Lemma alist_get_nth {A} (k : Z) (v : A) (m : list (Z * A)) :
  Connection.alist_get k m = Some v -> exists i, nth_error m i = Some (k, v).
Proof.
  induction m as [|[j w] m IH]; cbn; [discriminate|].
  destruct (Z.eqb_spec k j) as [->|]; intros H.
  - inversion H; subst. exists O. reflexivity.
  - destruct (IH H) as [i Hi]. exists (S i). exact Hi.
Qed.

Lemma alist_get_none {A} (k : Z) (m : list (Z * A)) :
  Connection.alist_get k m = None -> ~ In k (map fst m).
Proof.
  induction m as [|[j w] m IH]; cbn; [auto|].
  destruct (Z.eqb_spec k j) as [->|Hne]; [discriminate|].
  intros H [E|Hin]; [congruence | exact (IH H Hin)].
Qed.

Lemma alist_get_of_nth {A} (m : list (Z * A)) (i : nat) (k : Z) (v : A) :
  NoDup (map fst m) -> nth_error m i = Some (k, v) -> Connection.alist_get k m = Some v.
Proof.
  revert i. induction m as [|[j w] m IH]; intros i Hd Hi; [destruct i; discriminate|].
  inversion Hd as [|? ? Hn Hd']; subst. cbn.
  destruct i as [|i]; cbn in Hi.
  - inversion Hi; subst. rewrite Z.eqb_refl. reflexivity.
  - destruct (Z.eqb_spec k j) as [->|]; [|exact (IH i Hd' Hi)].
    exfalso. apply Hn. apply (nth_error_In _ i). rewrite nth_error_map, Hi. reflexivity.
Qed.

Lemma alist_get_snoc {A} (k k' : Z) (v : A) (m : list (Z * A)) :
  Connection.alist_get k m = None -> k <> k' -> Connection.alist_get k (m ++ [(k', v)]) = None.
Proof.
  induction m as [|[j w] m IH]; cbn; intros H Hne.
  - destruct (Z.eqb_spec k k'); [contradiction | reflexivity].
  - destruct (k =? j); [discriminate | exact (IH H Hne)].
Qed.

Lemma NoDup_snoc {A} (l : list A) (x : A) : NoDup l -> ~ In x l -> NoDup (l ++ [x]).
Proof.
  induction l as [|y l IH]; cbn; intros Hd Hx.
  - constructor; [intros []|constructor].
  - inversion Hd as [|? ? Hn Hd']; subst. constructor.
    + rewrite in_app_iff. intros [H|[H|[]]]; [exact (Hn H) | apply Hx; left; symmetry; exact H].
    + apply IH; [exact Hd' | intros H; apply Hx; right; exact H].
Qed.

Lemma nth_error_seq' (start n i : nat) :
  nth_error (seq start n) i = if (i <? n)%nat then Some (start + i)%nat else None.
Proof.
  revert start i. induction n as [|n IH]; intros start i.
  - destruct i; reflexivity.
  - destruct i as [|i]; cbn [seq nth_error]; [|rewrite IH];
      repeat match goal with |- context [Nat.ltb ?a ?b] => destruct (Nat.ltb_spec a b) end;
      try (f_equal; lia); try reflexivity; lia.
Qed.

Lemma map_update_nth {A B} (g : A -> B) (f : A -> A) (n : nat) (l : list A) :
  (forall x, g (f x) = g x) -> map g (update_nth n f l) = map g l.
Proof.
  intros Hg. revert n. induction l as [|x l IH]; intros [|n]; cbn; try rewrite Hg, ?IH; auto.
  rewrite IH. reflexivity.
Qed.

Lemma length_update_nth {A} (f : A -> A) (n : nat) (l : list A) :
  length (update_nth n f l) = length l.
Proof.
  pose proof (map_update_nth (fun _ => tt) f n l (fun _ => eq_refl)) as H.
  rewrite <- (length_map (fun _ : A => tt)), H, length_map. reflexivity.
Qed.

Lemma length_remove_nth {A} (n : nat) (l : list A) :
  (n < length l)%nat -> S (length (remove_nth n l)) = length l.
Proof.
  revert n. induction l as [|x l IH]; intros [|n] H; cbn in *; try lia.
  rewrite IH by lia. reflexivity.
Qed.

Lemma ref_new_QuickJSVariable (vi : VariableInfo.t) :
  QuickJSVariable.ref (new_QuickJSVariable vi) = VariableInfo.variablesReference vi.
Proof.
  unfold new_QuickJSVariable.
  repeat (destruct (type_is _ _); [reflexivity|]). destruct (_ || _)%bool; reflexivity.
Qed.

(** *** The invariant *)

Lemma iwf_lookup (s : istate) (r : Z) (a : nat) :
  iwf s -> Connection.alist_get r (referenceMap s) = Some a ->
  exists c, nth_error (heap s) a = Some c /\ tag c = r.
Proof.
  intros (F & S & _) H. destruct (alist_get_nth _ _ _ H) as [i Hi].
  assert (Hs : nth_error (map snd (referenceMap s)) i = Some a) by (rewrite nth_error_map, Hi; reflexivity).
  assert (Hf : nth_error (map fst (referenceMap s)) i = Some r) by (rewrite nth_error_map, Hi; reflexivity).
  rewrite S, nth_error_seq' in Hs. destruct (i <? length (heap s))%nat; [|discriminate].
  inversion Hs; subst a. cbn in Hf |- *.
  rewrite F, nth_error_map in Hf. destruct (nth_error (heap s) i) as [c|]; [|discriminate].
  exists c. inversion Hf. split; reflexivity.
Qed.

Lemma iwf_in_map (s : istate) (a : nat) (c : container) :
  iwf s -> nth_error (heap s) a = Some c -> Connection.alist_get (tag c) (referenceMap s) = Some a.
Proof.
  intros (F & S & D) H.
  assert (Ha : (a < length (heap s))%nat) by (apply nth_error_Some; congruence).
  assert (Hf : nth_error (map fst (referenceMap s)) a = Some (tag c)) by (rewrite F, nth_error_map, H; reflexivity).
  assert (Hs : nth_error (map snd (referenceMap s)) a = Some a).
  { rewrite S, nth_error_seq'. apply Nat.ltb_lt in Ha. rewrite Ha. reflexivity. }
  rewrite nth_error_map in Hf, Hs.
  destruct (nth_error (referenceMap s) a) as [[k v]|] eqn:E; [|discriminate].
  inversion Hf; inversion Hs; subst.
  apply (alist_get_of_nth _ a); [rewrite F; exact D | exact E].
Qed.

(** *** One step of the call *)

Lemma grows_refl (s : istate) : grows s s.
Proof.
  split; [exists []; rewrite app_nil_r; reflexivity|]. split; [exists []; rewrite app_nil_r; reflexivity|]. lia.
Qed.

Lemma grows_trans (s1 s2 s3 : istate) : grows s1 s2 -> grows s2 s3 -> grows s1 s3.
Proof.
  intros ([l1 H1] & [o1 O1] & L1) ([l2 H2] & [o2 O2] & L2).
  split; [exists (l1 ++ l2); rewrite H2, H1, app_assoc; reflexivity|].
  split; [exists (o1 ++ o2); rewrite O2, O1, app_assoc; reflexivity|]. lia.
Qed.

Lemma occ_ok_seen (s : istate) (r : Z) (v : mval) :
  occ_ok s -> (forall a, v = MObj a -> nth_error (map tag (heap s)) a = Some r) ->
  occ_ok (seen s r v).
Proof.
  intros H Hv r' a Hin. cbn in Hin. apply in_app_or in Hin. destruct Hin as [Hin|[E|[]]].
  - exact (H r' a Hin).
  - inversion E; subst. exact (Hv a eq_refl).
Qed.

Lemma grows_seen (s : istate) (r : Z) (v : mval) : grows s (seen s r v).
Proof.
  split; [exists []; rewrite app_nil_r; reflexivity|]. split; [exists [(r, v)]; reflexivity|]. cbn. lia.
Qed.

Lemma start_inv (P : Z -> Prop) (s : istate) (h : QuickJSVariable.t) (d : Z) :
  iwf s -> Forall P (map tag (heap s)) -> occ_ok s -> P (QuickJSVariable.ref h) ->
  let s' := snd (start s h d) in
  iwf s' /\ Forall P (map tag (heap s')) /\ occ_ok s' /\ grows s s'.
Proof.
  intros W FP O Ph. unfold start, start_call.
  destruct (QuickJSVariable.primitive h).
  { cbn. split; [exact W|]. split; [exact FP|]. split; [|apply grows_seen].
    apply occ_ok_seen; [exact O | discriminate]. }
  destruct (Connection.alist_get (QuickJSVariable.ref h) (referenceMap s)) as [a|] eqn:E.
  { cbn. split; [exact W|]. split; [exact FP|]. split; [|apply grows_seen].
    apply occ_ok_seen; [exact O|]. intros a' Ea. inversion Ea; subst a'.
    destruct (iwf_lookup s _ a W E) as (c & Hc & Tc).
    rewrite nth_error_map, Hc. cbn. congruence. }
  destruct (type_is (QuickJSVariable.type h) "object" && (0 <? d))%bool.
  2: { cbn. split; [exact W|]. split; [exact FP|]. split; [|apply grows_seen].
       apply occ_ok_seen; [exact O | discriminate]. }
  destruct W as (F & S & D).
  set (r := QuickJSVariable.ref h) in *. set (n := length (heap s)).
  assert (Hn : ~ In r (map tag (heap s))) by (rewrite <- F; apply alist_get_none; exact E).
  assert (Tn : map tag (heap s ++ [mkContainer r (QuickJSVariable.isArray h) []]) = map tag (heap s) ++ [r])
    by (rewrite map_app; reflexivity).
  unfold seen. cbn [snd referenceMap heap pending occurrences]. split; [|split; [|split]].
  - unfold iwf; cbn [referenceMap heap]. rewrite !map_app, F, S, length_app.
    cbn [map length fst snd tag]. split; [reflexivity|].
    split; [rewrite Nat.add_1_r, seq_S; reflexivity|].
    apply NoDup_snoc; [exact D | exact Hn].
  - cbn [heap]. rewrite Tn. apply Forall_app. split; [exact FP | constructor; [exact Ph | constructor]].
  - intros r' a Hin. cbn [heap]. rewrite Tn. cbn [occurrences] in Hin.
    apply in_app_or in Hin. destruct Hin as [Hin|[Ea|[]]].
    + pose proof (O r' a Hin) as Ha. rewrite nth_error_app1; [exact Ha|].
      apply nth_error_Some. congruence.
    + inversion Ea; subst. rewrite nth_error_app2 by (rewrite length_map; unfold n; lia).
      rewrite length_map. unfold n. rewrite Nat.sub_diag. reflexivity.
  - split; [exists [r]; exact Tn|]. split; [exists [(r, MObj n)]; reflexivity|].
    cbn [heap pending]. rewrite !length_app. cbn. lia.
Qed.

Lemma set_member_inv (P : Z -> Prop) (s : istate) (a : nat) (k : string) (v : mval) :
  iwf s -> Forall P (map tag (heap s)) -> occ_ok s ->
  let s' := set_member s a k v in
  iwf s' /\ Forall P (map tag (heap s')) /\ occ_ok s' /\ grows s s'.
Proof.
  intros (F & S & D) FP O s'.
  assert (T : map tag (heap s') = map tag (heap s)) by (apply map_update_nth; reflexivity).
  assert (L : length (heap s') = length (heap s)) by apply length_update_nth.
  split; [|split; [|split]].
  - unfold iwf. cbn [referenceMap]. rewrite T, L. auto.
  - rewrite T. exact FP.
  - intros r a' Hin. rewrite T. exact (O r a' Hin).
  - split; [exists []; rewrite T, app_nil_r; reflexivity|].
    split; [exists []; rewrite app_nil_r; reflexivity|]. rewrite L. reflexivity.
Qed.

Lemma on_properties_inv (P : Z -> Prop) (properties : list VariableInfo.t) (f : fetch) (s : istate) :
  Forall (fun vi => P (VariableInfo.variablesReference vi)) properties ->
  iwf s -> Forall P (map tag (heap s)) -> occ_ok s ->
  let s' := on_properties s f properties in
  iwf s' /\ Forall P (map tag (heap s')) /\ occ_ok s' /\ grows s s'.
Proof.
  unfold on_properties. revert s.
  induction properties as [|vi properties IH]; intros s Hp W FP O; cbn [fold_left].
  - split; [exact W|]. split; [exact FP|]. split; [exact O | apply grows_refl].
  - inversion Hp as [|? ? Pvi Hp']; subst.
    set (property := new_QuickJSVariable vi).
    destruct (String.eqb (QuickJSVariable.name property) "__proto__").
    + exact (IH s Hp' W FP O).
    + destruct (start s property (depth f - 1)) as [v s1] eqn:E.
      assert (Pr : P (QuickJSVariable.ref property)) by (unfold property; rewrite ref_new_QuickJSVariable; exact Pvi).
      destruct (start_inv P s property (depth f - 1) W FP O Pr) as (W1 & FP1 & O1 & G1).
      rewrite E in W1, FP1, O1, G1. cbn [snd] in W1, FP1, O1, G1.
      destruct (set_member_inv P s1 (target f) (QuickJSVariable.name property) v W1 FP1 O1)
        as (W2 & FP2 & O2 & G2).
      destruct (IH _ Hp' W2 FP2 O2) as (W3 & FP3 & O3 & G3).
      split; [exact W3|]. split; [exact FP3|]. split; [exact O3|].
      eapply grows_trans; [exact G1|]. eapply grows_trans; [exact G2 | exact G3].
Qed.

(** A fetch that is pending settles: one fetch less, and what its
    properties start. *)
Lemma settle_fetch_inv (P : Z -> Prop) (props : debuggee) (s : istate) (e : event) :
  (forall r o vi, In vi (props r o) -> P (VariableInfo.variablesReference vi)) ->
  iwf s -> Forall P (map tag (heap s)) -> occ_ok s ->
  let s' := settle_fetch props s e in
  iwf s' /\ Forall P (map tag (heap s')) /\ occ_ok s' /\
  (exists l, map tag (heap s') = map tag (heap s) ++ l) /\
  (exists o, occurrences s' = occurrences s ++ o) /\
  (if (event_index e <? length (pending s))%nat
   then (length (heap s') + length (pending s) = length (heap s) + length (pending s') + 1)%nat
   else s' = s).
Proof.
  intros Hprops W FP O s'. unfold s', settle_fetch.
  destruct (nth_error (pending s) (event_index e)) as [f|] eqn:E.
  - assert (Hi : (event_index e < length (pending s))%nat) by (apply nth_error_Some; congruence).
    set (s0 := mkIState (referenceMap s) (heap s) (remove_nth (event_index e) (pending s)) (occurrences s)).
    set (properties := match e with
                       | Answer _ => props (QuickJSVariable.ref (handle f)) (getPropOptions (handle f))
                       | Fail _ => [] end).
    assert (Hp : Forall (fun vi => P (VariableInfo.variablesReference vi)) properties).
    { apply Forall_forall. intros vi Hvi. unfold properties in Hvi.
      destruct e; [exact (Hprops _ _ _ Hvi) | destruct Hvi]. }
    destruct (on_properties_inv P properties f s0 Hp W FP O) as (W1 & FP1 & O1 & [l Hl] & [o Ho] & L).
    split; [exact W1|]. split; [exact FP1|]. split; [exact O1|].
    split; [exists l; exact Hl|]. split; [exists o; exact Ho|].
    apply Nat.ltb_lt in Hi as Hb. rewrite Hb.
    pose proof (length_remove_nth _ _ Hi). cbn [heap pending s0] in L. lia.
  - assert (Hi : ~ (event_index e < length (pending s))%nat) by (rewrite <- nth_error_Some; congruence).
    apply Nat.ltb_nlt in Hi. rewrite Hi.
    split; [exact W|]. split; [exact FP|]. split; [exact O|].
    split; [exists []; rewrite app_nil_r; reflexivity|].
    split; [exists []; rewrite app_nil_r; reflexivity | reflexivity].
Qed.

(** *** Whole calls *)

Lemma run_inv (P : Z -> Prop) (props : debuggee) (sched : list event) (s : istate) :
  (forall r o vi, In vi (props r o) -> P (VariableInfo.variablesReference vi)) ->
  iwf s -> Forall P (map tag (heap s)) -> occ_ok s ->
  let s' := fold_left (settle_fetch props) sched s in
  iwf s' /\ Forall P (map tag (heap s')) /\ occ_ok s' /\
  (exists o, occurrences s' = occurrences s ++ o) /\
  (effective props s sched = true ->
   (length (heap s') + length (pending s) = length (heap s) + length (pending s') + length sched)%nat).
Proof.
  intros Hprops. revert s. induction sched as [|e sched IH]; intros s W FP O; cbn [fold_left].
  - split; [exact W|]. split; [exact FP|]. split; [exact O|].
    split; [exists []; rewrite app_nil_r; reflexivity|]. intros _. cbn. lia.
  - destruct (settle_fetch_inv P props s e Hprops W FP O) as (W1 & FP1 & O1 & _ & [o1 Ho1] & L1).
    destruct (IH _ W1 FP1 O1) as (W2 & FP2 & O2 & [o2 Ho2] & L2).
    split; [exact W2|]. split; [exact FP2|]. split; [exact O2|].
    split; [exists (o1 ++ o2); rewrite Ho2, Ho1, app_assoc; reflexivity|].
    cbn [effective]. intros Heff. apply andb_true_iff in Heff. destruct Heff as [Hi Heff].
    rewrite Hi in L1. specialize (L2 Heff). cbn [length]. lia.
Qed.

Lemma iwf_empty : iwf empty_state.
Proof. split; [reflexivity|]. split; [reflexivity|]. constructor. Qed.

Lemma occ_ok_empty : occ_ok empty_state.
Proof. intros r a []. Qed.

Lemma start_root (P : Z -> Prop) (root : QuickJSVariable.t) (maxDepth : Z) :
  P (QuickJSVariable.ref root) ->
  let s := snd (start empty_state root maxDepth) in
  iwf s /\ Forall P (map tag (heap s)) /\ occ_ok s /\
  length (heap s) = length (pending s) /\
  occurrences s = [(QuickJSVariable.ref root, fst (start empty_state root maxDepth))].
Proof.
  intros Pr s.
  destruct (start_inv P empty_state root maxDepth iwf_empty (Forall_nil _) occ_ok_empty Pr)
    as (W & FP & O & _ & _ & L).
  split; [exact W|]. split; [exact FP|]. split; [exact O|].
  split; [cbn [length heap pending empty_state] in L; unfold s; lia|].
  unfold s, start. destruct (start_call empty_state root maxDepth) as [v s1] eqn:E. cbn.
  unfold start_call in E. destruct (QuickJSVariable.primitive root); [inversion E; reflexivity|].
  cbn in E. destruct (_ && _)%bool; inversion E; reflexivity.
Qed.

Lemma inspect_unfold (props : debuggee) (root : QuickJSVariable.t) (maxDepth : Z) (sched : list event) :
  inspect props root maxDepth sched =
  (fst (start empty_state root maxDepth),
   fold_left (settle_fetch props) sched (snd (start empty_state root maxDepth))).
Proof. unfold inspect. destruct (start empty_state root maxDepth). reflexivity. Qed.

Lemma settle_fetch_idle (props : debuggee) (s : istate) (e : event) :
  (length (pending s) <= event_index e)%nat -> settle_fetch props s e = s.
Proof.
  intros H. unfold settle_fetch. rewrite (proj2 (nth_error_None _ _) H). reflexivity.
Qed.

(** C1: one call of [inspect] on a finite remote graph ends whatever the
    order in which its ['variables'] requests settle: a run in which every
    event settles a pending request has at most one event per reference of
    the graph, and an event that names no pending request changes nothing.
    In every state of the call, for any schedule, no two containers share
    a reference, each container sits in [referenceMap] under its reference
    from its creation on, every occurrence that materialised to a
    container got the container of its own reference (so two occurrences
    of one reference never get two containers), and an occurrence of a
    non-primitive handle whose reference is in [referenceMap] gets that
    container at any depth. The root is the first occurrence, and
    occurrences are only added. In the two-node cycle [A.next = B,
    B.prev = A] with [maxDepth] 16, the call ends and [result.next.prev]
    is [result]. *)
Theorem inspect_identity (props : debuggee) (root : QuickJSVariable.t) (maxDepth : Z) (universe : list Z) :
  closed props root universe ->
  (forall sched, effective props (snd (start empty_state root maxDepth)) sched = true ->
     (length sched <= length universe)%nat) /\
  (forall s e, (length (pending s) <= event_index e)%nat -> settle_fetch props s e = s) /\
  (forall sched,
     let s := snd (inspect props root maxDepth sched) in
     NoDup (map tag (heap s)) /\
     (forall a c, nth_error (heap s) a = Some c -> Connection.alist_get (tag c) (referenceMap s) = Some a) /\
     (forall r a, In (r, MObj a) (occurrences s) -> exists c, nth_error (heap s) a = Some c /\ tag c = r) /\
     (forall r a b, In (r, MObj a) (occurrences s) -> In (r, MObj b) (occurrences s) -> a = b) /\
     (forall h d a, QuickJSVariable.primitive h = false ->
        Connection.alist_get (QuickJSVariable.ref h) (referenceMap s) = Some a -> fst (start s h d) = MObj a) /\
     hd_error (occurrences s) = Some (QuickJSVariable.ref root, fst (inspect props root maxDepth sched)) /\
     (forall sched', exists o,
        occurrences (snd (inspect props root maxDepth (sched ++ sched'))) = occurrences s ++ o)) /\
  (let '(v, s) := inspect two_node_cycle cycle_root 16 [Answer 0; Answer 0] in
   pending s = [] /\ path s v ["next"; "prev"] = Some v).
Proof.
  intros [Hroot Hprops].
  pose proof (start_root (fun r => True) root maxDepth I) as (W0 & FP0 & O0 & L0 & Oc0).
  set (s0 := snd (start empty_state root maxDepth)) in *.
  assert (Htrue : forall r o vi, In vi (props r o) -> (fun _ : Z => True) (VariableInfo.variablesReference vi))
    by (intros; exact I).
  split; [|split; [exact (settle_fetch_idle props) | split]].
  - intros sched Heff.
    pose proof (start_root (fun r => In r universe) root maxDepth Hroot) as (W & FP & O & L & _).
    fold s0 in W, FP, O, L.
    destruct (run_inv (fun r => In r universe) props sched s0 Hprops W FP O) as ((_ & _ & D) & FU & _ & _ & Len).
    specialize (Len Heff).
    set (s := fold_left (settle_fetch props) sched s0) in *.
    assert (Hu : (length (map tag (heap s)) <= length universe)%nat).
    { apply NoDup_incl_length; [exact D|]. intros r Hr. eapply Forall_forall in FU; [exact FU | exact Hr]. }
    rewrite length_map in Hu. lia.
  - intros sched. rewrite !inspect_unfold. cbn [fst snd]. fold s0.
    set (s := fold_left (settle_fetch props) sched s0).
    destruct (run_inv (fun _ => True) props sched s0 Htrue W0 FP0 O0) as (W & _ & O & [o Ho] & _).
    fold s in W, O, Ho.
    split; [exact (proj2 (proj2 W))|]. split; [|split; [|split; [|split; [|split]]]].
    + intros a c Hc. exact (iwf_in_map s a c W Hc).
    + intros r a Hin. pose proof (O r a Hin) as Ha. rewrite nth_error_map in Ha.
      destruct (nth_error (heap s) a) as [c|]; [|discriminate].
      exists c. inversion Ha. split; reflexivity.
    + intros r a b Ha Hb. pose proof (O r a Ha) as Ea. pose proof (O r b Hb) as Eb.
      destruct W as (_ & _ & D).
      assert (Hlt : (a < length (map tag (heap s)))%nat) by (apply nth_error_Some; congruence).
      assert (Hlt' : (b < length (map tag (heap s)))%nat) by (apply nth_error_Some; congruence).
      apply (NoDup_nth_error (map tag (heap s))); [exact D | exact Hlt | congruence].
    + intros h d a Hp Ha. unfold start, start_call. rewrite Hp, Ha. reflexivity.
    + rewrite Ho, Oc0. reflexivity.
    + intros sched'. rewrite inspect_unfold. cbn [snd]. rewrite fold_left_app.
      fold s. destruct (run_inv (fun _ => True) props sched' s Htrue W (proj2 (Forall_forall _ _) (fun _ _ => I)) O)
        as (_ & _ & _ & [o' Ho'] & _).
      exists o'. exact Ho'.
  - vm_compute. split; reflexivity.
Qed.

(** The call on [two_node_cycle] satisfies the hypothesis of
    [inspect_identity] with the references 1 and 2. *)
Lemma inspect_identity_witness :
  closed two_node_cycle cycle_root [1; 2] /\
  (forall sched, effective two_node_cycle (snd (start empty_state cycle_root 16)) sched = true ->
     (length sched <= 2)%nat).
Proof.
  assert (Hc : closed two_node_cycle cycle_root [1; 2]).
  { split; [vm_compute; left; reflexivity|].
    intros r o vi H. unfold two_node_cycle in H.
    destruct (r =? 1); [|destruct (r =? 2)]; cbn in H; try contradiction;
      destruct H as [<-|[]]; vm_compute; auto. }
  split; [exact Hc|].
  exact (proj1 (inspect_identity two_node_cycle cycle_root 16 [1; 2] Hc)).
Defined.

(** With the chain answered first, the object 300 is met with no depth
    left at the end of [a], before [b]'s answer enters it: it is the
    string ["Object"] there, and a container under [b.x]. *)
Lemma same_ref_string_and_container :
  let '(v, s) := inspect chain_graph chain_root 16 chain_first in
  pending s = [] /\
  nth_error (occurrences s) 17 = Some (300, MText "Object") /\
  nth_error (occurrences s) 18 = Some (300, MObj 17) /\
  path s v ("a" :: repeat "next" 15) = Some (MText "Object") /\
  path s v ["b"; "x"] = Some (MObj 17) /\
  nth_error (map tag (heap s)) 17 = Some 300.
Proof. vm_compute. repeat split. Qed.

End InspectFacts.

(** ** The host-extended session *)

Module MinecraftFacts.
Import Connection Minecraft.

Lemma json_norm_JArr_map {A} (f g : A -> jsval) (l : list A) :
  (forall x, json_norm (f x) = Some (g x)) -> (forall x, is_undefined (g x) = false) ->
  json_norm (JArr (map f l)) = Some (JArr (map g l)).
Proof.
  intros Hf Hg. induction l as [|x l IH]; [reflexivity|].
  cbn [map json_norm] in IH |- *. rewrite Hf, Hg.
  match goal with |- context [?F (map f l)] =>
    match type of IH with context [F (map f l)] => destruct (F (map f l)) as [ys|] eqn:E end end.
  - cbn in IH |- *. inversion IH. reflexivity.
  - discriminate.
Qed.

Lemma json_norm_breakpoints (bps : list BreakpointInfo) :
  json_norm (JArr (map breakpoint_json bps)) = Some (JArr (map breakpoint_wire bps)).
Proof.
  apply json_norm_JArr_map; [|reflexivity].
  intros [l [c|]]; reflexivity.
Qed.

Lemma map_const' {A B} (x : B) (l : list A) : map (fun _ => x) l = repeat x (length l).
Proof. induction l as [|y l IH]; cbn; [reflexivity | rewrite IH; reflexivity]. Qed.

Lemma json_norm_lines (lines : list Z) :
  json_norm (JArr (map int lines)) = Some (JArr (map int lines)).
Proof. apply json_norm_JArr_map; reflexivity. Qed.

(** C8: on a ['ProtocolEvent'] of any version, the session records the
    version and emits ['protocol']. A session with a [ProtocolInfo] then
    writes one ['protocol']
    envelope carrying the configured [version]; its [target_module_uuid]
    and [passcode] members are there exactly when they are configured,
    whatever the protocol version. A session without [ProtocolInfo]
    writes nothing. *)
Theorem protocol_handshake_fields (s : session) (ev_version : Z) :
  match protocolInfo s with
  | Some info =>
      exists s' m, on_protocol_event s ev_version = Some s' /\
        protocolVersion s' = ev_version /\ emitted s' = emitted s ++ ["protocol"] /\
        wire (connection s') = wire (connection s) ++ [m] /\
        m = JObj ([("version", int (version info)); ("type", JStr "protocol")] ++
                  match targetModuleUuid info with Some u => [("target_module_uuid", JStr u)] | None => [] end ++
                  match passcode info with Some p => [("passcode", JStr p)] | None => [] end) /\
        has_key m "target_module_uuid" = is_set (targetModuleUuid info) /\
        has_key m "passcode" = is_set (passcode info)
  | None =>
      exists s', on_protocol_event s ev_version = Some s' /\
        protocolVersion s' = ev_version /\ emitted s' = emitted s ++ ["protocol"] /\
        connection s' = connection s
  end.
Proof.
  unfold on_protocol_event. destruct (protocolInfo s) as [[v u p]|]; cbn [protocolInfo].
  - unfold sendEnvelope. cbn [connection version targetModuleUuid passcode].
    destruct u as [u|], p as [p|]; cbn; do 2 eexists; repeat split.
  - eexists. repeat split.
Qed.

(** A session configured with a module uuid answers a version 1 handshake
    with the uuid. *)
Lemma handshake_uuid_at_version_1 :
  match on_protocol_event (new_session (Some (mkProtocolInfo 1 (Some "uuid") None))) 1 with
  | Some s' => wire (connection s') =
               [JObj [("version", int 1); ("type", JStr "protocol"); ("target_module_uuid", JStr "uuid")]]
  | None => False
  end.
Proof. vm_compute. reflexivity. Qed.

(** C9: from protocol version 6 on, [setBreakpoints] sends one
    ['setBreakpoints'] request with the lines, and no ['breakpoints']
    envelope, and returns that request's promise. Below 6 it writes one
    ['breakpoints'] envelope [{breakpoints: {path, breakpoints}}], with
    the [breakpoints] member left out when the list is empty. It sends no
    request and returns [{verified: true}] for each breakpoint. At version
    6, a response with a body settles the returned promise with that
    body. *)
Theorem breakpoints_by_version (s : session) (fileName : string) (bps : list BreakpointInfo) :
  (SupportBreakpointsAsRequest <= protocolVersion s ->
   let c := connection s in
   exists s', setBreakpoints s fileName bps = Some (s', Awaiting (requestSeq c)) /\
     connection s' = setBreakpointLines c fileName (map line bps) /\
     wire (connection s') =
       wire c ++ [JObj [("version", int (requestVersion c)); ("type", JStr "request");
                        ("request", JObj [("request_seq", int (requestSeq c));
                                          ("command", JStr "setBreakpoints");
                                          ("args", JObj [("path", JStr fileName);
                                                         ("lines", JArr (map int (map line bps)))])])]] /\
     promise_state (connection s') (requestSeq c) = Some Pending) /\
  (protocolVersion s < SupportBreakpointsAsRequest ->
   let c := connection s in
   exists s', setBreakpoints s fileName bps =
       Some (s', Statuses (repeat (JObj [("verified", JBool true)]) (length bps))) /\
     requestSeq (connection s') = requestSeq c /\
     requestReactions (connection s') = requestReactions c /\
     wire (connection s') =
       wire c ++ [JObj [("version", int (requestVersion c)); ("type", JStr "breakpoints");
                        ("breakpoints", JObj (("path", JStr fileName) ::
                           match bps with
                           | [] => []
                           | _ => [("breakpoints", JArr (map breakpoint_wire bps))]
                           end))]]) /\
  (match on_protocol_event (new_session None) 6 with
   | Some s6 =>
       match setBreakpoints s6 "x.js" [mkBreakpointInfo 10 None; mkBreakpointInfo 20 None] with
       | Some (s', Awaiting seq) =>
           let body := JArr [JObj [("verified", JBool true)]; JObj [("verified", JBool false)]] in
           let c' := step (connection s')
                       (IMessage (JObj [("type", JStr "response"); ("request_seq", int seq);
                                        ("body", body)])) in
           seq = 1 /\ promise_state c' seq = Some (Fulfilled body)
       | _ => False
       end
   | None => False
   end).
Proof.
  split; [|split].
  - intros Hv c. unfold setBreakpoints. apply Z.leb_le in Hv. rewrite Hv.
    eexists. split; [reflexivity|]. split; [reflexivity|].
    cbn [connection set_connection]. unfold setBreakpointLines, send_request.
    fold c. cbn [requestVersion set_seq].
    unfold request_envelope.
    remember (JArr (map int (map line bps))) as L eqn:HL.
    cbn. rewrite HL, json_norm_lines. cbn. split; [reflexivity|].
    unfold promise_state. cbn. apply ConnectionFacts.alist_get_set_eq.
  - intros Hv c. unfold setBreakpoints. apply Z.leb_gt in Hv. rewrite Hv.
    unfold base_setBreakpoints, sendEnvelope. fold c.
    destruct bps as [|b bps'].
    + cbn. eexists. split; [reflexivity|]. repeat split.
    + remember (JArr (map breakpoint_json (b :: bps'))) as L eqn:HL.
      cbn. rewrite HL, json_norm_breakpoints. cbn. rewrite map_const'.
      eexists. split; [reflexivity|]. repeat split.
  - vm_compute. split; reflexivity.
Qed.

(** Both branches of [breakpoints_by_version] at a concrete session. *)
Lemma breakpoints_by_version_witness :
  (SupportBreakpointsAsRequest <= protocolVersion (mkSession 6 None init_conn []) /\
   exists s', setBreakpoints (mkSession 6 None init_conn []) "x.js" [mkBreakpointInfo 10 None]
              = Some (s', Awaiting 1)) /\
  (protocolVersion (new_session None) < SupportBreakpointsAsRequest /\
   exists s', setBreakpoints (new_session None) "x.js" [mkBreakpointInfo 10 None]
              = Some (s', Statuses [JObj [("verified", JBool true)]])).
Proof.
  split; split.
  - vm_compute. discriminate.
  - destruct (proj1 (breakpoints_by_version (mkSession 6 None init_conn []) "x.js"
                       [mkBreakpointInfo 10 None]) ltac:(vm_compute; discriminate)) as (s' & H & _).
    exists s'. exact H.
  - vm_compute. reflexivity.
  - destruct (proj1 (proj2 (breakpoints_by_version (new_session None) "x.js"
                       [mkBreakpointInfo 10 None])) ltac:(vm_compute; reflexivity)) as (s' & H & _).
    exists s'. exact H.
Defined.

(** At a version below 6, an empty list is sent with no [breakpoints]
    member at all, not with [null]. *)
Lemma empty_breakpoints_omitted :
  match setBreakpoints (new_session None) "x.js" [] with
  | Some (s', r) =>
      r = Statuses [] /\
      wire (connection s') =
        [JObj [("version", int 1); ("type", JStr "breakpoints");
               ("breakpoints", JObj [("path", JStr "x.js")])]]
  | None => False
  end.
Proof. vm_compute. split; reflexivity. Qed.

End MinecraftFacts.

Module FunctionCodeFacts.
Import Js FunctionCode.

Lemma quote_char_read (c : ascii) (rest : string) :
  string_chars (String.append (quote_char c) rest) =
  match string_chars rest with Some (x, r) => Some (String c x, r) | None => None end.
Proof.
  destruct c as [[] [] [] [] [] [] [] []]; reflexivity.
Qed.

Lemma string_append_assoc (a b c : string) :
  String.append (String.append a b) c = String.append a (String.append b c).
Proof. induction a as [|x a IH]; simpl; [reflexivity|]. rewrite IH. reflexivity. Qed.

Lemma quote_chars_read (s rest : string) :
  string_chars (String.append (quote_chars s) (String quote rest)) = Some (s, rest).
Proof.
  induction s as [|c s IH]; [reflexivity|].
  cbn [quote_chars]. rewrite string_append_assoc, quote_char_read, IH. reflexivity.
Qed.

(** ** [JSON.stringify] of a string reads back *)

(** [JSON.stringify] on a string gives a JSON string literal that
    [JSON.parse] reads back to the same string, whatever characters it
    holds, and the literal ends where the quoted text ends. *)
Theorem QuoteJSONString_roundtrip (s rest : string) :
  read_string_literal (String.append (QuoteJSONString s) rest) = Some (s, rest).
Proof.
  unfold QuoteJSONString. cbn [String.append read_string_literal].
  rewrite string_append_assoc. cbn [String.append]. apply quote_chars_read.
Qed.

Theorem generateFunctionCode_function (stringify : jsval -> option string) (source : string) (args : jsval) :
  exists q,
    generateFunctionCode stringify (CFunction source) args TFunction =
      String.append "(new Function("
        (String.append q (String.append "))("
          (String.append (match stringify args with Some t => t | None => "undefined" end) ")"))) /\
    forall rest, read_string_literal (String.append q rest) =
                 Some (String.append "return (" (String.append source ")(arguments[0])"), rest).
Proof.
  eexists. split; [reflexivity|]. intros rest. apply QuoteJSONString_roundtrip.
Qed.

End FunctionCodeFacts.

Module FramingStallFacts.
Import Js Framing FramingFacts.

Lemma stalled_feed (cs : list bytes) (l : listener) :
  state l = SContent -> triggerLength l = NaN ->
  feed l cs = Some (mkListener (chunks l ++ cs) (bufferLength l + blen (concat cs)) SContent NaN, []).
Proof.
  revert l. induction cs as [|c cs IH]; intros l S T.
  - destruct l as [ch bl st tl]; cbn in *. subst. rewrite app_nil_r, Z.add_0_r. reflexivity.
  - destruct l as [ch bl st tl]; cbn in S, T; subst.
    cbn [feed]. unfold on_data, data_fuel. rewrite drain_S. unfold loop_cond.
    cbn [triggerLength z_ge_num chunks bufferLength state].
    rewrite IH by reflexivity.
    cbn [chunks bufferLength app concat]. rewrite <- app_assoc.
    unfold blen. rewrite length_app, Nat2Z.inj_add, Z.add_assoc. reflexivity.
Qed.

(** A first chunk that starts with a header of nine ASCII bytes, which
    [parseInt(_, 16)] reads as [NaN], stalls the listener for good: it
    switches to ['content'] with [triggerLength] [NaN], the loop condition
    [bufferLength >= NaN] is false from then on, and no later chunk
    delivers a message; every byte received after the header is kept in
    [chunks]. On ASCII bytes, [to_text] is the UTF-8 decoding of
    [Buffer.toString]. *)
Theorem framing_stall (c : bytes) (cs : list bytes) :
  (9 <= length c)%nat ->
  forallb (fun b => (Byte.to_N b <? 128)%N) (firstn 9 c) = true ->
  parseInt (to_text (firstn 9 c)) 16 = NaN ->
  feed fresh_listener (c :: cs) =
  Some (mkListener (skipn 9 c :: cs) (blen (concat (c :: cs)) - 9) SContent NaN, []).
Proof.
  intros L _ P. cbn [feed]. unfold on_data, data_fuel. rewrite drain_S.
  cbn [chunks bufferLength state triggerLength fresh_listener app].
  unfold loop_cond. cbn [bufferLength triggerLength]. rewrite z_ge_num_int.
  assert (B : 9 <= blen c) by (unfold blen; lia).
  replace (9 <=? 0 + blen c) with true by (symmetry; apply Z.leb_le; lia).
  unfold loop_body. cbn [bufferedChunk chunks triggerLength state bufferLength num_to_int].
  replace (if 0 <=? 0 then 9 * 10 ^ 0 else Z.quot 9 (10 ^ (- 0))) with 9 by reflexivity.
  rewrite subarray_prefix by lia. rewrite subarray_suffix by lia.
  change (Z.to_nat 9) with 9%nat. rewrite P.
  rewrite drain_S. unfold loop_cond. cbn [triggerLength z_ge_num].
  rewrite stalled_feed by reflexivity. cbn [chunks bufferLength app concat].
  replace (0 + blen c - 9 + blen (concat cs)) with (blen (c ++ concat cs) - 9); [reflexivity|].
  unfold blen. rewrite length_app, Nat2Z.inj_add. lia.
Qed.

(** A header of nine bytes that are no hexadecimal digits, then a body. *)
Lemma framing_stall_witness :
  let c := list_byte_of_string "zzzzzzzz" ++ [lf] in
  let cs := [sendMessage_body "{}"] in
  ((9 <= length c)%nat /\ forallb (fun b => (Byte.to_N b <? 128)%N) (firstn 9 c) = true /\
   parseInt (to_text (firstn 9 c)) 16 = NaN) /\
  feed fresh_listener (c :: cs) =
  Some (mkListener (skipn 9 c :: cs) (blen (concat (c :: cs)) - 9) SContent NaN, []).
Proof.
  intros c cs. split; [split; [vm_compute; lia | split; vm_compute; reflexivity]|].
  apply framing_stall; [vm_compute; lia | vm_compute; reflexivity | vm_compute; reflexivity].
Defined.

End FramingStallFacts.

Module InspectProtoFacts.
Import Js Session Inspect InspectFacts.

Lemma mget_mset_neq (o : list (string * mval)) (k k' : string) (v : mval) :
  k <> k' -> mget (mset o k v) k' = mget o k'.
Proof.
  intros N. induction o as [|[x y] o IH]; cbn.
  - destruct (String.eqb k' k) eqn:E; [apply String.eqb_eq in E; congruence | reflexivity].
  - destruct (String.eqb k x) eqn:E1; cbn.
    + apply String.eqb_eq in E1. subst x.
      destruct (String.eqb k' k) eqn:E; [apply String.eqb_eq in E; congruence | reflexivity].
    + rewrite IH. reflexivity.
Qed.

Lemma Forall_update_nth {A} (P : A -> Prop) (f : A -> A) (n : nat) (l : list A) :
  (forall x, P x -> P (f x)) -> Forall P l -> Forall P (update_nth n f l).
Proof.
  intros Hf. revert n. induction l as [|x l IH]; intros n Hl; destruct n; cbn; auto;
    inversion Hl; subst; constructor; auto.
Qed.

Lemma no_proto_start (s : istate) (h : QuickJSVariable.t) (d : Z) :
  no_proto s -> no_proto (snd (start s h d)).
Proof.
  unfold start, start_call, no_proto. intros H.
  destruct (QuickJSVariable.primitive h); [exact H|].
  destruct (Connection.alist_get _ _); [exact H|].
  destruct (_ && _)%bool; [|exact H].
  cbn. apply Forall_app. split; [exact H | constructor; [reflexivity | constructor]].
Qed.

Lemma no_proto_on_properties (s : istate) (f : fetch) (properties : list VariableInfo.t) :
  no_proto s -> no_proto (on_properties s f properties).
Proof.
  unfold on_properties. revert s. induction properties as [|vi properties IH]; intros s H; [exact H|].
  cbn [fold_left]. apply IH.
  destruct (String.eqb (QuickJSVariable.name (new_QuickJSVariable vi)) "__proto__") eqn:E; [exact H|].
  pose proof (no_proto_start s (new_QuickJSVariable vi) (depth f - 1) H) as H1.
  destruct (start s (new_QuickJSVariable vi) (depth f - 1)) as [v s1]. cbn in H1.
  unfold set_member, no_proto. cbn [heap].
  apply Forall_update_nth; [|exact H1]. intros c Hc. cbn [members].
  rewrite mget_mset_neq; [exact Hc|]. intros Eq. rewrite Eq in E. discriminate.
Qed.

(** No container [inspect] builds without the [inspectProto] option (the
    default, and [inspect({maxDepth})]) has an own ['__proto__'] member, for
    any debuggee and any order of answers: a property of that name is
    skipped ([inspectProto] is not set), so its value is not fetched
    either. *)
Theorem inspect_skips_proto (props : debuggee) (root : QuickJSVariable.t) (maxDepth : Z) (sched : list event) :
  Forall (fun c => mget (members c) "__proto__" = None) (heap (snd (inspect props root maxDepth sched))).
Proof.
  rewrite inspect_unfold. cbn [snd].
  assert (H0 : no_proto (snd (start empty_state root maxDepth))) by (apply no_proto_start; constructor).
  revert H0. generalize (snd (start empty_state root maxDepth)) as s.
  induction sched as [|e sched IH]; intros s H; [exact H|].
  cbn [fold_left]. apply IH. unfold settle_fetch.
  destruct (nth_error (pending s) (event_index e)) as [f|]; [|exact H].
  apply no_proto_on_properties. exact H.
Qed.

End InspectProtoFacts.

Module ResponseOnceFacts.
Import Js Connection ConnectionFacts.

Lemma response_without_reaction (c : conn) (kvs : list (string * jsval)) (k : Z) :
  obj_get kvs "type" = JStr "response" -> map_key (obj_get kvs "request_seq") = Some k ->
  alist_get k (requestReactions c) = None -> microtasks c = [] ->
  step c (IMessage (JObj kvs)) = c.
Proof.
  intros T K N M. unfold step. cbn [handle]. unfold handle_message. rewrite T. cbn.
  rewrite K, N. apply flush_id, M.
Qed.

Lemma get_filter_none (f : Z * Z -> bool) (k : Z) (m : list (Z * Z)) :
  alist_get k m = None -> alist_get k (filter f m) = None.
Proof.
  induction m as [|[a b] m IH]; cbn; [reflexivity|].
  destruct (Z.eqb k a) eqn:E; [discriminate|]. intros H.
  destruct (f (a, b)); cbn; [rewrite E|]; apply IH, H.
Qed.

Lemma get_del_same (k : Z) (m : list (Z * Z)) : alist_get k (alist_del k m) = None.
Proof.
  unfold alist_del. induction m as [|[a b] m IH]; cbn; [reflexivity|].
  destruct (Z.eqb k a) eqn:E; cbn; [exact IH|]. rewrite E. exact IH.
Qed.

Lemma settle_reactions (c : conn) (p : Z) (o : outcome) :
  requestReactions (settle c p o) = requestReactions c.
Proof. unfold settle. destruct (alist_get p (promises c)) as [[]|]; reflexivity. Qed.

(** A request is settled by one response at most: once a response for
    [request_seq] [k] has been handled, a second response for [k] changes
    nothing, whatever its [error] and [body]. *)
Theorem duplicate_response_ignored (c : conn) (kvs1 kvs2 : list (string * jsval)) (k : Z) :
  obj_get kvs1 "type" = JStr "response" -> map_key (obj_get kvs1 "request_seq") = Some k ->
  obj_get kvs2 "type" = JStr "response" -> map_key (obj_get kvs2 "request_seq") = Some k ->
  let c1 := step c (IMessage (JObj kvs1)) in
  step c1 (IMessage (JObj kvs2)) = c1.
Proof.
  intros T1 K1 T2 K2 c1. apply response_without_reaction with k; [exact T2 | exact K2 | |].
  - unfold c1, step. destruct (flush_fields (handle c (IMessage (JObj kvs1)))) as (R & _ & _ & M & _).
    rewrite R. apply get_filter_none.
    cbn [handle]. unfold handle_message. rewrite T1. cbn. rewrite K1.
    destruct (alist_get k (requestReactions c)) as [p|] eqn:E; cbn.
    + destruct (truthy (obj_get kvs1 "error")); unfold reject, resolve;
        rewrite settle_reactions; cbn; apply get_del_same.
    + exact E.
  - unfold c1, step. apply (flush_fields (handle c (IMessage (JObj kvs1)))).
Qed.

(** After the socket has ended, a response changes nothing: the ['end']
    handler emptied [requestReactions], so no promise can be settled
    twice and no late answer is delivered. *)
Theorem response_after_end_ignored (c : conn) (kvs : list (string * jsval)) (k : Z) :
  obj_get kvs "type" = JStr "response" -> map_key (obj_get kvs "request_seq") = Some k ->
  let c1 := step c IEnd in
  step c1 (IMessage (JObj kvs)) = c1.
Proof.
  intros T K c1. apply response_without_reaction with k; [exact T | exact K | |].
  - unfold c1, step. destruct (flush_fields (handle c IEnd)) as (R & _).
    rewrite R. apply get_filter_none. cbn [handle]. unfold on_end. reflexivity.
  - unfold c1, step. apply (flush_fields (handle c IEnd)).
Qed.

(** Two responses to the request [pause] of seq 1, the second an error. *)
Lemma duplicate_response_ignored_witness :
  let c := send_request init_conn "pause" JUndefined in
  let kvs1 := [("type", JStr "response"); ("request_seq", int 1); ("body", JNull)] in
  let kvs2 := [("type", JStr "response"); ("request_seq", int 1); ("error", JStr "late")] in
  (obj_get kvs1 "type" = JStr "response" /\ map_key (obj_get kvs1 "request_seq") = Some 1 /\
   obj_get kvs2 "type" = JStr "response" /\ map_key (obj_get kvs2 "request_seq") = Some 1) /\
  let c1 := step c (IMessage (JObj kvs1)) in
  step c1 (IMessage (JObj kvs2)) = c1.
Proof.
  intros c kvs1 kvs2. split; [repeat split; reflexivity|].
  apply (duplicate_response_ignored c kvs1 kvs2 1); reflexivity.
Defined.

(** The request [pause] of seq 1, the socket's end, then its response. *)
Lemma response_after_end_ignored_witness :
  let c := send_request init_conn "pause" JUndefined in
  let kvs := [("type", JStr "response"); ("request_seq", int 1); ("body", JNull)] in
  (obj_get kvs "type" = JStr "response" /\ map_key (obj_get kvs "request_seq") = Some 1) /\
  let c1 := step c IEnd in
  step c1 (IMessage (JObj kvs)) = c1.
Proof.
  intros c kvs. split; [split; reflexivity|].
  apply (response_after_end_ignored c kvs 1); reflexivity.
Defined.

End ResponseOnceFacts.

Module StatsFacts.
Import Js Stats.

Lemma sget_sset_eq {A} (m : list (string * A)) (k : string) (v : A) : sget (sset m k v) k = Some v.
Proof.
  induction m as [|[k' v'] m IH]; cbn [sset sget]; [rewrite String.eqb_refl; reflexivity|].
  destruct (String.eqb k k') eqn:E; cbn [sget]; rewrite E; [reflexivity|].
  exact IH.
Qed.

Lemma sget_sset_neq {A} (m : list (string * A)) (k k' : string) (v : A) :
  k <> k' -> sget (sset m k v) k' = sget m k'.
Proof.
  intros N. induction m as [|[x y] m IH]; cbn [sset sget].
  - destruct (String.eqb k' k) eqn:E; [apply String.eqb_eq in E; congruence | reflexivity].
  - destruct (String.eqb k x) eqn:E1; cbn [sget].
    + apply String.eqb_eq in E1. subst x.
      destruct (String.eqb k' k) eqn:E; [apply String.eqb_eq in E; congruence | reflexivity].
    + rewrite IH. reflexivity.
Qed.

Lemma sget_sset {A} (m : list (string * A)) (k k' : string) (v : A) :
  sget (sset m k v) k' = if String.eqb k' k then Some v else sget m k'.
Proof.
  destruct (String.eqb k' k) eqn:E.
  - apply String.eqb_eq in E. subst. apply sget_sset_eq.
  - apply sget_sset_neq. intros ->. rewrite String.eqb_refl in E. discriminate.
Qed.

Lemma subsumes_refl (t : StatTree) : subsumes t t.
Proof. intros q H. exact H. Qed.

Lemma subsumes_trans (t1 t2 t3 : StatTree) : subsumes t1 t2 -> subsumes t2 t3 -> subsumes t1 t3.
Proof. intros A B q H. apply B, A, H. Qed.

(** Replacing the node under [k] by one whose children keep every path
    of the old node's children keeps every path. *)
Lemma subsumes_sset (t : StatTree) (k : string) (n n' : StatTreeNode.t) :
  sget t k = Some n -> subsumes (children_of n) (children_of n') -> subsumes t (sset t k n').
Proof.
  intros E S [|x q] H; [reflexivity|]. cbn in *. rewrite sget_sset.
  destruct (String.eqb x k) eqn:X.
  - apply String.eqb_eq in X. subst x. rewrite E in H. apply S, H.
  - exact H.
Qed.

(** Adding a key that is not there keeps every path. *)
Lemma subsumes_sset_new (t : StatTree) (k : string) (n' : StatTreeNode.t) :
  sget t k = None -> subsumes t (sset t k n').
Proof.
  intros E [|x q] H; [reflexivity|]. cbn in *. rewrite sget_sset.
  destruct (String.eqb x k) eqn:X; [|exact H].
  apply String.eqb_eq in X. subst x. rewrite E in H. discriminate.
Qed.

Lemma walk_ok (t : StatTree) (p : list string) (f : StatTree -> StatTree) :
  resolves t p = true -> snd (walk t p f) = true.
Proof.
  revert t. induction p as [|k p IH]; intros t H; [reflexivity|].
  cbn in *. destruct (sget t k) as [n|]; [|discriminate].
  specialize (IH _ H). destruct (walk (children_of n) p f) as [ch ok]. exact IH.
Qed.

Lemma walk_subsumes (t : StatTree) (p : list string) (f : StatTree -> StatTree) :
  (forall t0, subsumes t0 (f t0)) -> subsumes t (fst (walk t p f)).
Proof.
  intros Hf. revert t. induction p as [|k p IH]; intros t; [apply Hf|].
  cbn. destruct (sget t k) as [n|] eqn:E; [|apply subsumes_refl].
  specialize (IH (children_of n)). destruct (walk (children_of n) p f) as [ch ok]. cbn in *.
  apply subsumes_sset with n; [exact E|]. exact IH.
Qed.

Lemma walk_reaches (t : StatTree) (p q : list string) (f : StatTree -> StatTree) :
  (forall t0, resolves (f t0) q = true) -> resolves t p = true ->
  resolves (fst (walk t p f)) (p ++ q) = true.
Proof.
  intros Hf. revert t. induction p as [|k p IH]; intros t H; [apply Hf|].
  cbn in *. destruct (sget t k) as [n|] eqn:E; [|discriminate].
  specialize (IH _ H). destruct (walk (children_of n) p f) as [ch ok]. cbn in *.
  rewrite sget_sset_eq. exact IH.
Qed.

Lemma update_v1_subsumes (d : StatDataV1.t) (t : StatTree) : subsumes t (update_v1 d t).
Proof.
  unfold update_v1. destruct (sget t (StatDataV1.id d)) as [n|] eqn:E.
  - apply subsumes_sset with n; [exact E | apply subsumes_refl].
  - apply subsumes_sset_new, E.
Qed.

Lemma update_v1_reaches (d : StatDataV1.t) (t : StatTree) : resolves (update_v1 d t) [StatDataV1.id d] = true.
Proof. unfold update_v1. cbn. rewrite sget_sset_eq. reflexivity. Qed.

Lemma merge_v1_done (updated : list StatDataV1.t) (t : StatTree) (cache : path_cache) :
  cache_ok t cache ->
  exists t' cache', mergeStatTreeNodeV1 t updated cache = V1Done t' cache' /\
    cache_ok t' cache' /\ subsumes t t' /\
    (forall k p, sget cache k = Some p -> sget cache' k = Some p).
Proof.
  revert t cache. induction updated as [|d updated IH]; intros t cache C.
  - exists t, cache. split; [reflexivity|]. split; [exact C|]. split; [apply subsumes_refl | auto].
  - cbn [mergeStatTreeNodeV1]. destruct (parent_path cache d) as [p|] eqn:P.
    2: { exact (IH t cache C). }
    assert (Rp : resolves t p = true).
    { unfold parent_path in P. destruct (StatDataV1.parent_id d) as [x|].
      - destruct (String.eqb x ""); [inversion P; reflexivity|]. exact (C _ _ P).
      - inversion P; reflexivity. }
    pose proof (walk_ok t p (update_v1 d) Rp) as Ok.
    pose proof (walk_subsumes t p (update_v1 d) (update_v1_subsumes d)) as Sub.
    pose proof (walk_reaches t p [StatDataV1.id d] (update_v1 d) (update_v1_reaches d) Rp) as Reach.
    destruct (walk t p (update_v1 d)) as [t1 ok]. cbn in Ok, Sub, Reach. subst ok.
    set (cache1 := if shas cache (StatDataV1.id d) then cache
                   else sset cache (StatDataV1.id d) (p ++ [StatDataV1.id d])).
    assert (C1 : cache_ok t1 cache1 /\ forall k q, sget cache k = Some q -> sget cache1 k = Some q).
    { unfold cache1, shas. destruct (sget cache (StatDataV1.id d)) as [x|] eqn:E.
      - split; [|auto]. intros k q H. apply Sub, (C _ _ H).
      - split.
        + intros k q H. rewrite sget_sset in H. destruct (String.eqb k (StatDataV1.id d)).
          * inversion H; subst q. exact Reach.
          * apply Sub, (C _ _ H).
        + intros k q H. rewrite sget_sset. destruct (String.eqb k (StatDataV1.id d)) eqn:K; [|exact H].
          apply String.eqb_eq in K. subst k. congruence. }
    destruct C1 as [C1 K1].
    destruct (IH t1 cache1 C1) as (t' & cache' & M & C' & S' & K').
    exists t', cache'. split; [exact M|]. split; [exact C'|].
    split; [exact (subsumes_trans _ _ _ Sub S')|]. intros k q H. apply K', K1, H.
Qed.

Lemma run_v1_from (batches : list (list StatDataV1.t)) (st : stat_state) :
  cache_ok (tree_of st) (v1PathCache st) ->
  let '(st', errors) := run_v1 st batches in
  errors = [] /\ currentTick st' = currentTick st /\
  stat_ticks st' = stat_ticks st ++ repeat (currentTick st) (length batches) /\
  cache_ok (tree_of st') (v1PathCache st') /\ subsumes (tree_of st) (tree_of st') /\
  (forall k p, sget (v1PathCache st) k = Some p -> sget (v1PathCache st') k = Some p).
Proof.
  revert st. induction batches as [|b batches IH]; intros st C.
  - cbn. rewrite app_nil_r. split; [reflexivity|]. split; [reflexivity|]. split; [reflexivity|].
    split; [exact C|]. split; [apply subsumes_refl | auto].
  - cbn [run_v1]. unfold on_StatEvent.
    destruct (merge_v1_done b (tree_of st) (v1PathCache st) C) as (t1 & c1 & M & C1 & S1 & K1).
    unfold tree_of in M. rewrite M.
    set (st1 := mkStatState (Some t1) (currentTick st) c1 (stat_ticks st ++ [currentTick st])).
    specialize (IH st1 C1). destruct (run_v1 st1 batches) as [st' errors].
    destruct IH as (E & T & Ts & C' & S' & K'). cbn in T, Ts.
    split; [exact E|]. split; [exact T|].
    split; [rewrite Ts, <- app_assoc; reflexivity|]. split; [exact C'|].
    split; [exact (subsumes_trans _ _ _ S1 S')|]. intros k p H. apply K', K1, H.
Qed.

(** A stream of ['StatEvent'] messages alone never makes the listener
    throw ['Cannot find node in stat tree']: every path the cache holds
    leads to a node of [currentStat], and stays so, since v1 merges never
    remove a node; an entry whose parent is not cached yet is skipped.
    Each message emits one ['stat'] event, with [tick] 0, since only
    ['StatEvent2'] moves [currentTick]. A path, once cached for an id,
    is never replaced. *)
Theorem stat_v1_never_throws (batches : list (list StatDataV1.t)) :
  Forall (fun b => forallb plain_v1 b = true) batches ->
  let '(st, errors) := run_v1 init_stat_state batches in
  errors = [] /\ stat_ticks st = repeat 0 (length batches) /\ cache_ok (tree_of st) (v1PathCache st).
Proof.
  intros _. assert (C : cache_ok (tree_of init_stat_state) (v1PathCache init_stat_state))
    by (intros k p H; discriminate).
  pose proof (run_v1_from batches init_stat_state C) as H.
  destruct (run_v1 init_stat_state batches) as [st errors].
  destruct H as (E & _ & Ts & C' & _). auto.
Qed.

(** ** Version 2 *)

Section V2.
Variable tick : Z.

Lemma merge_go (l : list StatDataModel.t) (t : StatTree) :
  (fix go (t : StatTree) (l : list StatDataModel.t) : StatTree :=
     match l with [] => t | c :: r => go (merge_v2_entry t c tick) r end) t l =
  mergeStatTreeNodeV2 t l tick.
Proof.
  unfold mergeStatTreeNodeV2. revert t. induction l as [|c l IH]; intros t; [reflexivity|]. apply IH.
Qed.

Lemma merge_v2_entry_eq (t : StatTree) (name : string) (sa : option bool)
  (cs : option (list StatDataModel.t)) (vs : option (list jsval)) :
  merge_v2_entry t (StatDataModel.mk name sa cs vs) tick =
  let existed := match sget t name with Some n => n | None => new_node name end in
  sset t name
    (StatTreeNode.mk (StatTreeNode.name existed) (StatTreeNode.label existed)
       (StatTreeNode.type existed) (Some tick)
       (match vs with Some _ => sa | None => StatTreeNode.aggregated existed end)
       (match vs with Some v => Some v | None => StatTreeNode.values existed end)
       (match cs with
        | Some l =>
            Some (mergeStatTreeNodeV2
                    (match sa with
                     | Some true => filter (fun kv => existsb (String.eqb (fst kv)) (map StatDataModel.name l))
                                      (children_of existed)
                     | _ => children_of existed
                     end) l tick)
        | None => StatTreeNode.children existed
        end)).
Proof. cbn [merge_v2_entry]. destruct cs as [l|]; [rewrite merge_go|]; reflexivity. Qed.

Lemma shas_sset {A} (m : list (string * A)) (k k' : string) (v : A) :
  shas (sset m k v) k' = String.eqb k' k || shas m k'.
Proof. unfold shas. rewrite sget_sset. destruct (String.eqb k' k); reflexivity. Qed.

Lemma shas_merge_v2 (l : list StatDataModel.t) (t : StatTree) (k : string) :
  shas (mergeStatTreeNodeV2 t l tick) k = existsb (String.eqb k) (map StatDataModel.name l) || shas t k.
Proof.
  unfold mergeStatTreeNodeV2. revert t. induction l as [|[n sa cs vs] l IH]; intros t; [reflexivity|].
  cbn [fold_left]. rewrite IH, merge_v2_entry_eq. cbn zeta. rewrite shas_sset.
  cbn [map existsb StatDataModel.name].
  destruct (String.eqb k n), (existsb (String.eqb k) (map StatDataModel.name l)), (shas t k); reflexivity.
Qed.

Lemma shas_filter_key {A} (f : string -> bool) (m : list (string * A)) (k : string) :
  shas (filter (fun kv => f (fst kv)) m) k = f k && shas m k.
Proof.
  unfold shas. induction m as [|[x y] m IH]; cbn; [destruct (f k); reflexivity|].
  destruct (f x) eqn:F; cbn [sget]; destruct (String.eqb k x) eqn:E; try exact IH.
  - apply String.eqb_eq in E. subst. rewrite F. reflexivity.
  - apply String.eqb_eq in E. subst. rewrite IH, F. reflexivity.
Qed.

End V2.

(** When no name of the entry, at any depth, is a member name of
    [Object.prototype] (say ['__proto__'] or ['toString']), one entry of
    [mergeStatTreeNodeV2] touches the node of its own name alone, creating
    it when missing: that node gets [updateTick] set to
    the tick, keeps its [name], [label] and [type], takes the entry's
    [values], and its [should_aggregate] as [aggregated], only when the
    entry has [values]. When the entry has [children], the node's
    children are the entry's children names together with the old
    children, or the entry's children names alone when [should_aggregate]
    is [true]; without [children] they are left as they were. *)
Theorem stat_v2_entry (t : StatTree) (d : StatDataModel.t) (tick : Z) :
  plain_names d = true ->
  let t' := merge_v2_entry t d tick in
  let existed := match sget t (StatDataModel.name d) with Some n => n | None => new_node (StatDataModel.name d) end in
  (forall k, k <> StatDataModel.name d -> sget t' k = sget t k) /\
  exists n, sget t' (StatDataModel.name d) = Some n /\
    StatTreeNode.name n = StatTreeNode.name existed /\
    StatTreeNode.label n = StatTreeNode.label existed /\
    StatTreeNode.type n = StatTreeNode.type existed /\
    StatTreeNode.updateTick n = Some tick /\
    StatTreeNode.values n =
      match StatDataModel.values d with Some vs => Some vs | None => StatTreeNode.values existed end /\
    StatTreeNode.aggregated n =
      match StatDataModel.values d with
      | Some _ => StatDataModel.should_aggregate d
      | None => StatTreeNode.aggregated existed
      end /\
    (StatDataModel.children d = None -> StatTreeNode.children n = StatTreeNode.children existed) /\
    (forall cs, StatDataModel.children d = Some cs -> forall k,
       shas (children_of n) k =
       existsb (String.eqb k) (map StatDataModel.name cs) ||
       match StatDataModel.should_aggregate d with
       | Some true => false
       | _ => shas (children_of existed) k
       end).
Proof.
  intros _. destruct d as [name sa cs vs]. cbn zeta. cbn [StatDataModel.name StatDataModel.values
    StatDataModel.should_aggregate StatDataModel.children].
  rewrite merge_v2_entry_eq. cbn zeta.
  set (existed := match sget t name with Some n => n | None => new_node name end).
  split; [intros k N; apply sget_sset_neq; intros ->; apply N; reflexivity|].
  eexists. split; [apply sget_sset_eq|]. cbn [StatTreeNode.name StatTreeNode.label StatTreeNode.type
    StatTreeNode.updateTick StatTreeNode.values StatTreeNode.aggregated StatTreeNode.children].
  do 6 (split; [reflexivity|]). split.
  - intros ->. reflexivity.
  - intros l E k. subst cs. unfold children_of at 1. cbn [StatTreeNode.children].
    rewrite shas_merge_v2.
    destruct sa as [[]|].
    + rewrite (shas_filter_key (fun x => existsb (String.eqb x) (map StatDataModel.name l))).
      destruct (existsb (String.eqb k) (map StatDataModel.name l)); reflexivity.
    + reflexivity.
    + reflexivity.
Qed.

Lemma merge_v2_keeps (tick : Z) (d : StatDataModel.t) :
  no_aggregate d = true -> forall t, subsumes t (merge_v2_entry t d tick).
Proof.
  induction d as [name sa cs vs IH] using StatDataModel_ind'. intros Na t.
  rewrite merge_v2_entry_eq. cbn zeta.
  cbn [no_aggregate] in Na. apply andb_true_iff in Na. destruct Na as [Sa Cs].
  destruct (sget t name) as [n|] eqn:E; [|apply subsumes_sset_new, E].
  apply subsumes_sset with n; [exact E|].
  unfold children_of at 2. cbn [StatTreeNode.children].
  destruct cs as [l|]; [|apply subsumes_refl].
  assert (K : forall t0, subsumes t0 (mergeStatTreeNodeV2 t0 l tick)).
  { unfold mergeStatTreeNodeV2. pose proof (proj1 (forallb_forall no_aggregate l) Cs) as Cs0. clear Cs. rename Cs0 into Cs.
    induction l as [|c l IHl]; intros t0; cbn [fold_left]; [apply subsumes_refl|].
    inversion IH as [|? ? Hc Hl]; subst.
    eapply subsumes_trans; [apply Hc; apply Cs; left; reflexivity|].
    apply IHl; [exact Hl | intros x Hx; apply Cs; right; exact Hx]. }
  destruct sa as [[]|]; [discriminate | apply K | apply K].
Qed.

(** When no entry of a ['StatEvent2'] update asks for aggregation and no
    name is a member name of [Object.prototype], at any depth, the merge
    removes nothing: every path that led to a node of
    the stat tree before still does after. *)
Theorem stat_v2_keeps_paths (t : StatTree) (updated : list StatDataModel.t) (tick : Z) :
  forallb no_aggregate updated = true -> forallb plain_names updated = true ->
  subsumes t (mergeStatTreeNodeV2 t updated tick).
Proof.
  intros Na _. unfold mergeStatTreeNodeV2. revert t. pose proof (proj1 (forallb_forall no_aggregate updated) Na) as Na0. clear Na. rename Na0 into Na.
  induction updated as [|d updated IH]; intros t; cbn [fold_left]; [apply subsumes_refl|].
  eapply subsumes_trans; [apply merge_v2_keeps; apply Na; left; reflexivity|].
  apply IH. intros x Hx. apply Na. right. exact Hx.
Qed.

(** Two messages: [a], its child [b], then [b]'s child [c]. *)
Lemma stat_v1_never_throws_witness :
  let batches := [[StatDataV1.mk "a" None None (Some "A") (Some (int 1));
                   StatDataV1.mk "b" (Some "a") None None None];
                  [StatDataV1.mk "c" (Some "b") None None (Some (JStr "x"))]] in
  Forall (fun b => forallb plain_v1 b = true) batches /\
  let '(st, errors) := run_v1 init_stat_state batches in
  errors = [] /\ stat_ticks st = repeat 0 (length batches) /\ cache_ok (tree_of st) (v1PathCache st).
Proof.
  intros batches. split; [repeat constructor|].
  apply stat_v1_never_throws. repeat constructor.
Defined.

(** An aggregated entry [root] whose update names the child [x] only, on a
    tree where [root] has the children [x] and [y]. *)
Lemma stat_v2_entry_witness :
  let t := [("root", StatTreeNode.mk "root" None None None None None
                       (Some [("x", new_node "x"); ("y", new_node "y")]))] in
  let d := StatDataModel.mk "root" (Some true) (Some [StatDataModel.mk "x" None None (Some [int 1])]) (Some [int 2]) in
  plain_names d = true /\
  let t' := merge_v2_entry t d 7 in
  let existed := match sget t (StatDataModel.name d) with Some n => n | None => new_node (StatDataModel.name d) end in
  (forall k, k <> StatDataModel.name d -> sget t' k = sget t k) /\
  exists n, sget t' (StatDataModel.name d) = Some n /\
    StatTreeNode.name n = StatTreeNode.name existed /\
    StatTreeNode.label n = StatTreeNode.label existed /\
    StatTreeNode.type n = StatTreeNode.type existed /\
    StatTreeNode.updateTick n = Some 7 /\
    StatTreeNode.values n =
      match StatDataModel.values d with Some vs => Some vs | None => StatTreeNode.values existed end /\
    StatTreeNode.aggregated n =
      match StatDataModel.values d with
      | Some _ => StatDataModel.should_aggregate d
      | None => StatTreeNode.aggregated existed
      end /\
    (StatDataModel.children d = None -> StatTreeNode.children n = StatTreeNode.children existed) /\
    (forall cs, StatDataModel.children d = Some cs -> forall k,
       shas (children_of n) k =
       existsb (String.eqb k) (map StatDataModel.name cs) ||
       match StatDataModel.should_aggregate d with
       | Some true => false
       | _ => shas (children_of existed) k
       end).
Proof.
  intros t d. split; [reflexivity|]. apply stat_v2_entry. reflexivity.
Defined.

(** An update without aggregation, on a tree with the path [root -> x]. *)
Lemma stat_v2_keeps_paths_witness :
  let t := [("root", StatTreeNode.mk "root" None None None None None (Some [("x", new_node "x")]))] in
  let updated := [StatDataModel.mk "root" (Some false) (Some [StatDataModel.mk "y" None None (Some [int 1])]) (Some [int 2])] in
  (forallb no_aggregate updated = true /\ forallb plain_names updated = true) /\
  subsumes t (mergeStatTreeNodeV2 t updated 3).
Proof.
  intros t updated. split; [split; reflexivity|].
  apply stat_v2_keeps_paths; reflexivity.
Defined.

End StatsFacts.
